(** * QTAIM surface construction (chemtools/topology/qtaim.py)

    A shallow embedding of the basin-boundary solver: the gradient-flow
    integrator [gradient_path], the isosurface root-finder
    [solve_for_isosurface_pt], the ray tracer [solve_for_basin_bnd_pt], the
    maxima locator [_optimize_centers], the driver [qtaim_surface] and the
    surface model [SurfaceQTAIM].

    Floating-point numbers are idealised as exact rationals [Q].  Everything
    that the Python file imports from numpy, scipy and grid (the Euclidean norm,
    the ODE solver, the bracketed root finder, the angular and atomic grids,
    the convex hull) and the two caller-supplied fields (density, gradient)
    are collaborators, gathered in the record [Env].  Calls to the
    collaborators are recorded in a log, exceptions are explicit outcomes, and
    the two [while] loops take fuel. *)

From Stdlib Require Import QArith Qabs Qround Lqa ZArith Lia List Bool Permutation.
From stdpp Require Import base list.
Import ListNotations.

Local Open Scope Q_scope.

(** ** Numbers *)

Definition Qltb (x y : Q) : bool := negb (Qle_bool y x).
Definition Qgtb (x y : Q) : bool := Qltb y x.

(** Python's built-in [max(a, b)]: the first argument unless the second is
    strictly larger. *)
Definition py_max (a b : Q) : Q := if Qltb a b then b else a.

(** ** Points of space: rows of an ndarray(N, 3) *)

Record vec : Type := mkvec { vx : Q; vy : Q; vz : Q }.

Definition vadd (a b : vec) : vec := mkvec (vx a + vx b) (vy a + vy b) (vz a + vz b).
Definition vsub (a b : vec) : vec := mkvec (vx a - vx b) (vy a - vy b) (vz a - vz b).
Definition vscale (c : Q) (a : vec) : vec := mkvec (c * vx a) (c * vy a) (c * vz a).
Definition vdiv (a : vec) (c : Q) : vec := mkvec (vx a / c) (vy a / c) (vz a / c).
Definition vabs (a : vec) : vec := mkvec (Qabs (vx a)) (Qabs (vy a)) (Qabs (vz a)).

(** [np.all(v < c)] on the three coordinates. *)
Definition vall_lt (a : vec) (c : Q) : bool :=
  Qltb (vx a) c && Qltb (vy a) c && Qltb (vz a) c.

(** [maxima + t * cart_sphere_pt] *)
Definition ray_point (maxima : vec) (t : Q) (cart_sphere_pt : vec) : vec :=
  vadd maxima (vscale t cart_sphere_pt).

(** ** Exceptions, collaborator calls and the computation monad *)

Inductive ode_method : Type := LSODA | Radau.

Record ivp_args : Type := mk_ivp_args {
  ivp_y0 : vec;
  ivp_t_span : Q * Q;
  ivp_method : ode_method;
  ivp_max_step : Q;
  ivp_first_step : Q
}.

(** What the code reads of the result of [solve_ivp]: [sol["success"]],
    [sol["y"][:, -2]] and [sol["y"][:, -1]]. *)
Record ivp_sol : Type := mk_ivp_sol {
  sol_success : bool;
  sol_y_prev : vec;
  sol_y_last : vec
}.

(** What the code reads of the result of [root_scalar]. *)
Record root_sol : Type := mk_root_sol {
  sol_converged : bool;
  sol_root : Q
}.

Inductive exn : Type :=
| TypeError_refine                                  (* qtaim_surface, refine of a wrong type *)
| ValueError_cutoff (dens_cutoff iso_val : Q)       (* qtaim_surface, dens_cutoff > iso_val *)
| ValueError_beta_sphere (n_beta n_centers : nat)   (* qtaim_surface, beta sphere length *)
| RuntimeError_duplicates (maximas : list vec)      (* _optimize_centers *)
| RuntimeError_no_convergence (pt sol : vec) (t_span : Q * Q)   (* gradient_path *)
| AssertionError_ode                                (* gradient_path, assert sol["success"] *)
| UnboundLocalError_sol                             (* gradient_path, max_tries = 0 *)
| ValueError_bracket (l_bnd u_bnd dens_l_bnd dens_u_bnd iso_val : Q)  (* solve_for_isosurface_pt *)
| AssertionError_root                               (* solve_for_isosurface_pt, assert sol.converged *)
| IndexError                                        (* a subscript out of range *)
| TypeError_list_index                              (* a list subscripted with a tuple *)
| TypeError_None                                    (* arithmetic on None *)
| ValueError_arange                                 (* np.arange with a step that is nan or 0 *)
| QhullError                                        (* ConvexHull rejects its input *)
| ExternalError.                                    (* a grid collaborator rejects its input *)

Inductive event : Type :=
| CallDensity (pts : list vec)
| CallSolveIvp (a : ivp_args)
| CallRootScalar (l_bnd u_bnd xtol : Q)
| CallAngularGrid (degree : Z)
| CallConvexHull (pts : list vec)
| CallAtomGrid (rgrid : list Q) (degree : Z) (center : vec).

Inductive outcome (A : Type) : Type :=
| Ret (a : A)
| Raise (e : exn)
| Diverge.
Arguments Ret {A} a.
Arguments Raise {A} e.
Arguments Diverge {A}.

(** A computation reads and extends the log of collaborator calls. *)
Definition M (A : Type) : Type := list event -> outcome A * list event.

Definition ret {A} (a : A) : M A := fun log => (Ret a, log).
Definition raise {A} (e : exn) : M A := fun log => (Raise e, log).
Definition diverge {A} : M A := fun log => (Diverge, log).
Definition emit (e : event) : M unit := fun log => (Ret tt, log ++ [e]).
Definition bind {A B} (m : M A) (k : A -> M B) : M B :=
  fun log =>
    match m log with
    | (Ret a, log') => k a log'
    | (Raise e, log') => (Raise e, log')
    | (Diverge, log') => (Diverge, log')
    end.

Declare Scope comp_scope.
Delimit Scope comp_scope with comp.
Bind Scope comp_scope with M.
Notation "x <- m ;; k" := (bind m (fun x => k))
  (at level 100, m at next level, right associativity) : comp_scope.
Notation "m ;;; k" := (bind m (fun _ => k))
  (at level 100, right associativity) : comp_scope.
Local Open Scope comp_scope.

(** A [for] loop over [xs] that threads the mutated variables [s]. *)
Fixpoint for_each {A S : Type} (xs : list A) (body : A -> S -> M S) (s : S) : M S :=
  match xs with
  | [] => ret s
  | x :: xs' => s' <- body x s ;; for_each xs' body s'
  end.

(** A list comprehension whose element expression is a computation. *)
Fixpoint map_M {A B : Type} (f : A -> M B) (xs : list A) : M (list B) :=
  match xs with
  | [] => ret []
  | x :: xs' => y <- f x ;; ys <- map_M f xs' ;; ret (y :: ys)
  end.

(** Python subscripting [l[i]]: negative subscripts count from the end. *)
Definition py_index {A : Type} (l : list A) (i : Z) : M A :=
  let n := Z.of_nat (length l) in
  let j := (if i <? 0 then i + n else i)%Z in
  if ((j <? 0) || (n <=? j))%Z then raise IndexError
  else match l !! Z.to_nat j with
       | Some x => ret x
       | None => raise IndexError
       end.

(** ** Collaborators *)

(** What the code reads of an [AtomGrid]: [rgrid.points], the size of
    [get_shell_grid(0)], [indices] and [weights]. *)
Record atom_grid : Type := mk_atom_grid {
  ag_rgrid_points : list Q;
  ag_shell_size : nat;
  ag_indices : list nat;
  ag_weights : list Q
}.

Record Env : Type := mk_env {
  (** [np.linalg.norm] of a row *)
  norm : vec -> Q;
  (** the density, evaluated pointwise on an array of points *)
  density_func : vec -> Q;
  (** the gradient of the density at a point *)
  grad_func : vec -> vec;
  (** [scipy.integrate.solve_ivp], given the right-hand side *)
  solve_ivp : (Q -> vec -> vec) -> ivp_args -> ivp_sol;
  (** [scipy.optimize.root_scalar] with method toms748, given the function,
      the bracket and xtol *)
  root_scalar : (Q -> Q) -> Q -> Q -> Q -> root_sol;
  (** [AngularGrid(degree=d).points] *)
  AngularGrid_points : Z -> list vec;
  (** [ConvexHull(pts)], read as [hull.points[hull.vertices]]; [None] when
      Qhull rejects the points *)
  ConvexHull_boundary : list vec -> option (list vec);
  (** [AtomGrid(rgrid, degrees=[d], center=c)] *)
  AtomGrid : list Q -> Z -> vec -> atom_grid
}.

(** ** The solver *)

Section Solver.

Context (E : Env).

(** *** Logged collaborator calls *)

(** [density_func(np.array([pt]))] *)
Definition density_at (pt : vec) : M Q :=
  emit (CallDensity [pt]) ;;; ret (density_func E pt).

(** [density_func(ray)] *)
Definition density_on (pts : list vec) : M (list Q) :=
  emit (CallDensity pts) ;;; ret (map (density_func E) pts).

(** [solve_ivp(lambda t, x: grad_func(np.array([x]))[0].T, ...)] *)
Definition call_solve_ivp (a : ivp_args) : M ivp_sol :=
  emit (CallSolveIvp a) ;;; ret (solve_ivp E (fun _ x => grad_func E x) a).

Definition call_root_scalar (root_func : Q -> Q) (l_bnd u_bnd xtol : Q) : M root_sol :=
  emit (CallRootScalar l_bnd u_bnd xtol) ;;; ret (root_scalar E root_func l_bnd u_bnd xtol).

(** *** Gradient-flow integrator *)

Section GradientPath.

Context (pt : vec) (method : ode_method) (max_step t_inc : Q) (max_tries : nat)
        (first_step : Q) (beta_sphere_maxima : option Q) (maxima : option vec).

(** [np.all(np.abs(sol["y"][:, -2] - sol["y"][:, -1]) < 0.01)] *)
Definition ode_converged (sol : ivp_sol) : bool :=
  vall_lt (vabs (vsub (sol_y_prev sol) (sol_y_last sol))) (1 # 100).

(** The [while] loop of [gradient_path] and the test after it.  The loop
    variables are [y0], [t_span], [numb_times] and the last [sol];
    [is_converged] is never assigned in the loop.  [beta_sphere_maxima] is
    [None] for [-np.inf].  [max_tries] is a count: no caller in the file
    passes it, so it is 10.  The result is [None] when the function falls
    off its end. *)
Fixpoint gradient_path_loop (fuel : nat) (y0 : vec) (t_span : Q * Q) (numb_times : nat)
    (last_sol : option ivp_sol) : M (option vec) :=
  if (numb_times <? max_tries)%nat then
    match fuel with
    | O => diverge
    | S fuel' =>
      sol <- call_solve_ivp (mk_ivp_args y0 t_span method max_step first_step) ;;
      if negb (sol_success sol) then raise AssertionError_ode
      else if ode_converged sol then ret (Some (sol_y_last sol))
      else match beta_sphere_maxima with
           | Some beta =>
             match maxima with
             | None => raise TypeError_None
             | Some m =>
               let radial := norm E (vsub (sol_y_last sol) m) in
               if Qltb radial beta then ret (Some (sol_y_last sol))
               else gradient_path_loop fuel' y0 t_span numb_times (Some sol)
             end
           | None =>
             gradient_path_loop fuel' (sol_y_last sol) (snd t_span, snd t_span + t_inc)
                                (S numb_times) (Some sol)
           end
    end
  else if (numb_times =? max_tries)%nat then
    match last_sol with
    | None => raise UnboundLocalError_sol
    | Some sol => raise (RuntimeError_no_convergence pt (sol_y_last sol) t_span)
    end
  else ret None.

Definition gradient_path_with (fuel : nat) (t_span : Q * Q) : M (option vec) :=
  gradient_path_loop fuel pt t_span 0%nat None.

End GradientPath.

(** [gradient_path(pt, grad_func, t_span=(0, 1000), method="LSODA", max_step=100,
    t_inc=200, max_tries=10, first_step=1e-3, beta_sphere_maxima=-np.inf,
    maxima=None)] with every keyword explicit. *)
Definition gradient_path (fuel : nat) (pt : vec) (t_span : Q * Q) (method : ode_method)
    (max_step t_inc : Q) (max_tries : nat) (first_step : Q)
    (beta_sphere_maxima : option Q) (maxima : option vec) : M (option vec) :=
  gradient_path_with pt method max_step t_inc max_tries first_step beta_sphere_maxima
                     maxima fuel t_span.

(** A value that must be an array: [None] in arithmetic raises. *)
Definition expect_array {A : Type} (o : option A) : M A :=
  match o with
  | Some a => ret a
  | None => raise TypeError_None
  end.

(** *** Isosurface root-finder *)

(** The bracket of [solve_for_isosurface_pt]:
    [l_bnd = rad_pts[index_iso - 1] if index_iso >= 0 else rad_pts[index_iso] / 2.0]
    [u_bnd = rad_pts[index_iso + 1] if index_iso + 1 < len(rad_pts)
             else rad_pts[index_iso] * 2.0] *)
Definition iso_bracket (index_iso : Z) (rad_pts : list Q) : M (Q * Q) :=
  l_bnd <- (if (0 <=? index_iso)%Z then py_index rad_pts (index_iso - 1)
            else (r <- py_index rad_pts index_iso ;; ret (r / 2))) ;;
  u_bnd <- (if (index_iso + 1 <? Z.of_nat (length rad_pts))%Z
            then py_index rad_pts (index_iso + 1)
            else (r <- py_index rad_pts index_iso ;; ret (r * 2))) ;;
  ret (l_bnd, u_bnd).

Definition solve_for_isosurface_pt (index_iso : Z) (rad_pts : list Q)
    (maxima cart_sphere_pt : vec) (iso_val iso_err : Q) : M vec :=
  b <- iso_bracket index_iso rad_pts ;;
  let '(l_bnd, u_bnd) := b in
  dens_l_bnd <- density_at (ray_point maxima l_bnd cart_sphere_pt) ;;
  dens_u_bnd <- density_at (ray_point maxima u_bnd cart_sphere_pt) ;;
  if Qltb iso_val dens_u_bnd || Qltb dens_l_bnd iso_val
  then raise (ValueError_bracket l_bnd u_bnd dens_l_bnd dens_u_bnd iso_val)
  else
    let root_func := fun t => density_func E (ray_point maxima t cart_sphere_pt) - iso_val in
    sol <- call_root_scalar root_func l_bnd u_bnd iso_err ;;
    if negb (sol_converged sol) then raise AssertionError_root
    else
      let bnd_pt := ray_point maxima (sol_root sol) cart_sphere_pt in
      density_at bnd_pt ;;;   (* the value printed with the point *)
      ret bnd_pt.

(** *** numpy helpers of the ray tracer *)

(** [np.diff] *)
Fixpoint np_diff (l : list Q) : list Q :=
  match l with
  | a :: ((b :: _) as tl) => (b - a) :: np_diff tl
  | _ => []
  end.

Definition np_sum (l : list Q) : Q := fold_left Qplus l 0.

(** [np.mean]: [None] stands for the nan that numpy returns on an empty array. *)
Definition np_mean (l : list Q) : option Q :=
  match l with
  | [] => None
  | _ => Some (np_sum l / inject_Z (Z.of_nat (length l)))
  end.

(** The values [start + k * step] of [np.arange(start, stop, step)], for
    [k] below [ceil((stop - start) / step)].  The quotient is exact here;
    numpy takes it in double precision, so that where it is an integer up to
    rounding the array can have one sample more or less.  No theorem states
    the number of samples or the last value of a refined grid in general. *)
Definition arange_values (start stop step : Q) : list Q :=
  map (fun k => start + inject_Z (Z.of_nat k) * step)
      (seq 0 (Z.to_nat (Qceiling ((stop - start) / step)))).

(** [np.arange(start, stop, step)]; numpy refuses a zero step. *)
Definition np_arange (start stop step : Q) : M (list Q) :=
  if Qeq_bool step 0 then raise ValueError_arange
  else ret (arange_values start stop step).

(** [np.argsort(a)[0]]: the position of a least element of [a].  Among
    equal least elements the first is taken (numpy's default sort leaves
    that choice open). *)
Fixpoint argmin_from (i best : nat) (best_val : Q) (l : list Q) : nat :=
  match l with
  | [] => best
  | x :: l' => if Qltb x best_val then argmin_from (S i) i x l'
               else argmin_from (S i) best best_val l'
  end.

Definition argsort_first (a : list Q) : M nat :=
  match a with
  | [] => raise IndexError
  | x :: a' => ret (argmin_from 1 0 x a')
  end.

(** [np.where(a < c)[0][0]] *)
Fixpoint first_below (c : Q) (a : list Q) : option nat :=
  match a with
  | [] => None
  | x :: a' => if Qltb x c then Some 0%nat else option_map S (first_below c a')
  end.

(** [enumerate(xs)] *)
Definition enumerate {A : Type} (xs : list A) : list (nat * A) :=
  combine (seq 0 (length xs)) xs.

(** *** Ray tracer / boundary solver *)

(** How the [for] loop over the ray ends: by one of its three [break]s, or
    by running to completion with the flag [is_ray_to_inf]. *)
Inductive ray_break : Type :=
| FoundWatershed (bnd_pt : vec) (basin_id : nat)
| RefineRay (rad_pts : list Q) (ss_ray : option Q)
| BelowCutoff (i_ray : nat).

Inductive ray_scan : Type :=
| Broke (b : ray_break)
| Completed (is_ray_to_inf : bool).

(** The five values returned by [solve_for_basin_bnd_pt]. *)
Record trace_result : Type := mk_trace_result {
  tr_bnd_pt : option vec;
  tr_is_ray_to_inf : bool;
  tr_index_iso : option Z;
  tr_found_watershed_on_ray : bool;
  tr_basin_id : option nat
}.

Section RayTracer.

Context (fuel : nat).
Context (dens_cutoff : Q) (maxima cart_sphere_pt : vec) (other_maximas : list vec)
        (bnd_err iso_val : Q) (beta_sphere_maxima : option Q)
        (beta_sphere_others : option (list Q)).

(** [np.linalg.norm(y_val - other_maximas, axis=1)] *)
Definition dist_to_others (y_val : vec) : list Q :=
  map (fun m => norm E (vsub y_val m)) other_maximas.

(** [np.any(dist_maxima < 1e-1) or np.any(dist_maxima < beta_sphere_others)];
    [beta_sphere_others] is [None] for [-np.inf], and otherwise has one
    radius per other maximum. *)
Definition near_other_maxima (dist_maxima : list Q) : bool :=
  existsb (fun d => Qltb d (1 # 10)) dist_maxima
  || match beta_sphere_others with
     | None => false
     | Some betas => existsb (fun p => Qltb (fst p) (snd p)) (combine dist_maxima betas)
     end.

(** The block under "Close to other maxima": resolve the watershed or
    refine the grid.  [ss_ray] is [None] when it is nan, which is what
    [np.mean(np.diff(rad_pts))] gives for fewer than two radii; numpy
    refuses a nan step. *)
Definition on_basin_switch (ray : list vec) (ss_ray : option Q) (i_ray : nat)
    (dist_maxima : list Q) : M ray_break :=
  cur <- py_index ray (Z.of_nat i_ray) ;;
  prev <- py_index ray (Z.of_nat i_ray - 1) ;;
  let dist := norm E (vsub cur prev) in
  if Qltb dist bnd_err then
    let bnd_pt := vdiv (vadd cur prev) 2 in
    match first_below (1 # 10) dist_maxima with
    | None => raise IndexError
    | Some k => ret (FoundWatershed bnd_pt (k + 1))   (* basins starts at 1 *)
    end
  else
    let l_bnd := if negb (i_ray =? 0)%nat then norm E (vsub prev maxima) else 1 # 1000 in
    let u_bnd := norm E (vsub cur maxima) in
    match ss_ray with
    | None => raise ValueError_arange      (* the step is nan *)
    | Some ss =>
      let ss_ray' := ss / 10 in
      rad_pts' <- np_arange l_bnd (u_bnd + ss_ray') ss_ray' ;;
      ret (RefineRay rad_pts' (Some ss_ray'))
    end.

(** One iteration of [for i_ray, pt in enumerate(ray)]; [None] means that
    the loop goes on. *)
Definition ray_iter (rad_pts : list Q) (ray : list vec) (ray_density : list Q)
    (ss_ray : option Q) (i_ray : nat) (pt : vec) : M (option ray_break) :=
  dens <- py_index ray_density (Z.of_nat i_ray) ;;
  if Qgtb dens dens_cutoff then
    r <- py_index rad_pts (Z.of_nat i_ray) ;;
    y <- gradient_path fuel pt (0, py_max (1000 * r) 75) LSODA 50 200 10 (1 # 1000)
                       beta_sphere_maxima (Some maxima) ;;
    y_val <- expect_array y ;;
    let dist_maxima := dist_to_others y_val in
    if near_other_maxima dist_maxima then
      b <- on_basin_switch ray ss_ray i_ray dist_maxima ;; ret (Some b)
    else ret None
  else ret (Some (BelowCutoff i_ray)).

Fixpoint ray_loop (rad_pts : list Q) (ray : list vec) (ray_density : list Q)
    (ss_ray : option Q) (todo : list (nat * vec)) (is_ray_to_inf : bool) : M ray_scan :=
  match todo with
  | [] => ret (Completed is_ray_to_inf)
  | (i_ray, pt) :: todo' =>
    b <- ray_iter rad_pts ray ray_density ss_ray i_ray pt ;;
    match b with
    | Some b => ret (Broke b)
    | None =>
      let is_ray_to_inf' :=
        if (Z.of_nat i_ray =? Z.of_nat (length ray) - 1)%Z then true else is_ray_to_inf in
      ray_loop rad_pts ray ray_density ss_ray todo' is_ray_to_inf'
    end
  end.

(** [index_iso = np.argsort(np.abs(ray_density - iso_val))[0]] *)
Definition closest_to_iso (ray_density : list Q) : M nat :=
  argsort_first (map (fun d => Qabs (d - iso_val)) ray_density).

Definition ray_to_inf_result (index_iso : nat) : trace_result :=
  mk_trace_result None true (Some (Z.of_nat index_iso)) false None.

(** The [while not found_watershed_on_ray] loop.  Its variables are
    [rad_pts] and [ss_ray]; the others are set on exit only. *)
Fixpoint trace_loop (n : nat) (rad_pts : list Q) (ss_ray : option Q) : M trace_result :=
  match n with
  | O => diverge
  | S n' =>
    let ray := map (fun r => ray_point maxima r cart_sphere_pt) rad_pts in
    ray_density <- density_on ray ;;
    py_index ray 0 ;;; py_index ray (-1) ;;;   (* printed at the start of the ray *)
    scan <- ray_loop rad_pts ray ray_density ss_ray (enumerate ray) false ;;
    match scan with
    | Broke (FoundWatershed bnd_pt basin_id) =>
      ret (mk_trace_result (Some bnd_pt) false None true (Some basin_id))
    | Broke (RefineRay rad_pts' ss_ray') => trace_loop n' rad_pts' ss_ray'
    | Broke (BelowCutoff _) | Completed true =>
      index_iso <- closest_to_iso ray_density ;; ret (ray_to_inf_result index_iso)
    | Completed false => trace_loop n' rad_pts ss_ray
    end
  end.

Definition solve_for_basin_bnd_pt (radial : list Q) : M trace_result :=
  trace_loop fuel radial (np_mean (np_diff radial)).

End RayTracer.

(** *** Maxima locator *)

(** [cdist(a, b)] with the Euclidean metric *)
Definition cdist (a b : list vec) : list (list Q) :=
  map (fun x => map (fun y => norm E (vsub x y)) b) a.

(** [distance[np.diag_indices(len(maximas))] = 1.0] *)
Definition set_diagonal_to_one (distance : list (list Q)) : list (list Q) :=
  imap (fun i row => <[i := 1]> row) distance.

(** [np.any(distance < 1e-8)] *)
Definition any_below (c : Q) (distance : list (list Q)) : bool :=
  existsb (existsb (fun d => Qltb d c)) distance.

(** The element of the comprehension of [_optimize_centers]:
    [gradient_path(x, grad_func, t_span=(0, 10), method="Radau",
    first_step=1e-9, max_step=1e-2)], stored in a float array. *)
Definition refine_center (fuel : nat) (x : vec) : M vec :=
  y <- gradient_path fuel x (0, 10) Radau (1 # 100) 200 10 (1 # 1000000000) None None ;;
  expect_array y.

(** With no center the array of maxima is one-dimensional and [cdist]
    refuses it. *)
Definition _optimize_centers (fuel : nat) (centers : list vec) : M (list vec) :=
  maximas <- map_M (refine_center fuel) centers ;;
  match maximas with
  | [] => raise ExternalError
  | _ :: _ =>
    let distance := set_diagonal_to_one (cdist maximas maximas) in
    if any_below (1 # 100000000) distance then raise (RuntimeError_duplicates maximas)
    else ret maximas
  end.

(** *** Surface refiner *)

(** [a.argsort()], as a stable insertion sort of the positions. *)
Fixpoint insert_by_key (x : Q * nat) (l : list (Q * nat)) : list (Q * nat) :=
  match l with
  | [] => [x]
  | y :: l' => if Qle_bool (fst x) (fst y) then x :: y :: l' else y :: insert_by_key x l'
  end.

Definition argsort (a : list Q) : list nat :=
  map snd (fold_right insert_by_key [] (combine a (seq 0 (length a)))).

(** [maxima + r_func_max[idx, None] * angular_pts[idx, :]] *)
Definition surface_pts_at (idx : list nat) (angular_pts : list vec) (r_func_max : list Q)
    (maxima : vec) : M (list vec) :=
  map_M (fun i => r <- py_index r_func_max (Z.of_nat i) ;;
                  a <- py_index angular_pts (Z.of_nat i) ;;
                  ret (ray_point maxima r a)) idx.

Definition call_convex_hull (pts : list vec) : M (list vec) :=
  emit (CallConvexHull pts) ;;;
  match ConvexHull_boundary E pts with
  | Some bnd => ret bnd
  | None => raise QhullError
  end.

(** The seven directions built from one vertex of the IAS hull and its two
    closest vertices of the OAS hull.  Where a candidate coincides with the
    maximum numpy divides by zero and stores nan; the division of [Q] gives
    0 there. *)
Definition seven_directions (maxima pt_ias pt1 pt2 : vec) : list vec :=
  let midpoint := vdiv (vadd (vadd pt1 pt2) pt_ias) 3 in
  let line_pt1 := vdiv (vadd pt1 pt_ias) 2 in
  let line_pt2 := vdiv (vadd pt2 pt_ias) 2 in
  let line_pt3 := vdiv (vadd pt1 pt2) 2 in
  let poly_pt1 := vdiv (vadd (vadd (vadd midpoint line_pt1) line_pt2) pt_ias) 4 in
  let poly_pt2 := vdiv (vadd (vadd (vadd midpoint line_pt1) line_pt3) pt1) 4 in
  let poly_pt3 := vdiv (vadd (vadd (vadd midpoint line_pt2) line_pt3) pt2) 4 in
  let new_pts := [midpoint; line_pt1; line_pt2; line_pt3; poly_pt1; poly_pt2; poly_pt3] in
  map (fun p => let direction := vsub p maxima in vdiv direction (norm E direction)) new_pts.

Definition construct_points_between_ias_and_oas (ias oas : list nat)
    (angular_pts : list vec) (r_func_max : list Q) (maxima : vec) : M (list vec) :=
  ias_pts <- surface_pts_at ias angular_pts r_func_max maxima ;;
  oas_pts <- surface_pts_at oas angular_pts r_func_max maxima ;;
  ias_bnd <- call_convex_hull ias_pts ;;
  oas_bnd <- call_convex_hull oas_pts ;;
  let dist_mat := cdist ias_bnd oas_bnd in
  blocks <- map_M (fun '(i_ias, pt_ias) =>
                     row <- py_index dist_mat (Z.of_nat i_ias) ;;
                     let two_indices := take 2 (argsort row) in
                     k1 <- py_index two_indices 0 ;;
                     k2 <- py_index two_indices 1 ;;
                     pt1 <- py_index oas_bnd (Z.of_nat k1) ;;
                     pt2 <- py_index oas_bnd (Z.of_nat k2) ;;
                     ret (seven_directions maxima pt_ias pt1 pt2))
                  (enumerate ias_bnd) ;;
  ret (concat blocks).

(** *** Surface model *)

(** [r_func] is built by [qtaim_surface] as a Python list with one array
    per basin; a caller of the constructor can also pass one
    two-dimensional array.  The two differ in what subscripts they take. *)
Inductive r_func_t : Type :=
| PyList (rows : list (list Q))
| NdArray (rows : list (list Q)).

Definition r_func_rows (r : r_func_t) : list (list Q) :=
  match r with PyList rows | NdArray rows => rows end.

(** [r_func[i_basin]] *)
Definition r_func_row (r : r_func_t) (i_basin : Z) : M (list Q) :=
  py_index (r_func_rows r) i_basin.

(** [r_func[i_basin, i_sph]]: a list does not take a tuple. *)
Definition r_func_item (r : r_func_t) (i_basin i_sph : Z) : M Q :=
  match r with
  | PyList _ => raise TypeError_list_index
  | NdArray rows => row <- py_index rows i_basin ;; py_index row i_sph
  end.

(** The angular descriptor: a degree, a list of degrees over the basins,
    or an array of points on the sphere. *)
Inductive angular_t : Type :=
| AngDegree (degree : Z)
| AngDegreeList (degrees : list Z)
| AngPoints (pts : list vec).

Record SurfaceQTAIM : Type := mk_SurfaceQTAIM {
  r_func : r_func_t;
  rad_grids : list (list Q);
  angular_degs : angular_t;
  maximas : list vec;
  oas : list (list nat);
  ias : list (list nat);
  basins_ias : list (list (option nat));
  refined_ang : option (list (list vec))
}.

(** [weights[k] = 0.0] on an array *)
Definition set_item {A : Type} (l : list A) (k : nat) (x : A) : M (list A) :=
  if (k <? length l)%nat then ret (<[k := x]> l) else raise IndexError.

(** The body of [for i_rad in range(atom_grid.rgrid.size)]. *)
Definition mask_shell_sample (atom_grid : atom_grid) (i_sph : nat) (r_limit : Q)
    (i_rad : nat) (weights : list Q) : M (list Q) :=
  r <- py_index (ag_rgrid_points atom_grid) (Z.of_nat i_rad) ;;
  if Qgtb r r_limit then
    i_start <- py_index (ag_indices atom_grid) (Z.of_nat i_rad) ;;
    i_final <- py_index (ag_indices atom_grid) (Z.of_nat i_rad + 1) ;;
    set_item weights (i_start + i_sph) 0
  else ret weights.

(** The body of [for i_sph in range(atom_grid.get_shell_grid(0).size)]. *)
Definition mask_direction (self : SurfaceQTAIM) (atom_grid : atom_grid) (i_basin : nat)
    (i_sph : nat) (weights : list Q) : M (list Q) :=
  r_limit <- r_func_item (r_func self) (Z.of_nat i_basin) (Z.of_nat i_sph) ;;
  for_each (seq 0 (length (ag_rgrid_points atom_grid)))
           (mask_shell_sample atom_grid i_sph r_limit) weights.

(** The degree is read first, then [rad_grids[i_basin]] and
    [maximas[i_basin]]; the constructor of the atom grid refuses an array
    of points as a degree. *)
Definition get_atom_grid_over_basin (self : SurfaceQTAIM) (i_basin : nat) : M atom_grid :=
  deg <- match angular_degs self with
         | AngDegreeList degs => d <- py_index degs (Z.of_nat i_basin) ;; ret (Some d)
         | AngDegree d => ret (Some d)
         | AngPoints _ => ret None
         end ;;
  rgrid <- py_index (rad_grids self) (Z.of_nat i_basin) ;;
  center <- py_index (maximas self) (Z.of_nat i_basin) ;;
  deg <- match deg with
         | Some d => ret d
         | None => raise ExternalError   (* not a degree *)
         end ;;
  emit (CallAtomGrid rgrid deg center) ;;;
  let atom_grid := AtomGrid E rgrid deg center in
  weights <- for_each (seq 0 (ag_shell_size atom_grid))
                      (mask_direction self atom_grid i_basin) (ag_weights atom_grid) ;;
  ret (mk_atom_grid (ag_rgrid_points atom_grid) (ag_shell_size atom_grid)
                    (ag_indices atom_grid) weights).

(** *** The driver *)

(** The [refine] argument: a bool, an int, or a value of another type. *)
Inductive refine_t : Type :=
| RefineBool (b : bool)
| RefineInt (i : Z)
| RefineOther.

Record qtaim_args : Type := mk_qtaim_args {
  rgrids : list Q;                 (* rgrids.points *)
  angular : angular_t;
  centers : list vec;
  iso_val : Q;
  dens_cutoff : Q;
  bnd_err : Q;
  iso_err : Q;
  beta_sphere : option (list Q);
  optimize_centers : bool;
  refine : refine_t
}.

(** The lists that the loops of [qtaim_surface] fill in. *)
Record surf_state : Type := mk_surf_state {
  st_r_func : list (list Q);
  st_oas : list (list nat);
  st_ias : list (list nat);
  st_basin_ias : list (list (option nat));
  st_refined_ang : option (list (list vec))
}.

(** Truth value of [refine] in [[] if refine else None] *)
Definition refine_truthy (r : refine_t) : bool :=
  match r with
  | RefineBool b => b
  | RefineInt i => negb (i =? 0)%Z
  | RefineOther => true
  end.

(** [i_maxima in maxima_to_do], where [maxima_to_do] is
    [range(0, numb_maximas)] for a bool and [[refine]] otherwise;
    [i_maxima] is below [numb_maximas]. *)
Definition in_maxima_to_do (r : refine_t) (i_maxima : nat) : bool :=
  match r with
  | RefineBool _ => true
  | RefineInt i => (Z.of_nat i_maxima =? i)%Z
  | RefineOther => false
  end.

(** [type(refine) == type(True) and refine] *)
Definition refine_is_true (r : refine_t) : bool :=
  match r with
  | RefineBool b => b
  | _ => false
  end.

(** [[beta_sphere[i] for i in range(0, numb_maximas) if i != i_maxima]] *)
Definition other_beta_spheres (beta_sphere : list Q) (numb_maximas i_maxima : nat)
    : M (list Q) :=
  map_M (fun i => py_index beta_sphere (Z.of_nat i))
        (List.filter (fun i => negb (i =? i_maxima)%nat) (seq 0 numb_maximas)).

Section Driver.

Context (fuel : nat) (self : qtaim_args -> M SurfaceQTAIM) (a : qtaim_args).

(** The body of [for i_ang in range(0, numb_ang_pts)]. *)
Definition trace_direction (angular_pts : list vec) (i_maxima : nat) (maxima : vec)
    (other_maximas : list vec) (beta_sph_max : option Q) (other_beta_sph : option (list Q))
    (i_ang : nat) (st : surf_state) : M surf_state :=
  cart_sphere_pt <- py_index angular_pts (Z.of_nat i_ang) ;;
  radial <- match beta_sphere a with
            | None => ret (rgrids a)
            | Some bs => b <- py_index bs (Z.of_nat i_maxima) ;;
                         ret (List.filter (fun r => Qgtb r b) (rgrids a))
            end ;;
  res <- solve_for_basin_bnd_pt fuel (dens_cutoff a) maxima cart_sphere_pt other_maximas
           (bnd_err a) (iso_val a) beta_sph_max other_beta_sph radial ;;
  bnd_pt <- (if tr_is_ray_to_inf res then
               i_iso <- expect_array (tr_index_iso res) ;;
               p <- solve_for_isosurface_pt i_iso radial maxima cart_sphere_pt
                      (iso_val a) (iso_err a) ;;
               ret (Some p)
             else ret (tr_bnd_pt res)) ;;
  p <- expect_array bnd_pt ;;
  let r_func' := alter (fun row => <[i_ang := norm E (vsub p maxima)]> row) i_maxima
                       (st_r_func st) in
  if tr_is_ray_to_inf res then
    ret (mk_surf_state r_func' (alter (fun l => l ++ [i_ang]) i_maxima (st_oas st))
                       (st_ias st) (st_basin_ias st) (st_refined_ang st))
  else if tr_found_watershed_on_ray res then
    ret (mk_surf_state r_func' (st_oas st)
                       (alter (fun l => l ++ [i_ang]) i_maxima (st_ias st))
                       (alter (fun l => l ++ [tr_basin_id res]) i_maxima (st_basin_ias st))
                       (st_refined_ang st))
  else ret (mk_surf_state r_func' (st_oas st) (st_ias st) (st_basin_ias st)
                          (st_refined_ang st)).

(** The block under [if type(refine) == type(True) and refine]. *)
Definition refine_basin (maximas : list vec) (angular_pts : list vec) (numb_ang_pts : nat)
    (i_maxima : nat) (maxima : vec) (st : surf_state) : M surf_state :=
  ias_i <- py_index (st_ias st) (Z.of_nat i_maxima) ;;
  oas_i <- py_index (st_oas st) (Z.of_nat i_maxima) ;;
  r_func_i <- py_index (st_r_func st) (Z.of_nat i_maxima) ;;
  new_pts <- construct_points_between_ias_and_oas ias_i oas_i angular_pts r_func_i maxima ;;
  refined_qtaim <- self (mk_qtaim_args (rgrids a) (AngPoints new_pts) maximas (iso_val a)
                           (dens_cutoff a) (bnd_err a) (iso_err a) (beta_sphere a) false
                           (RefineInt (Z.of_nat i_maxima))) ;;
  refined_ias <- py_index (ias refined_qtaim) (Z.of_nat i_maxima) ;;
  let ias' := alter (fun l => l ++ map (fun x => (x + numb_ang_pts)%nat) refined_ias)
                    i_maxima (st_ias st) in
  refined_oas <- py_index (oas refined_qtaim) (Z.of_nat i_maxima) ;;
  let oas' := alter (fun l => l ++ map (fun x => (x + numb_ang_pts)%nat) refined_oas)
                    i_maxima (st_oas st) in
  refined_basins <- py_index (basins_ias refined_qtaim) (Z.of_nat i_maxima) ;;
  let basin_ias' := alter (fun l => l ++ refined_basins) i_maxima (st_basin_ias st) in
  refined_ang' <- match st_refined_ang st with
                  | Some l => ret (Some (l ++ [new_pts]))
                  | None => raise TypeError_None
                  end ;;
  refined_r_func <- r_func_row (r_func refined_qtaim) (Z.of_nat i_maxima) ;;
  let r_func' := alter (fun row => row ++ refined_r_func) i_maxima (st_r_func st) in
  ret (mk_surf_state r_func' oas' ias' basin_ias' refined_ang').

(** The body of [for i_maxima, maxima in enumerate(maximas)]. *)
Definition trace_basin (maximas : list vec) (angular_pts : list vec) (numb_ang_pts : nat)
    (im : nat * vec) (st : surf_state) : M surf_state :=
  let '(i_maxima, maxima) := im in
  let numb_maximas := length maximas in
  if in_maxima_to_do (refine a) i_maxima then
    let other_maximas := delete i_maxima maximas in
    bs <- match beta_sphere a with
          | None => ret (None, None)
          | Some bs =>
            beta_sph_max <- py_index bs (Z.of_nat i_maxima) ;;
            other_beta_sph <- other_beta_spheres bs numb_maximas i_maxima ;;
            ret (Some beta_sph_max, Some other_beta_sph)
          end ;;
    let '(beta_sph_max, other_beta_sph) := bs in
    st' <- for_each (seq 0 numb_ang_pts)
             (trace_direction angular_pts i_maxima maxima other_maximas beta_sph_max
                              other_beta_sph) st ;;
    if refine_is_true (refine a)
    then refine_basin maximas angular_pts numb_ang_pts i_maxima maxima st'
    else ret st'
  else ret st.

(** The checks at the head of [qtaim_surface]; [None] when they pass. *)
Definition config_error : option exn :=
  match refine a with
  | RefineOther => Some TypeError_refine
  | _ =>
    if Qgtb (dens_cutoff a) (iso_val a)
    then Some (ValueError_cutoff (dens_cutoff a) (iso_val a))
    else match beta_sphere a with
         | Some bs =>
           if negb (length (centers a) =? length bs)%nat
           then Some (ValueError_beta_sphere (length bs) (length (centers a)))
           else None
         | None => None
         end
  end.

Definition qtaim_surface_body : M SurfaceQTAIM :=
  match config_error with
  | Some e => raise e
  | None =>
    maximas <- (if optimize_centers a then _optimize_centers fuel (centers a)
                else ret (centers a)) ;;
    let numb_maximas := length maximas in
    angular_pts <- match angular a with
                   | AngDegree d => emit (CallAngularGrid d) ;;; ret (AngularGrid_points E d)
                   | AngPoints pts => ret pts
                   | AngDegreeList _ => raise ExternalError   (* not an array of points *)
                   end ;;
    (* convert_cart_to_sph gives one (r, theta, phi) per point *)
    let numb_ang_pts := length angular_pts in
    let st0 := mk_surf_state (replicate numb_maximas (replicate numb_ang_pts 0))
                             (replicate numb_maximas [])
                             (replicate numb_maximas [])
                             (replicate numb_maximas [])
                             (if refine_truthy (refine a) then Some [] else None) in
    st <- for_each (enumerate maximas) (trace_basin maximas angular_pts numb_ang_pts) st0 ;;
    ret (mk_SurfaceQTAIM (PyList (st_r_func st)) [rgrids a] (angular a) maximas
                         (st_oas st) (st_ias st) (st_basin_ias st) (st_refined_ang st))
  end.

End Driver.

(** [qtaim_surface] calls itself once, with [refine] an int, for every basin
    that it refines; [depth] bounds the nesting of the calls. *)
Fixpoint qtaim_surface (fuel depth : nat) (a : qtaim_args) : M SurfaceQTAIM :=
  match depth with
  | O => diverge
  | S depth' => qtaim_surface_body fuel (qtaim_surface fuel depth') a
  end.

(** The keyword defaults of [qtaim_surface]. *)
Definition qtaim_args_default (rgrids : list Q) (angular : angular_t) (centers : list vec)
    : qtaim_args :=
  mk_qtaim_args rgrids angular centers (1 # 1000) (1 # 100000) (1 # 10000) (1 # 1000000)
                None true (RefineBool false).

(** *** The other methods of the surface model *)

(** [generate_angular_grid_of_basin], read as the points of the grid it
    returns: the degree is [angular_degs[i_basin]] for a list and
    [angular_degs] otherwise; an array of points is not a degree. *)
Definition generate_angular_grid_of_basin (self : SurfaceQTAIM) (i_basin : nat)
    : M (list vec) :=
  deg <- match angular_degs self with
         | AngDegreeList degs => py_index degs (Z.of_nat i_basin)
         | AngDegree d => ret d
         | AngPoints _ => raise ExternalError   (* not a degree *)
         end ;;
  emit (CallAngularGrid deg) ;;;
  ret (AngularGrid_points E deg).

(** [np.vstack((points, self.refined_ang[i_basin]))] when there are
    refinement directions. *)
Definition generate_angular_pts_of_basin (self : SurfaceQTAIM) (i_basin : nat)
    : M (list vec) :=
  points <- generate_angular_grid_of_basin self i_basin ;;
  match refined_ang self with
  | None => ret points
  | Some refined => extra <- py_index refined (Z.of_nat i_basin) ;; ret (points ++ extra)
  end.

(** [r[:, None] * sph_pts] for [r] of shape (N,) and [sph_pts] of shape
    (K, 3): numpy pairs the rows when [N = K], repeats the one row of either
    operand when [N = 1] or [K = 1], and rejects the operands otherwise. *)
Definition broadcast_scale (r : list Q) (sph_pts : list vec) : M (list vec) :=
  if (length r =? length sph_pts)%nat
  then ret (map (fun p => vscale (fst p) (snd p)) (combine r sph_pts))
  else match r, sph_pts with
       | [r0], _ => ret (map (vscale r0) sph_pts)
       | _, [p0] => ret (map (fun t => vscale t p0) r)
       | _, _ => raise ExternalError   (* the shapes do not broadcast *)
       end.

(** [self.maximas[i_basin] + self.r_func[i_basin][:, None] * sph_pts] *)
Definition generate_pts_on_surface (self : SurfaceQTAIM) (i_basin : nat) : M (list vec) :=
  sph_pts <- generate_angular_pts_of_basin self i_basin ;;
  maxima <- py_index (maximas self) (Z.of_nat i_basin) ;;
  row <- r_func_row (r_func self) (Z.of_nat i_basin) ;;
  scaled <- broadcast_scale row sph_pts ;;
  ret (map (vadd maxima) scaled).

(** [self.maximas[i_basin] + self.r_func[i_basin][ias, None] * sph_pts[ias]] *)
Definition get_ias_pts_of_basin (self : SurfaceQTAIM) (i_basin : nat) : M (list vec) :=
  ias_i <- py_index (ias self) (Z.of_nat i_basin) ;;
  sph_pts <- generate_angular_pts_of_basin self i_basin ;;
  maxima <- py_index (maximas self) (Z.of_nat i_basin) ;;
  row <- r_func_row (r_func self) (Z.of_nat i_basin) ;;
  surface_pts_at ias_i sph_pts row maxima.

Definition get_oas_pts_of_basin (self : SurfaceQTAIM) (i_basin : nat) : M (list vec) :=
  oas_i <- py_index (oas self) (Z.of_nat i_basin) ;;
  sph_pts <- generate_angular_pts_of_basin self i_basin ;;
  maxima <- py_index (maximas self) (Z.of_nat i_basin) ;;
  row <- r_func_row (r_func self) (Z.of_nat i_basin) ;;
  surface_pts_at oas_i sph_pts row maxima.

(** *** Projection on a ray *)

(** [np.dot] of two points *)
Definition vdot (a b : vec) : Q := vx a * vx b + vy a * vy b + vz a * vz b.

End Solver.

(** ** A worked configuration: two symmetric basins

    Two maxima at (-1, 0, 0) and (1, 0, 0), a density that decays away from
    both, and collaborators simple enough to run: the gradient flow reaches
    the nearer maximum in one step, the root finder bisects, the angular
    grid is the six axis directions. *)

(** Square root of a rational, exact on squares of rationals. *)
Definition Qsqrt (q : Q) : Q :=
  Qmake (Z.sqrt (Qnum q * Zpos (Qden q))) (Qden q).

(** The Euclidean norm; exact whenever the squared length is the square of
    a rational, which is the case for every vector of the examples. *)
Definition ex_norm (v : vec) : Q :=
  Qred (Qsqrt (Qred (vx v * vx v + vy v * vy v + vz v * vz v))).

Definition ex_A : vec := mkvec (-1) 0 0.
Definition ex_B : vec := mkvec 1 0 0.

Definition sq_dist (p c : vec) : Q :=
  let d := vsub p c in vx d * vx d + vy d * vy d + vz d * vz d.

Definition ex_density (p : vec) : Q :=
  Qred (1 / (1 + sq_dist p ex_A) + 1 / (1 + sq_dist p ex_B)).

(** The maximum whose basin holds [p]: the plane x = 0 separates them. *)
Definition ex_attractor (p : vec) : vec := if Qltb (vx p) 0 then ex_A else ex_B.

(** A field that leads from [p] to its maximum in unit time. *)
Definition ex_grad (p : vec) : vec := vsub (ex_attractor p) p.

Definition vred (v : vec) : vec := mkvec (Qred (vx v)) (Qred (vy v)) (Qred (vz v)).

(** One step of unit length along the field. *)
Definition ex_solve_ivp (f : Q -> vec -> vec) (a : ivp_args) : ivp_sol :=
  let y := vred (vadd (ivp_y0 a) (f 0 (ivp_y0 a))) in
  mk_ivp_sol true y y.

Fixpoint bisect (n : nat) (f : Q -> Q) (l u : Q) : Q :=
  match n with
  | O => Qred ((l + u) / 2)
  | S n' => let m := Qred ((l + u) / 2) in
            if Qltb (f m) 0 then bisect n' f l m else bisect n' f m u
  end.

Definition ex_root_scalar (f : Q -> Q) (l u xtol : Q) : root_sol :=
  mk_root_sol true (bisect 8 f l u).

Definition six_axes : list vec :=
  [mkvec 1 0 0; mkvec (-1) 0 0; mkvec 0 1 0; mkvec 0 (-1) 0; mkvec 0 0 1; mkvec 0 0 (-1)].

Definition ex_convex_hull (pts : list vec) : option (list vec) :=
  if (length pts <? 4)%nat then None else Some pts.

Definition ex_atom_grid (rgrid : list Q) (deg : Z) (center : vec) : atom_grid :=
  mk_atom_grid rgrid 6 (map (fun k => (6 * k)%nat) (seq 0 (S (length rgrid))))
               (replicate (6 * length rgrid) 1).

Definition ex_env : Env :=
  mk_env ex_norm ex_density ex_grad ex_solve_ivp ex_root_scalar (fun _ => six_axes)
         ex_convex_hull ex_atom_grid.

Definition ex_rgrid : list Q := [1 # 2; 1; 3 # 2; 2; 3; 4].

Definition ex_args : qtaim_args :=
  mk_qtaim_args ex_rgrid (AngPoints [mkvec 1 0 0; mkvec (-1) 0 0]) [ex_A; ex_B]
                (1 # 10) (1 # 100) (1 # 10) (1 # 1000000) None false (RefineBool false).

(** A uniform field along x, and the exact solution of its flow: the
    trajectory advances by the length of the horizon, in steps of
    [max_step]. *)
Definition drift_grad (p : vec) : vec := mkvec 1 0 0.

Definition drift_solve_ivp (f : Q -> vec -> vec) (a : ivp_args) : ivp_sol :=
  let g := f 0 (ivp_y0 a) in
  let y_last := vadd (ivp_y0 a) (vscale (snd (ivp_t_span a) - fst (ivp_t_span a)) g) in
  mk_ivp_sol true (vred (vsub y_last (vscale (ivp_max_step a) g))) (vred y_last).

Definition drift_env : Env :=
  mk_env ex_norm ex_density drift_grad drift_solve_ivp ex_root_scalar (fun _ => six_axes)
         ex_convex_hull ex_atom_grid.

(** The same configuration traced for basin 1 only, as the refinement does. *)
Definition ex_args_int : qtaim_args :=
  mk_qtaim_args ex_rgrid (AngPoints [mkvec 1 0 0; mkvec (-1) 0 0]) [ex_A; ex_B]
                (1 # 10) (1 # 100) (1 # 10) (1 # 1000000) None false (RefineInt 1).

(** The same configuration with the angular grid given by its degree. *)
Definition ex_args_deg : qtaim_args :=
  mk_qtaim_args ex_rgrid (AngDegree 3) [ex_A; ex_B]
                (1 # 10) (1 # 100) (1 # 10) (1 # 1000000) None false (RefineBool false).

(** A density cutoff above the isosurface value. *)
Definition ex_args_bad_cutoff : qtaim_args :=
  mk_qtaim_args ex_rgrid (AngPoints [mkvec 1 0 0; mkvec (-1) 0 0]) [ex_A; ex_B]
                (1 # 10) 1 (1 # 10) (1 # 1000000) None true (RefineBool false).

(** Two seeds in the basin of the same maximum, with center optimization. *)
Definition ex_args_two_seeds : qtaim_args :=
  mk_qtaim_args ex_rgrid (AngPoints [mkvec 1 0 0; mkvec (-1) 0 0])
                [mkvec (- (1 # 2)) 0 0; mkvec (- (3 # 4)) 0 0]
                (1 # 10) (1 # 100) (1 # 10) (1 # 1000000) None true (RefineBool false).

(** The surfaces that the model returns for [ex_args], [ex_args_int] and
    [ex_args_deg]. *)
Definition ex_surface : SurfaceQTAIM :=
  mk_SurfaceQTAIM (PyList [[41 # 40; 1871 # 512]; [1871 # 512; 207 # 200]])
                  [ex_rgrid] (AngPoints [mkvec 1 0 0; mkvec (-1) 0 0]) [ex_A; ex_B]
                  [[1%nat]; [0%nat]] [[0%nat]; [1%nat]] [[Some 1%nat]; [Some 1%nat]] None.

Definition ex_surface_int : SurfaceQTAIM :=
  mk_SurfaceQTAIM (PyList [[0; 0]; [1871 # 512; 207 # 200]])
                  [ex_rgrid] (AngPoints [mkvec 1 0 0; mkvec (-1) 0 0]) [ex_A; ex_B]
                  [[]; [0%nat]] [[]; [1%nat]] [[]; [Some 1%nat]] (Some []).

Definition ex_surface_deg : SurfaceQTAIM :=
  mk_SurfaceQTAIM
    (PyList [[41 # 40; 1871 # 512; 2121 # 512; 2121 # 512; 2121 # 512; 2121 # 512];
             [1871 # 512; 207 # 200; 2121 # 512; 2121 # 512; 2121 # 512; 2121 # 512]])
    [ex_rgrid] (AngDegree 3) [ex_A; ex_B]
    [[1; 2; 3; 4; 5]%nat; [0; 2; 3; 4; 5]%nat] [[0%nat]; [1%nat]]
    [[Some 1%nat]; [Some 1%nat]] None.

(** The ray from the left maximum towards the right one, and the one away
    from it. *)
Definition ex_dir_in : vec := mkvec 1 0 0.
Definition ex_dir_out : vec := mkvec (-1) 0 0.
Definition ex_ray_out : list vec := map (fun r => ray_point ex_A r ex_dir_out) ex_rgrid.

(** ** The specification's wording of two steps, for comparison *)

(** "The first radius where density drops below the cutoff, or the final
    grid radius, whichever comes first." *)
Fixpoint first_below_cutoff (dens_cutoff : Q) (ray_density : list Q) : option nat :=
  match ray_density with
  | [] => None
  | d :: rest => if Qltb d dens_cutoff then Some 0%nat
                 else option_map S (first_below_cutoff dens_cutoff rest)
  end.

Definition spec_floor_crossing_index (dens_cutoff : Q) (ray_density : list Q) : nat :=
  match first_below_cutoff dens_cutoff ray_density with
  | Some i => i
  | None => (length ray_density - 1)%nat
  end.

(** "The radius immediately before and after the floor-crossing index,
    extending by half/double at the grid edges." *)
Definition spec_bracket (rad_pts : list Q) (i : nat) : option (Q * Q) :=
  match rad_pts !! i with
  | None => None
  | Some r =>
    let l_bnd := match i with
                 | O => r / 2
                 | S i' => default r (rad_pts !! i')
                 end in
    let u_bnd := default (r * 2) (rad_pts !! S i) in
    Some (l_bnd, u_bnd)
  end.


(** ** Predicates on computations and logs *)

(** A computation that calls no collaborator leaves the log alone. *)
Definition silent {A : Type} (m : M A) : Prop :=
  forall log, m log = (fst (m []), log).

(** A computation only appends to the log. *)
Definition extends {A : Type} (m : M A) : Prop :=
  forall log o log', m log = (o, log') -> exists new, log' = log ++ new.

Definition is_ivp_call (e : event) : Prop := exists a, e = CallSolveIvp a.

(** How far the density at radius [r] of a ray is from the isosurface value. *)
Definition iso_gap (E : Env) (maxima cart_sphere_pt : vec) (iso_val r : Q) : Q :=
  Qabs (density_func E (ray_point maxima r cart_sphere_pt) - iso_val).

(** A computation appends only events that satisfy [P]. *)
Definition emits_only {A : Type} (P : event -> Prop) (m : M A) : Prop :=
  forall log o log', m log = (o, log') -> exists new, log' = log ++ new /\ Forall P new.

(** ** What a call of [qtaim_surface] leaves in its lists *)

(** The directions that a call traces from each maximum. *)
Definition angular_points (E : Env) (a : qtaim_args) : list vec :=
  match angular a with
  | AngDegree d => AngularGrid_points E d
  | AngPoints pts => pts
  | AngDegreeList _ => []
  end.

(** The entries of basin [i]: for a basin that is traced, every index of
    its radial function is in exactly one of [o] and [ia], and [b] has one
    neighbour id per entry of [ia]; a basin that is not traced keeps its
    initial entries. *)
Definition basin_classified (E : Env) (a : qtaim_args) (i : nat)
    (row : list Q) (o ia : list nat) (b : list (option nat)) : Prop :=
  if in_maxima_to_do (refine a) i
  then Permutation (o ++ ia) (seq 0 (length row))
       /\ length b = length ia
       /\ (refine_is_true (refine a) = false -> length row = length (angular_points E a))
  else o = [] /\ ia = [] /\ b = []
       /\ row = replicate (length (angular_points E a)) 0.

Definition surface_ok (E : Env) (a : qtaim_args) (s : SurfaceQTAIM) : Prop :=
  forall i row o ia b,
    r_func_rows (r_func s) !! i = Some row -> oas s !! i = Some o ->
    ias s !! i = Some ia -> basins_ias s !! i = Some b ->
    basin_classified E a i row o ia b.

(** The effect of tracing direction [k] of basin [i] on the lists. *)
Inductive dir_step (i k : nat) (st st' : surf_state) : Prop :=
| dir_step_oas (v : Q) :
    st' = mk_surf_state (alter (fun row => <[k := v]> row) i (st_r_func st))
                        (alter (fun l => l ++ [k]) i (st_oas st))
                        (st_ias st) (st_basin_ias st) (st_refined_ang st) ->
    dir_step i k st st'
| dir_step_ias (v : Q) (id : option nat) :
    st' = mk_surf_state (alter (fun row => <[k := v]> row) i (st_r_func st))
                        (st_oas st)
                        (alter (fun l => l ++ [k]) i (st_ias st))
                        (alter (fun l => l ++ [id]) i (st_basin_ias st))
                        (st_refined_ang st) ->
    dir_step i k st st'.

(** The lists of [st'] differ from those of [st] at basin [i] only, where
    [o_new], [a_new] and [b_new] have been appended and the radial function
    has kept its length. *)
Definition basin_grown (i : nat) (o_new a_new : list nat) (b_new : list (option nat))
    (st st' : surf_state) : Prop :=
  length (st_r_func st') = length (st_r_func st)
  /\ length (st_oas st') = length (st_oas st)
  /\ length (st_ias st') = length (st_ias st)
  /\ length (st_basin_ias st') = length (st_basin_ias st)
  /\ st_refined_ang st' = st_refined_ang st
  /\ (forall j, j <> i ->
        st_r_func st' !! j = st_r_func st !! j /\ st_oas st' !! j = st_oas st !! j
        /\ st_ias st' !! j = st_ias st !! j
        /\ st_basin_ias st' !! j = st_basin_ias st !! j)
  /\ (forall o, st_oas st !! i = Some o -> st_oas st' !! i = Some (o ++ o_new))
  /\ (forall x, st_ias st !! i = Some x -> st_ias st' !! i = Some (x ++ a_new))
  /\ (forall b, st_basin_ias st !! i = Some b -> st_basin_ias st' !! i = Some (b ++ b_new))
  /\ (forall row, st_r_func st !! i = Some row ->
        exists row', st_r_func st' !! i = Some row' /\ length row' = length row).

(** The four per-basin entries of a state at basin [j]. *)
Definition entries (st : surf_state) (j : nat)
    (row : list Q) (o ia : list nat) (b : list (option nat)) : Prop :=
  st_r_func st !! j = Some row /\ st_oas st !! j = Some o
  /\ st_ias st !! j = Some ia /\ st_basin_ias st !! j = Some b.

Definition same_entries (st st' : surf_state) (j : nat) : Prop :=
  st_r_func st' !! j = st_r_func st !! j /\ st_oas st' !! j = st_oas st !! j
  /\ st_ias st' !! j = st_ias st !! j /\ st_basin_ias st' !! j = st_basin_ias st !! j.

Definition same_lengths (st st' : surf_state) : Prop :=
  length (st_r_func st') = length (st_r_func st)
  /\ length (st_oas st') = length (st_oas st)
  /\ length (st_ias st') = length (st_ias st)
  /\ length (st_basin_ias st') = length (st_basin_ias st).

(** Basin [j] is as the driver initialises it, for [n] directions. *)
Definition entry_initial (n : nat) (st : surf_state) (j : nat) : Prop :=
  entries st j (replicate n 0) [] [] [].

(** Basin [j] has been dealt with by the call with arguments [a]. *)
Definition entry_done (E : Env) (a : qtaim_args) (st : surf_state) (j : nat) : Prop :=
  exists row o ia b, entries st j row o ia b /\ basin_classified E a j row o ia b.

(** The four per-basin lists of a surface have one entry per maximum. *)
Definition surface_shape (s : SurfaceQTAIM) : Prop :=
  length (r_func_rows (r_func s)) = length (maximas s)
  /\ length (oas s) = length (maximas s)
  /\ length (ias s) = length (maximas s)
  /\ length (basins_ias s) = length (maximas s).

(** The last pass of the tracer was on the radial grid [g]: the density
    was last evaluated on the ray of [g], and only the ODE solver has been
    called since. *)
Definition last_pass_on (E : Env) (maxima cart_sphere_pt : vec) (g : list Q)
    (log : list event) : Prop :=
  exists before after,
    log = before ++ CallDensity (map (fun r => ray_point maxima r cart_sphere_pt) g) :: after
    /\ Forall is_ivp_call after.

(** ** The weights that [get_atom_grid_over_basin] is to leave *)

(** The radius of shell [i_rad] exceeds the limit. *)
Definition gt_limit (pts : list Q) (i_rad : nat) (r_limit : Q) : bool :=
  match pts !! i_rad with
  | Some r => Qgtb r r_limit
  | None => false
  end.

(** Shells of [n] samples each, stored one after the other: the weight of
    direction [i_sph] on shell [i_rad] is at [i_rad * n + i_sph]. *)
Definition mask_rad (pts : list Q) (n i_sph : nat) (r_limit : Q) (w : list Q) (i_rad : nat)
    : list Q :=
  if gt_limit pts i_rad r_limit then <[(i_rad * n + i_sph)%nat := 0]> w else w.

Definition mask_sph (pts : list Q) (n : nat) (row : list Q) (w : list Q) (i_sph : nat)
    : list Q :=
  match row !! i_sph with
  | Some r_limit => fold_left (mask_rad pts n i_sph r_limit) (seq 0 (length pts)) w
  | None => w
  end.

Definition masked_weights (pts : list Q) (n : nat) (row : list Q) (w : list Q) : list Q :=
  fold_left (mask_sph pts n row) (seq 0 n) w.

(** The layout of the atom grid that the masking relies on. *)
Definition atom_grid_layout (g : atom_grid) : Prop :=
  (forall k, (k <= length (ag_rgrid_points g))%nat ->
             ag_indices g !! k = Some (k * ag_shell_size g)%nat)
  /\ length (ag_weights g) = (length (ag_rgrid_points g) * ag_shell_size g)%nat.

(** Successive attempts of the integrator: each starts where the previous
    trajectory ended, over a horizon moved on by [t_inc]. *)
Fixpoint retry_chain (E : Env) (t_inc : Q) (calls : list ivp_args) : Prop :=
  match calls with
  | a1 :: ((a2 :: _) as rest) =>
    ivp_y0 a2 = sol_y_last (solve_ivp E (fun _ x => grad_func E x) a1)
    /\ ivp_t_span a2 = (snd (ivp_t_span a1), snd (ivp_t_span a1) + t_inc)
    /\ retry_chain E t_inc rest
  | _ => True
  end.

(** ** Invariants of the lists that the driver fills in *)

(** A neighbour id of a surface with [numb_maximas] maxima: a position,
    counted from 1, among the other maxima. *)
Definition neighbour_id_ok (numb_maximas : nat) (id : option nat) : Prop :=
  exists k, id = Some k /\ (1 <= k < numb_maximas)%nat.

(** Every radius satisfies [Pr] and every neighbour id is one of
    [numb_maximas] maxima. *)
Definition state_inv (Pr : Q -> Prop) (numb_maximas : nat) (st : surf_state) : Prop :=
  Forall (Forall Pr) (st_r_func st)
  /\ Forall (Forall (neighbour_id_ok numb_maximas)) (st_basin_ias st).

(** What a returned surface keeps of the arguments of the call, with the
    invariant of its lists. *)
Definition surface_inv (Pr : Q -> Prop) (a : qtaim_args) (s : SurfaceQTAIM) : Prop :=
  Forall (Forall Pr) (r_func_rows (r_func s))
  /\ Forall (Forall (neighbour_id_ok (length (maximas s)))) (basins_ias s)
  /\ (optimize_centers a = false -> maximas s = centers a)
  /\ rad_grids s = [rgrids a]
  /\ angular_degs s = angular a
  /\ r_func s = PyList (r_func_rows (r_func s)).

(** The refinement directions of a surface, basin by basin: none when
    [refine] is falsy, an empty list when it is a nonzero integer, and for
    [refine=True] one array per maximum, with as many directions as the
    radial function of the basin has radii beyond the first [n]. *)
Definition refined_ang_ok (n : nat) (r : refine_t) (rows : list (list Q))
    (refined : option (list (list vec))) : Prop :=
  match r with
  | RefineBool true =>
    exists l, refined = Some l /\ length l = length rows
              /\ forall i row extra, rows !! i = Some row -> l !! i = Some extra ->
                                     length row = (n + length extra)%nat
  | RefineBool false => refined = None
  | RefineInt i => refined = if (i =? 0)%Z then None else Some []
  | RefineOther => True
  end.

(** ** Points of a surface *)

(** [p] is the point of direction [k]: the maximum moved by the radius of
    the direction along it. *)
Definition point_on_ray (maxima : vec) (row : list Q) (sph_pts : list vec) (k : nat)
    (p : vec) : Prop :=
  exists r c, row !! k = Some r /\ sph_pts !! k = Some c /\ p = ray_point maxima r c.

(** The neighbour that a watershed records: one more than the position of
    the first other maximum within 1e-1 of the end of a gradient path. *)
Definition watershed_of (E : Env) (other_maximas : list vec) (y_val : vec)
    (basin_id : nat) : Prop :=
  exists k m, basin_id = (k + 1)%nat /\ other_maximas !! k = Some m
              /\ norm E (vsub y_val m) < 1 # 10
              /\ forall j m', (j < k)%nat -> other_maximas !! j = Some m' ->
                              1 # 10 <= norm E (vsub y_val m').

(** The rows of the basins dealt with so far are as long as the angular
    grid and their refinement directions together. *)
Definition refined_so_far (n s : nat) (st : surf_state) : Prop :=
  exists l, st_refined_ang st = Some l /\ length l = s
            /\ forall i row extra, st_r_func st !! i = Some row -> l !! i = Some extra ->
                                   length row = (n + length extra)%nat.

(** ** The collaborators that a call of [qtaim_surface] may use *)

(** The density, the ODE solver and the root finder always; the angular
    grid when [angular] is a degree; the convex hull when [refine] is
    [True]; the atom grid never. *)
Definition driver_call (a : qtaim_args) (e : event) : Prop :=
  match e with
  | CallDensity _ | CallSolveIvp _ | CallRootScalar _ _ _ => True
  | CallAngularGrid d => angular a = AngDegree d
  | CallConvexHull _ => refine a = RefineBool true
  | CallAtomGrid _ _ _ => False
  end.

(** What lies behind a watershed found on the radial grid [g] of the last
    pass: a sample of the ray whose density is above the cutoff, the
    gradient path that the code follows from it, the end [y_val] of that
    path, near another maximum, from which the neighbour id is computed,
    and the sample [ray[i_ray - 1]] before it, closer than [bnd_err], with
    the boundary point at the midpoint of the two. *)
Definition watershed_found (E : Env) (fuel : nat) (dens_cutoff : Q)
    (maxima cart_sphere_pt : vec) (other_maximas : list vec) (bnd_err : Q)
    (beta_sphere_maxima : option Q) (beta_sphere_others : option (list Q))
    (g : list Q) (bnd_pt : vec) (basin_id : nat) : Prop :=
  let ray := map (fun r => ray_point maxima r cart_sphere_pt) g in
  exists i_ray r prev y_val log1 log2,
    let cur := ray_point maxima r cart_sphere_pt in
    g !! i_ray = Some r
    /\ dens_cutoff < density_func E cur
    /\ gradient_path E fuel cur (0, py_max (1000 * r) 75) LSODA 50 200 10 (1 # 1000)
                     beta_sphere_maxima (Some maxima) log1 = (Ret (Some y_val), log2)
    /\ near_other_maxima beta_sphere_others (dist_to_others E other_maximas y_val) = true
    /\ watershed_of E other_maximas y_val basin_id
    /\ fst (py_index ray (Z.of_nat i_ray - 1) []) = Ret prev
    /\ norm E (vsub cur prev) < bnd_err
    /\ bnd_pt = vdiv (vadd cur prev) 2.

(** ** Further worked configurations *)

(** An integrator that covers half of the way to the maximum and reports
    the trajectory as settled there. *)
Definition slow_solve_ivp (f : Q -> vec -> vec) (a : ivp_args) : ivp_sol :=
  let y := vred (vadd (ivp_y0 a) (vscale (1 # 2) (f 0 (ivp_y0 a)))) in
  mk_ivp_sol true y y.

Definition slow_env : Env :=
  mk_env ex_norm ex_density ex_grad slow_solve_ivp ex_root_scalar (fun _ => six_axes)
         ex_convex_hull ex_atom_grid.

(** A radial grid whose samples are closer than [bnd_err] = 1/10, across
    the plane between the two maxima. *)
Definition fine_rgrid : list Q := [3 # 2; 31 # 20].
Definition fine_ray : list vec := map (fun r => ray_point ex_A r ex_dir_in) fine_rgrid.

(** A radial grid that starts beyond the plane between the two maxima. *)
Definition far_rgrid : list Q := [3 # 2; 2; 3].
Definition far_ray : list vec := map (fun r => ray_point ex_A r ex_dir_in) far_rgrid.

(** The left maximum alone. *)
Definition ex_args_solo : qtaim_args :=
  mk_qtaim_args ex_rgrid (AngPoints [mkvec 1 0 0; mkvec (-1) 0 0]) [ex_A]
                (1 # 10) (1 # 100) (1 # 10) (1 # 1000000) None false (RefineBool false).

(** The angular grid given by its degree, traced for basin 1 only. *)
Definition ex_args_deg_int : qtaim_args :=
  mk_qtaim_args ex_rgrid (AngDegree 3) [ex_A; ex_B]
                (1 # 10) (1 # 100) (1 # 10) (1 # 1000000) None false (RefineInt 1).

(** Two seeds, one in each basin, with center optimization. *)
Definition ex_seeds : list vec := [mkvec (- (1 # 2)) 0 0; mkvec (1 # 2) 0 0].

(** A surface whose radial function is one two-dimensional array, with one
    radial grid per basin. *)
Definition ex_surface_array : SurfaceQTAIM :=
  mk_SurfaceQTAIM (NdArray [[1; 2; 2; 2; 2; 2]; [2; 1; 2; 2; 2; 2]])
                  [ex_rgrid; ex_rgrid] (AngDegree 3) [ex_A; ex_B]
                  [[1; 2; 3; 4; 5]%nat; [0; 2; 3; 4; 5]%nat] [[0%nat]; [1%nat]]
                  [[Some 1%nat]; [Some 1%nat]] None.

(** The surfaces that the model returns for [ex_args_solo] and
    [ex_args_deg_int]. *)
Definition ex_surface_solo : SurfaceQTAIM :=
  mk_SurfaceQTAIM (PyList [[2891 # 512; 1871 # 512]])
                  [ex_rgrid] (AngPoints [mkvec 1 0 0; mkvec (-1) 0 0]) [ex_A]
                  [[0%nat; 1%nat]] [[]] [[]] None.

Definition ex_surface_deg_int : SurfaceQTAIM :=
  mk_SurfaceQTAIM
    (PyList [[0; 0; 0; 0; 0; 0];
             [1871 # 512; 207 # 200; 2121 # 512; 2121 # 512; 2121 # 512; 2121 # 512]])
    [ex_rgrid] (AngDegree 3) [ex_A; ex_B]
    [[]; [0; 2; 3; 4; 5]%nat] [[]; [1%nat]] [[]; [Some 1%nat]] (Some []).

(** A refinement between four IAS and four OAS directions of the six axes
    around the origin, the direction (0, -1, 0) having radius 2.  The norm
    of the examples rounds an irrational root down; the number of
    directions does not depend on it. *)
Definition ex_refinement_run : outcome (list vec) * list event :=
  construct_points_between_ias_and_oas ex_env [0; 2; 3; 4]%nat [1; 2; 3; 5]%nat six_axes
                                       [1; 1; 1; 2; 1; 1] (mkvec 0 0 0) [].

Definition ex_refinement_pts : list vec :=
  match fst ex_refinement_run with
  | Ret pts => pts
  | _ => []
  end.

(** The degree-based configuration with optimized centers, traced for
    basin 1 only, with a beta sphere of radius 5 around maximum 1: no
    radius of the grid is outside it. *)
Definition ex_args_wide_beta : qtaim_args :=
  mk_qtaim_args ex_rgrid (AngDegree 3) [ex_A; ex_B]
                (1 # 10) (1 # 100) (1 # 10) (1 # 1000000) (Some [1 # 4; 5]) true
                (RefineInt 1).

(** * Properties *)

(** ** Comparisons *)

Lemma Qltb_lt (x y : Q) : Qltb x y = true <-> x < y.
Proof.
  unfold Qltb. rewrite negb_true_iff, <- not_true_iff_false, Qle_bool_iff.
  split; [apply Qnot_le_lt | apply Qlt_not_le].
Qed.

Lemma Qltb_ge (x y : Q) : Qltb x y = false <-> y <= x.
Proof.
  unfold Qltb. rewrite negb_false_iff. apply Qle_bool_iff.
Qed.

Lemma Qgtb_gt (x y : Q) : Qgtb x y = true <-> y < x.
Proof. apply Qltb_lt. Qed.

(** ** Reasoning about computations *)

Lemma bind_Ret_inv {A B : Type} (m : M A) (k : A -> M B) log b log' :
  bind m k log = (Ret b, log') ->
  exists a log1, m log = (Ret a, log1) /\ k a log1 = (Ret b, log').
Proof.
  unfold bind. destruct (m log) as [[a | e |] log1]; intros H; try discriminate.
  exists a, log1. split; [reflexivity | exact H].
Qed.

Lemma bind_Ret_intro {A B : Type} (m : M A) (k : A -> M B) log a log1 :
  m log = (Ret a, log1) -> bind m k log = k a log1.
Proof. unfold bind. intros ->. reflexivity. Qed.

Lemma bind_Raise_intro {A B : Type} (m : M A) (k : A -> M B) log e log1 :
  m log = (Raise e, log1) -> bind m k log = (Raise e, log1).
Proof. unfold bind. intros ->. reflexivity. Qed.

Lemma silent_ret {A : Type} (a : A) : silent (ret a).
Proof. intros log. reflexivity. Qed.

Lemma silent_raise {A : Type} (e : exn) : silent (@raise A e).
Proof. intros log. reflexivity. Qed.

Lemma silent_bind {A B : Type} (m : M A) (k : A -> M B) :
  silent m -> (forall a, silent (k a)) -> silent (bind m k).
Proof.
  intros Hm Hk log. unfold bind. rewrite (Hm log).
  destruct (fst (m [])) as [a | e |] eqn:Ha.
  - rewrite (Hk a log). rewrite (Hm []), Ha. reflexivity.
  - rewrite (Hm []), Ha. reflexivity.
  - rewrite (Hm []), Ha. reflexivity.
Qed.

Lemma silent_log {A : Type} (m : M A) log o log' :
  silent m -> m log = (o, log') -> log' = log.
Proof. intros Hm H. rewrite (Hm log) in H. congruence. Qed.

Lemma silent_py_index {A : Type} (l : list A) (i : Z) : silent (py_index l i).
Proof.
  intros log. unfold py_index.
  destruct (_ || _); [reflexivity |].
  destruct (l !! _); reflexivity.
Qed.

Lemma silent_expect_array {A : Type} (o : option A) : silent (expect_array o).
Proof. destruct o; intros log; reflexivity. Qed.

Lemma py_index_nat {A : Type} (l : list A) (i : nat) (x : A) log :
  l !! i = Some x -> py_index l (Z.of_nat i) log = (Ret x, log).
Proof.
  intros H. unfold py_index. cbv zeta.
  pose proof (lookup_lt_Some _ _ _ H) as Hlt.
  destruct (Z.ltb_spec (Z.of_nat i) 0) as [? | _]; [lia |]. cbv iota.
  destruct (Z.ltb_spec (Z.of_nat i) 0) as [? | _]; [lia |].
  destruct (Z.leb_spec (Z.of_nat (length l)) (Z.of_nat i)) as [? | _]; [lia |].
  simpl. rewrite Nat2Z.id, H. reflexivity.
Qed.

Lemma py_index_nat_inv {A : Type} (l : list A) (i : nat) (x : A) log log' :
  py_index l (Z.of_nat i) log = (Ret x, log') -> l !! i = Some x /\ log' = log.
Proof.
  unfold py_index. cbv zeta.
  destruct (Z.ltb_spec (Z.of_nat i) 0) as [? | _]; [lia |]. cbv iota.
  destruct (_ || _); [discriminate |].
  rewrite Nat2Z.id. destruct (l !! i); [| discriminate].
  intros H. inversion H. auto.
Qed.

Create HintDb comp discriminated.

Lemma py_index_last {A : Type} (l : list A) log :
  l <> [] -> exists q, py_index l (-1) log = (Ret q, log).
Proof.
  intros Hl. unfold py_index. cbv zeta. change (-1 <? 0)%Z with true. cbv iota.
  assert (0 < length l)%nat by (destruct l; simpl; [congruence | lia]).
  destruct (Z.ltb_spec (-1 + Z.of_nat (length l)) 0) as [? | _]; [lia |].
  destruct (Z.leb_spec (Z.of_nat (length l)) (-1 + Z.of_nat (length l))) as [? | _]; [lia |].
  cbn [orb].
  destruct (l !! Z.to_nat (-1 + Z.of_nat (length l))) eqn:Hq; [eauto |].
  apply lookup_ge_None in Hq. lia.
Qed.

(** Run the monadic plumbing of a goal. *)
Tactic Notation "run_comp" :=
  cbv beta iota zeta delta [bind ret raise diverge emit call_solve_ivp call_root_scalar
                            density_at density_on call_convex_hull expect_array].
Tactic Notation "run_comp" "in" hyp(H) :=
  cbv beta iota zeta delta [bind ret raise diverge emit call_solve_ivp call_root_scalar
                            density_at density_on call_convex_hull expect_array] in H.

Section Properties.

Context (E : Env).

(** ** Configuration checks *)

Lemma config_error_spec (a : qtaim_args) :
  (iso_val a < dens_cutoff a
   \/ (exists bs, beta_sphere a = Some bs /\ length bs <> length (centers a))
   \/ refine a = RefineOther)
  <-> exists e, config_error a = Some e.
Proof.
  unfold config_error. split.
  - intros [Hc | [[bs [Hb Hl]] | Hr]].
    + destruct (refine a); eauto.
      all: apply Qgtb_gt in Hc; rewrite Hc; eauto.
    + destruct (refine a); eauto.
      all: destruct (Qgtb _ _); eauto.
      all: rewrite Hb.
      all: replace (length (centers a) =? length bs)%nat with false
             by (symmetry; apply Nat.eqb_neq; auto).
      all: simpl; eauto.
    + rewrite Hr. eauto.
  - intros [e He]. destruct (refine a) eqn:Hr; auto.
    all: destruct (Qgtb _ _) eqn:Hc; [left; apply Qgtb_gt; exact Hc |].
    all: destruct (beta_sphere a) as [bs |] eqn:Hb; [| discriminate].
    all: destruct (length (centers a) =? length bs)%nat eqn:Hl; [discriminate |].
    all: right; left; exists bs; split; auto.
    all: apply Nat.eqb_neq in Hl; auto.
Qed.

(** C6.  [qtaim_surface] checks its configuration first: when
    [dens_cutoff > iso_val], or a beta sphere list is given whose length
    differs from the number of centers, or [refine] is neither a bool nor
    an int, the call raises the matching error with the log of collaborator
    calls unchanged, so that neither the density, the gradient, the
    integrator nor the root finder has been invoked, and no surface is
    returned. *)
Theorem qtaim_surface_validates_eagerly (fuel depth : nat) (a : qtaim_args) log :
  (iso_val a < dens_cutoff a
   \/ (exists bs, beta_sphere a = Some bs /\ length bs <> length (centers a))
   \/ refine a = RefineOther) ->
  exists e, config_error a = Some e
            /\ qtaim_surface E fuel (S depth) a log = (Raise e, log).
Proof.
  intros H. apply config_error_spec in H. destruct H as [e He].
  exists e. split; [exact He |].
  simpl. unfold qtaim_surface_body. rewrite He. reflexivity.
Qed.

(** ** Computations only append to the log *)

Lemma extends_silent {A : Type} (m : M A) : silent m -> extends m.
Proof.
  intros Hm log o log' H. exists []. rewrite app_nil_r.
  eapply silent_log; eauto.
Qed.

Lemma extends_ret {A : Type} (a : A) : extends (ret a).
Proof. apply extends_silent, silent_ret. Qed.

Lemma extends_raise {A : Type} (e : exn) : extends (@raise A e).
Proof. apply extends_silent, silent_raise. Qed.

Lemma extends_diverge {A : Type} : extends (@diverge A).
Proof. intros log o log' H. inversion H. exists []. rewrite app_nil_r. reflexivity. Qed.

Lemma extends_emit (e : event) : extends (emit e).
Proof. intros log o log' H. inversion H. eauto. Qed.

Lemma extends_bind {A B : Type} (m : M A) (k : A -> M B) :
  extends m -> (forall a, extends (k a)) -> extends (bind m k).
Proof.
  intros Hm Hk log o log'. unfold bind.
  destruct (m log) as [[a | e |] log1] eqn:H1.
  - intros H2. apply Hm in H1. apply Hk in H2.
    destruct H1 as [n1 ->]. destruct H2 as [n2 ->].
    exists (n1 ++ n2). rewrite app_assoc. reflexivity.
  - intros H2. inversion H2. subst. eapply Hm. eauto.
  - intros H2. inversion H2. subst. eapply Hm. eauto.
Qed.

Lemma extends_for_each {A S : Type} (xs : list A) (body : A -> S -> M S) :
  (forall x s, extends (body x s)) -> forall s, extends (for_each xs body s).
Proof.
  intros Hb. induction xs as [| x xs IH]; intros s; simpl.
  - apply extends_ret.
  - apply extends_bind; auto.
Qed.

Lemma extends_map_M {A B : Type} (f : A -> M B) (xs : list A) :
  (forall x, extends (f x)) -> extends (map_M f xs).
Proof.
  intros Hf. induction xs as [| x xs IH]; simpl.
  - apply extends_ret.
  - apply extends_bind; auto. intros y.
    apply extends_bind; auto. intros ys. apply extends_ret.
Qed.

Lemma extends_In {A : Type} (m : M A) log o log' e :
  extends m -> m log = (o, log') -> In e log -> In e log'.
Proof.
  intros Hm H Hin. destruct (Hm _ _ _ H) as [new ->]. apply in_or_app. auto.
Qed.

(** ** Computations that append events of one kind only *)

Lemma emits_only_silent {A : Type} (P : event -> Prop) (m : M A) :
  silent m -> emits_only P m.
Proof.
  intros Hm log o log' H. exists []. rewrite app_nil_r.
  split; [eapply silent_log; eauto | constructor].
Qed.

Lemma emits_only_bind {A B : Type} (P : event -> Prop) (m : M A) (k : A -> M B) :
  emits_only P m -> (forall a, emits_only P (k a)) -> emits_only P (bind m k).
Proof.
  intros Hm Hk log o log'. unfold bind.
  destruct (m log) as [[a | e |] log1] eqn:H1.
  - intros H2. apply Hm in H1. apply Hk in H2.
    destruct H1 as [n1 [-> F1]]. destruct H2 as [n2 [-> F2]].
    exists (n1 ++ n2). rewrite app_assoc. split; [reflexivity |].
    apply Forall_app; auto.
  - intros H2. inversion H2. subst. eapply Hm. eauto.
  - intros H2. inversion H2. subst. eapply Hm. eauto.
Qed.

Lemma emits_only_map_M {A B : Type} (P : event -> Prop) (f : A -> M B) (xs : list A) :
  (forall x, emits_only P (f x)) -> emits_only P (map_M f xs).
Proof.
  intros Hf. induction xs as [| x xs IH]; simpl.
  - apply emits_only_silent, silent_ret.
  - apply emits_only_bind; auto. intros y.
    apply emits_only_bind; auto. intros ys. apply emits_only_silent, silent_ret.
Qed.

Lemma emits_only_extends {A : Type} (P : event -> Prop) (m : M A) :
  emits_only P m -> extends m.
Proof. intros Hm log o log' H. destruct (Hm _ _ _ H) as [new [-> _]]. eauto. Qed.

#[local] Hint Resolve extends_ret extends_raise extends_diverge extends_emit
  silent_py_index silent_expect_array silent_ret silent_raise : comp.
#[local] Hint Extern 2 (extends (bind _ _)) => apply extends_bind; [| intros ?] : comp.
#[local] Hint Extern 2 (silent (bind _ _)) => apply silent_bind; [| intros ?] : comp.
#[local] Hint Extern 3 (extends (py_index _ _)) => apply extends_silent : comp.
#[local] Hint Extern 3 (extends (expect_array _)) => apply extends_silent : comp.

(** ** Gradient-flow integrator *)

Section GradientPathFacts.

Context (pt : vec) (method : ode_method) (max_step t_inc : Q) (max_tries : nat)
        (first_step : Q) (beta_sphere_maxima : option Q) (maxima : option vec).

Abbreviation loop := (gradient_path_loop E pt method max_step t_inc max_tries first_step
                                     beta_sphere_maxima maxima).

Lemma gradient_path_loop_S fuel y0 t_span k last log :
  loop (S fuel) y0 t_span k last log =
  if (k <? max_tries)%nat then
    let a := mk_ivp_args y0 t_span method max_step first_step in
    let sol := solve_ivp E (fun _ x => grad_func E x) a in
    let log1 := log ++ [CallSolveIvp a] in
    if negb (sol_success sol) then (Raise AssertionError_ode, log1)
    else if ode_converged sol then (Ret (Some (sol_y_last sol)), log1)
    else match beta_sphere_maxima with
         | Some beta =>
           match maxima with
           | None => (Raise TypeError_None, log1)
           | Some m =>
             if Qltb (norm E (vsub (sol_y_last sol) m)) beta
             then (Ret (Some (sol_y_last sol)), log1)
             else loop fuel y0 t_span k (Some sol) log1
           end
         | None => loop fuel (sol_y_last sol) (snd t_span, snd t_span + t_inc) (S k)
                        (Some sol) log1
         end
  else loop O y0 t_span k last log.
Proof.
  cbn [gradient_path_loop]. destruct (k <? max_tries)%nat; [| reflexivity].
  run_comp.
  destruct (negb _); [reflexivity |].
  destruct (ode_converged _); [reflexivity |].
  destruct beta_sphere_maxima; [| reflexivity].
  destruct maxima; [| reflexivity].
  destruct (Qltb _ _); reflexivity.
Qed.

Lemma gradient_path_loop_done fuel y0 t_span k last log :
  (max_tries <= k)%nat ->
  loop fuel y0 t_span k last log =
  if (k =? max_tries)%nat then
    match last with
    | None => (Raise UnboundLocalError_sol, log)
    | Some sol => (Raise (RuntimeError_no_convergence pt (sol_y_last sol) t_span), log)
    end
  else (Ret None, log).
Proof.
  intros Hk. apply Nat.ltb_ge in Hk.
  destruct fuel; simpl; rewrite Hk; destruct (k =? max_tries)%nat; try reflexivity;
    destruct last; reflexivity.
Qed.

(** The integrator calls no collaborator but the ODE solver. *)
Lemma gradient_path_loop_log fuel :
  forall y0 t_span k last log o log',
    loop fuel y0 t_span k last log = (o, log') ->
    exists new, log' = log ++ new /\ Forall is_ivp_call new.
Proof.
  assert (Hbase : forall y0 t_span k last log o log',
             loop O y0 t_span k last log = (o, log') ->
             exists new, log' = log ++ new /\ Forall is_ivp_call new).
  { intros y0 t_span k last log o log'. simpl.
    destruct (k <? max_tries)%nat; [| destruct (k =? max_tries)%nat; [destruct last |]];
      intros H; inversion H; exists []; rewrite app_nil_r; auto. }
  induction fuel as [| fuel IH]; intros y0 t_span k last log o log'; [apply Hbase |].
  rewrite gradient_path_loop_S. cbv zeta.
  destruct (k <? max_tries)%nat; [| apply Hbase].
  set (ev := CallSolveIvp _). set (sol := solve_ivp E _ _).
  assert (Hev : Forall is_ivp_call [ev]) by (repeat constructor; eexists; reflexivity).
  assert (Hrec : forall y0' t_span' k' last',
             loop fuel y0' t_span' k' last' (log ++ [ev]) = (o, log') ->
             exists new, log' = log ++ new /\ Forall is_ivp_call new).
  { intros y0' t_span' k' last' H. apply IH in H. destruct H as [new [-> Hnew]].
    exists (ev :: new). rewrite <- app_assoc. split; [reflexivity |].
    constructor; [eexists; reflexivity | exact Hnew]. }
  destruct (negb (sol_success sol)).
  { intros H; inversion H. exists [ev]. auto. }
  destruct (ode_converged sol).
  { intros H; inversion H. exists [ev]. auto. }
  destruct beta_sphere_maxima as [beta |]; [| apply Hrec].
  destruct maxima as [m |].
  2: { intros H; inversion H. exists [ev]. auto. }
  destruct (Qltb _ beta); [| apply Hrec].
  intros H; inversion H. exists [ev]. auto.
Qed.

(** With a beta sphere configured, an attempt that neither converges nor
    ends inside the sphere changes none of the loop variables: the same
    attempt is made again, whatever the fuel. *)
Lemma gradient_path_loop_stalls (beta : Q) (m y0 : vec) (t_span : Q * Q) (k : nat) :
  beta_sphere_maxima = Some beta -> maxima = Some m ->
  (k < max_tries)%nat ->
  let a := mk_ivp_args y0 t_span method max_step first_step in
  let sol := solve_ivp E (fun _ x => grad_func E x) a in
  sol_success sol = true -> ode_converged sol = false ->
  Qltb (norm E (vsub (sol_y_last sol) m)) beta = false ->
  forall fuel last log,
    loop fuel y0 t_span k last log = (Diverge, log ++ replicate fuel (CallSolveIvp a)).
Proof.
  intros Hb Hm Hk a sol Hs Hc Hr fuel.
  apply Nat.ltb_lt in Hk.
  induction fuel as [| fuel IH]; intros last log.
  - simpl. rewrite Hk. unfold diverge. rewrite app_nil_r. reflexivity.
  - rewrite gradient_path_loop_S, Hk. cbv zeta. fold a. fold sol.
    rewrite Hs, Hc, Hb, Hm. simpl negb. cbv iota. rewrite Hr.
    rewrite <- Hb, <- Hm, IH. rewrite <- app_assoc. reflexivity.
Qed.

(** Without a beta sphere every attempt that does not end the call uses up
    one of the [max_tries]: with that much fuel the loop ends, after at
    most [max_tries - k] further attempts, by returning the end point of a
    converged attempt or by raising. *)
Lemma gradient_path_loop_bounded :
  beta_sphere_maxima = None ->
  forall fuel y0 t_span k last log,
    (k <= max_tries)%nat -> (max_tries - k <= fuel)%nat ->
    exists o new,
      loop fuel y0 t_span k last log = (o, log ++ new)
      /\ (length new <= max_tries - k)%nat
      /\ match o with
         | Ret (Some y) =>
           exists a, In (CallSolveIvp a) new
                     /\ let sol := solve_ivp E (fun _ x => grad_func E x) a in
                        sol_success sol = true /\ ode_converged sol = true
                        /\ y = sol_y_last sol
         | Ret None => False
         | Raise e =>
           e = AssertionError_ode \/ e = UnboundLocalError_sol
           \/ exists p s t, e = RuntimeError_no_convergence p s t
         | Diverge => False
         end.
Proof.
  intros Hb. induction fuel as [| fuel IH]; intros y0 t_span k last log Hk Hfuel.
  - assert (k = max_tries) as -> by lia.
    rewrite gradient_path_loop_done by lia. rewrite Nat.eqb_refl.
    destruct last; eexists; exists []; rewrite app_nil_r;
      (split; [reflexivity |]); (split; [simpl; lia |]); eauto 7.
  - destruct (k <? max_tries)%nat eqn:Hlt.
    + rewrite gradient_path_loop_S, Hlt. apply Nat.ltb_lt in Hlt. cbv zeta.
      set (a := mk_ivp_args _ _ _ _ _). set (sol := solve_ivp E _ _).
      destruct (sol_success sol) eqn:Hs; simpl negb; cbv iota.
      2: { eexists; exists [CallSolveIvp a]. split; [reflexivity |].
           split; [simpl; lia | auto]. }
      destruct (ode_converged sol) eqn:Hc.
      { eexists; exists [CallSolveIvp a]. split; [reflexivity |].
        split; [simpl; lia |]. exists a. simpl. fold sol. auto. }
      rewrite Hb. cbv iota. rewrite <- Hb.
      destruct (IH (sol_y_last sol) (snd t_span, snd t_span + t_inc) (S k) (Some sol)
                   (log ++ [CallSolveIvp a])) as [o [new [Heq [Hlen Ho]]]]; [lia | lia |].
      exists o, (CallSolveIvp a :: new). rewrite Heq, <- app_assoc.
      split; [reflexivity |]. split; [simpl; lia |].
      destruct o as [[y |] | e |]; auto.
      destruct Ho as [a' [Hin Ha']]. exists a'. split; [right; exact Hin | exact Ha'].
    + apply Nat.ltb_ge in Hlt. assert (k = max_tries) as -> by lia.
      rewrite gradient_path_loop_done by lia. rewrite Nat.eqb_refl.
      destruct last; eexists; exists []; rewrite app_nil_r;
        (split; [reflexivity |]); (split; [simpl; lia |]); eauto 7.
Qed.

(** Without a beta sphere, the attempts of one call form a chain: the
    first starts at the given point over the given horizon, and every retry
    continues from the last point of the attempt before it, over the
    horizon extended by [t_inc]. *)
Lemma gradient_path_loop_retries :
  beta_sphere_maxima = None ->
  forall fuel y0 t_span k last log o log',
    loop fuel y0 t_span k last log = (o, log') ->
    exists calls,
      log' = log ++ map CallSolveIvp calls
      /\ retry_chain E t_inc calls
      /\ (forall a0, head calls = Some a0 ->
                     a0 = mk_ivp_args y0 t_span method max_step first_step).
Proof.
  intros Hb.
  assert (Hbase : forall y0 t_span k last log o log',
             loop O y0 t_span k last log = (o, log') ->
             exists calls,
               log' = log ++ map CallSolveIvp calls
               /\ retry_chain E t_inc calls
               /\ (forall a0, head calls = Some a0 ->
                              a0 = mk_ivp_args y0 t_span method max_step first_step)).
  { intros y0 t_span k last log o log'. simpl.
    destruct (k <? max_tries)%nat; [| destruct (k =? max_tries)%nat; [destruct last |]];
      intros H; inversion H; exists []; rewrite app_nil_r;
        (split; [reflexivity |]); (split; [exact I | discriminate]). }
  induction fuel as [| fuel IH]; intros y0 t_span k last log o log'; [apply Hbase |].
  rewrite gradient_path_loop_S. cbv zeta.
  destruct (k <? max_tries)%nat; [| apply Hbase].
  set (a := mk_ivp_args y0 t_span method max_step first_step).
  set (sol := solve_ivp E _ a).
  assert (Hone : exists calls,
             log ++ [CallSolveIvp a] = log ++ map CallSolveIvp calls
             /\ retry_chain E t_inc calls
             /\ (forall a0, head calls = Some a0 -> a0 = a)).
  { exists [a]. split; [reflexivity |]. split; [exact I |].
    intros a0 Ha0. inversion Ha0. reflexivity. }
  destruct (negb (sol_success sol)).
  { intros H; inversion H. subst. exact Hone. }
  destruct (ode_converged sol).
  { intros H; inversion H. subst. exact Hone. }
  rewrite Hb. cbv iota. rewrite <- Hb.
  intros H. apply IH in H. destruct H as [calls [-> [Hch Hhd]]].
  exists (a :: calls). rewrite <- app_assoc. split; [reflexivity |].
  split.
  - destruct calls as [| a2 rest]; [exact I |].
    specialize (Hhd a2 eq_refl). subst a2. simpl.
    split; [reflexivity |]. split; [reflexivity | exact Hch].
  - intros a0 Ha0. inversion Ha0. reflexivity.
Qed.

End GradientPathFacts.

(** Without a beta sphere, and with fuel for [max_tries] attempts,
    [gradient_path] ends after at most [max_tries] calls of the ODE solver:
    it returns the end point of a converged attempt or raises. *)
Lemma gradient_path_bounded_without_beta_sphere
    (fuel : nat) (pt : vec) (t_span : Q * Q) (method : ode_method) (max_step t_inc : Q)
    (max_tries : nat) (first_step : Q) (maxima : option vec) log :
  (max_tries <= fuel)%nat ->
  exists o new,
    gradient_path E fuel pt t_span method max_step t_inc max_tries first_step None maxima log
    = (o, log ++ new)
    /\ (length new <= max_tries)%nat
    /\ o <> Diverge.
Proof.
  intros Hfuel. unfold gradient_path, gradient_path_with.
  destruct (gradient_path_loop_bounded pt method max_step t_inc max_tries first_step None
              maxima eq_refl fuel pt t_span 0%nat None log) as [o [new [Heq [Hlen Ho]]]];
    [lia | lia |].
  exists o, new. split; [exact Heq |]. split; [lia |].
  intros ->. exact Ho.
Qed.


(** ** Isosurface root-finder *)

Lemma silent_iso_bracket (index_iso : Z) (rad_pts : list Q) :
  silent (iso_bracket index_iso rad_pts).
Proof.
  unfold iso_bracket.
  apply silent_bind.
  - destruct (0 <=? index_iso)%Z; [apply silent_py_index |].
    apply silent_bind; [apply silent_py_index | intros; apply silent_ret].
  - intros l. apply silent_bind; [| intros; apply silent_ret].
    destruct (_ <? _)%Z; [apply silent_py_index |].
    apply silent_bind; [apply silent_py_index | intros; apply silent_ret].
Qed.

(** C8.  The root-finder evaluates the density at the two ends of the
    bracket and checks [dens_u_bnd <= iso_val <= dens_l_bnd] before it
    solves: when the check fails it raises the bracket error, which carries
    the two radii and the two densities, and [root_scalar] has not been
    called; when the check passes and [root_scalar] reports that it did not
    converge, the call raises; a point is returned only when the check
    passed and the method converged. *)
Theorem isosurface_pt_checks_bracket_first
    (index_iso : Z) (rad_pts : list Q) (maxima cart_sphere_pt : vec) (iso_val iso_err : Q)
    (l_bnd u_bnd : Q) log :
  fst (iso_bracket index_iso rad_pts []) = Ret (l_bnd, u_bnd) ->
  let pt_l := ray_point maxima l_bnd cart_sphere_pt in
  let pt_u := ray_point maxima u_bnd cart_sphere_pt in
  let dens_l := density_func E pt_l in
  let dens_u := density_func E pt_u in
  let sol := root_scalar E (fun t => density_func E (ray_point maxima t cart_sphere_pt) - iso_val)
                         l_bnd u_bnd iso_err in
  let checked := log ++ [CallDensity [pt_l]; CallDensity [pt_u]] in
  let r := solve_for_isosurface_pt E index_iso rad_pts maxima cart_sphere_pt iso_val iso_err
                                   log in
  (~ (dens_u <= iso_val /\ iso_val <= dens_l) ->
   r = (Raise (ValueError_bracket l_bnd u_bnd dens_l dens_u iso_val), checked))
  /\ (dens_u <= iso_val /\ iso_val <= dens_l -> sol_converged sol = false ->
      r = (Raise AssertionError_root, checked ++ [CallRootScalar l_bnd u_bnd iso_err]))
  /\ (forall p log', r = (Ret p, log') ->
      dens_u <= iso_val /\ iso_val <= dens_l /\ sol_converged sol = true
      /\ p = ray_point maxima (sol_root sol) cart_sphere_pt
      /\ In (CallRootScalar l_bnd u_bnd iso_err) log').
Proof.
  intros Hb pt_l pt_u dens_l dens_u sol checked r.
  assert (Hr : r = if Qltb iso_val dens_u || Qltb dens_l iso_val
                   then (Raise (ValueError_bracket l_bnd u_bnd dens_l dens_u iso_val), checked)
                   else if negb (sol_converged sol)
                        then (Raise AssertionError_root,
                              checked ++ [CallRootScalar l_bnd u_bnd iso_err])
                        else (Ret (ray_point maxima (sol_root sol) cart_sphere_pt),
                              checked ++ [CallRootScalar l_bnd u_bnd iso_err;
                                          CallDensity [ray_point maxima (sol_root sol)
                                                                 cart_sphere_pt]])).
  { subst r. unfold solve_for_isosurface_pt.
    rewrite (bind_Ret_intro _ _ log (l_bnd, u_bnd) log).
    2: { rewrite (silent_iso_bracket index_iso rad_pts log), Hb. reflexivity. }
    run_comp. fold pt_l pt_u. fold dens_l dens_u.
    rewrite <- !app_assoc. simpl app. fold checked.
    destruct (_ || _); [reflexivity |].
    fold sol. destruct (negb _); rewrite <- ?app_assoc; reflexivity. }
  assert (Hchk : Qltb iso_val dens_u || Qltb dens_l iso_val = false
                 <-> dens_u <= iso_val /\ iso_val <= dens_l).
  { rewrite orb_false_iff, !Qltb_ge. tauto. }
  split; [| split].
  - intros Hn. rewrite Hr.
    destruct (_ || _); [reflexivity |]. exfalso. apply Hn, Hchk. reflexivity.
  - intros Hok Hconv. rewrite Hr.
    apply Hchk in Hok. rewrite Hok, Hconv. reflexivity.
  - intros p log' Hp. rewrite Hr in Hp.
    destruct (_ || _); [discriminate |]. pose proof (proj1 Hchk eq_refl) as Hc.
    destruct (sol_converged sol) eqn:Hconv; [| discriminate].
    simpl in Hp. inversion Hp. subst. repeat split; try tauto.
    apply in_or_app. right. left. reflexivity.
Qed.

(** ** Ray tracer *)

Lemma extends_gradient_path fuel pt t_span method max_step t_inc max_tries first_step
    beta maxima :
  extends (gradient_path E fuel pt t_span method max_step t_inc max_tries first_step
                         beta maxima).
Proof.
  intros log o log' H. unfold gradient_path, gradient_path_with in H.
  apply gradient_path_loop_log in H. destruct H as [new [-> _]]. eauto.
Qed.

Lemma emits_only_gradient_path fuel pt t_span method max_step t_inc max_tries first_step
    beta maxima :
  emits_only is_ivp_call
             (gradient_path E fuel pt t_span method max_step t_inc max_tries first_step
                            beta maxima).
Proof.
  intros log o log' H. unfold gradient_path, gradient_path_with in H.
  eapply gradient_path_loop_log; eauto.
Qed.

Lemma silent_np_arange start stop step : silent (np_arange start stop step).
Proof. unfold np_arange. destruct (Qeq_bool _ _); auto with comp. Qed.

Lemma silent_argsort_first a : silent (argsort_first a).
Proof. destruct a; simpl; auto with comp. Qed.

Section RayTracerFacts.

Context (fuel : nat).
Context (dens_cutoff : Q) (maxima cart_sphere_pt : vec) (other_maximas : list vec)
        (bnd_err iso_val : Q) (beta_sphere_maxima : option Q)
        (beta_sphere_others : option (list Q)).

Abbreviation on_switch := (on_basin_switch E maxima bnd_err).
Abbreviation iter := (ray_iter E fuel dens_cutoff maxima other_maximas bnd_err
                               beta_sphere_maxima beta_sphere_others).
Abbreviation scan_ray := (ray_loop E fuel dens_cutoff maxima other_maximas bnd_err
                                   beta_sphere_maxima beta_sphere_others).
Abbreviation trace := (trace_loop E fuel dens_cutoff maxima cart_sphere_pt other_maximas
                                  bnd_err iso_val beta_sphere_maxima beta_sphere_others).

Lemma silent_on_basin_switch ray ss_ray i_ray dist_maxima :
  silent (on_switch ray ss_ray i_ray dist_maxima).
Proof.
  unfold on_basin_switch.
  apply silent_bind; [auto with comp | intros cur].
  apply silent_bind; [auto with comp | intros prev].
  destruct (Qltb _ _).
  - destruct (first_below _ _); auto with comp.
  - destruct ss_ray; [| auto with comp].
    apply silent_bind; [apply silent_np_arange | auto with comp].
Qed.

Lemma extends_ray_iter rad_pts ray ray_density ss_ray i_ray pt :
  extends (iter rad_pts ray ray_density ss_ray i_ray pt).
Proof.
  unfold ray_iter.
  apply extends_bind; [auto with comp | intros dens].
  destruct (Qgtb _ _); [| auto with comp].
  apply extends_bind; [auto with comp | intros r].
  apply extends_bind; [apply extends_gradient_path | intros y].
  apply extends_bind; [auto with comp | intros y_val].
  destruct (near_other_maxima _ _); [| auto with comp].
  apply extends_bind; [| auto with comp].
  apply extends_silent, silent_on_basin_switch.
Qed.

Lemma extends_ray_loop rad_pts ray ray_density ss_ray todo :
  forall flag, extends (scan_ray rad_pts ray ray_density ss_ray todo flag).
Proof.
  induction todo as [| [i_ray pt] todo IH]; intros flag; simpl.
  - auto with comp.
  - apply extends_bind; [apply extends_ray_iter | intros [b |]]; auto with comp.
Qed.

Lemma emits_only_ray_iter rad_pts ray ray_density ss_ray i_ray pt :
  emits_only is_ivp_call (iter rad_pts ray ray_density ss_ray i_ray pt).
Proof.
  unfold ray_iter.
  apply emits_only_bind; [apply emits_only_silent; auto with comp | intros dens].
  destruct (Qgtb _ _); [| apply emits_only_silent; auto with comp].
  apply emits_only_bind; [apply emits_only_silent; auto with comp | intros r].
  apply emits_only_bind; [apply emits_only_gradient_path | intros y].
  apply emits_only_bind; [apply emits_only_silent; auto with comp | intros y_val].
  destruct (near_other_maxima _ _); [| apply emits_only_silent; auto with comp].
  apply emits_only_bind; [| intros b; apply emits_only_silent; auto with comp].
  apply emits_only_silent, silent_on_basin_switch.
Qed.

Lemma emits_only_ray_loop rad_pts ray ray_density ss_ray todo :
  forall flag, emits_only is_ivp_call (scan_ray rad_pts ray ray_density ss_ray todo flag).
Proof.
  induction todo as [| [i_ray pt] todo IH]; intros flag; simpl.
  - apply emits_only_silent; auto with comp.
  - apply emits_only_bind; [apply emits_only_ray_iter | intros [b |]]; auto.
    apply emits_only_silent; auto with comp.
Qed.

Lemma extends_density_on pts : extends (density_on E pts).
Proof. unfold density_on. auto with comp. Qed.

Lemma extends_density_at pt : extends (density_at E pt).
Proof. unfold density_at. auto with comp. Qed.

Lemma extends_trace_loop n :
  forall rad_pts ss_ray, extends (trace n rad_pts ss_ray).
Proof.
  induction n as [| n IH]; intros rad_pts ss_ray; simpl.
  - auto with comp.
  - apply extends_bind; [apply extends_density_on | intros ray_density].
    apply extends_bind; [auto with comp | intros _].
    apply extends_bind; [auto with comp | intros _].
    apply extends_bind; [apply extends_ray_loop | intros scan].
    destruct scan as [[bnd_pt basin_id | rad_pts' ss_ray' | i] | []]; auto with comp.
    + apply extends_bind; [| auto with comp].
      apply extends_silent, silent_argsort_first.
    + apply extends_bind; [| auto with comp].
      apply extends_silent, silent_argsort_first.
Qed.

(** *** The index handed over for a ray that escapes *)

Lemma argmin_from_spec (l : list Q) :
  forall i best best_val,
    let r := argmin_from i best best_val l in
    (r = best /\ Forall (fun x => best_val <= x) l)
    \/ (exists j x, r = (i + j)%nat /\ l !! j = Some x /\ x <= best_val
                    /\ Forall (fun y => x <= y) l).
Proof.
  induction l as [| x l IH]; intros i best bv; simpl.
  - left. split; [reflexivity | constructor].
  - destruct (Qltb x bv) eqn:Hx.
    + apply Qltb_lt in Hx. right.
      destruct (IH (S i) i x) as [[Hr Hall] | [j [y [Hr [Hj [Hy Hall]]]]]].
      * exists 0%nat, x. rewrite Nat.add_0_r.
        split; [exact Hr |]. split; [reflexivity |].
        split; [apply Qlt_le_weak; exact Hx |].
        constructor; [apply Qle_refl | exact Hall].
      * exists (S j), y.
        split; [lia |]. split; [exact Hj |].
        split; [apply Qle_trans with x; [exact Hy | apply Qlt_le_weak; exact Hx] |].
        constructor; [exact Hy | exact Hall].
    + apply Qltb_ge in Hx.
      destruct (IH (S i) best bv) as [[Hr Hall] | [j [y [Hr [Hj [Hy Hall]]]]]].
      * left. split; [exact Hr | constructor; auto].
      * right. exists (S j), y.
        split; [lia |]. split; [exact Hj |]. split; [exact Hy |].
        constructor; [apply Qle_trans with bv; auto | exact Hall].
Qed.

Lemma argsort_first_spec (a : list Q) (r : nat) log log' :
  argsort_first a log = (Ret r, log') ->
  exists v, a !! r = Some v /\ Forall (fun y => v <= y) a.
Proof.
  destruct a as [| x a]; [discriminate |]. simpl. intros H. inversion H. subst. clear H.
  destruct (argmin_from_spec a 1 0 x) as [[Hr Hall] | [j [y [Hr [Hj [Hy Hall]]]]]].
  - rewrite Hr. exists x. split; [reflexivity |].
    constructor; [apply Qle_refl | exact Hall].
  - rewrite Hr. exists y. split; [exact Hj |]. constructor; [exact Hy | exact Hall].
Qed.

Lemma lookup_map {A B : Type} (f : A -> B) (l : list A) (i : nat) :
  map f l !! i = option_map f (l !! i).
Proof.
  revert i. induction l as [| x l IH]; intros [| i]; simpl; auto.
Qed.

Lemma closest_to_iso_spec (g : list Q) (idx : nat) log log' :
  closest_to_iso iso_val (map (density_func E)
                              (map (fun r => ray_point maxima r cart_sphere_pt) g)) log
  = (Ret idx, log') ->
  exists r_i, g !! idx = Some r_i
              /\ forall r_k, In r_k g ->
                   iso_gap E maxima cart_sphere_pt iso_val r_i
                   <= iso_gap E maxima cart_sphere_pt iso_val r_k.
Proof.
  unfold closest_to_iso. rewrite !map_map. intros H.
  apply argsort_first_spec in H. destruct H as [v [Hv Hall]].
  rewrite lookup_map in Hv. destruct (g !! idx) as [r_i |] eqn:Hi; [| discriminate].
  simpl in Hv. inversion Hv. subst v. exists r_i. split; [reflexivity |].
  intros r_k Hk. rewrite List.Forall_forall in Hall.
  apply (Hall (iso_gap E maxima cart_sphere_pt iso_val r_k)).
  apply in_map_iff. exists r_k. split; [reflexivity | exact Hk].
Qed.

Lemma trace_loop_to_inf n :
  forall rad_pts ss_ray log res log',
    trace n rad_pts ss_ray log = (Ret res, log') ->
    tr_is_ray_to_inf res = true ->
    exists g idx r_i,
      tr_index_iso res = Some (Z.of_nat idx)
      /\ last_pass_on E maxima cart_sphere_pt g log'
      /\ g !! idx = Some r_i
      /\ forall r_k, In r_k g ->
           iso_gap E maxima cart_sphere_pt iso_val r_i
           <= iso_gap E maxima cart_sphere_pt iso_val r_k.
Proof.
  induction n as [| n IH]; intros rad_pts ss_ray log res log' H Hinf; [discriminate |].
  simpl in H.
  apply bind_Ret_inv in H. destruct H as [ray_density [log1 [Hd H]]].
  unfold density_on in Hd. run_comp in Hd. inversion Hd. subst ray_density log1. clear Hd.
  apply bind_Ret_inv in H. destruct H as [p0 [log2 [H0 H]]].
  apply (silent_log _ _ _ _ (silent_py_index _ _)) in H0. subst log2.
  apply bind_Ret_inv in H. destruct H as [p1 [log2 [H1 H]]].
  apply (silent_log _ _ _ _ (silent_py_index _ _)) in H1. subst log2.
  apply bind_Ret_inv in H. destruct H as [scan [log2 [Hs H]]].
  assert (Hin : last_pass_on E maxima cart_sphere_pt rad_pts log2).
  { destruct (emits_only_ray_loop _ _ _ _ _ _ _ _ _ Hs) as [new [-> Hnew]].
    exists log, new. rewrite <- app_assoc. split; [reflexivity | exact Hnew]. }
  assert (Hfin : forall idx l3,
             closest_to_iso iso_val
               (map (density_func E)
                    (map (fun r => ray_point maxima r cart_sphere_pt) rad_pts)) log2
             = (Ret idx, l3) ->
             ret (ray_to_inf_result idx) l3 = (Ret res, log') ->
             exists g idx r_i,
               tr_index_iso res = Some (Z.of_nat idx)
               /\ last_pass_on E maxima cart_sphere_pt g log'
               /\ g !! idx = Some r_i
               /\ forall r_k, In r_k g ->
                    iso_gap E maxima cart_sphere_pt iso_val r_i
                    <= iso_gap E maxima cart_sphere_pt iso_val r_k).
  { intros idx l3 Hc Hret. inversion Hret. subst.
    pose proof (silent_log _ _ _ _ (silent_argsort_first _) Hc) as ->.
    destruct (closest_to_iso_spec _ _ _ _ Hc) as [r_i [Hi Hmin]].
    exists rad_pts, idx, r_i. simpl. auto. }
  destruct scan as [[bnd_pt basin_id | rad_pts' ss_ray' | i] | []].
  - inversion H. subst res. discriminate.
  - eapply IH; eauto.
  - apply bind_Ret_inv in H. destruct H as [idx [l3 [Hc Hret]]]. eapply Hfin; eauto.
  - apply bind_Ret_inv in H. destruct H as [idx [l3 [Hc Hret]]]. eapply Hfin; eauto.
  - eapply IH; eauto.
Qed.

End RayTracerFacts.

Lemma iso_bracket_interior (rad_pts : list Q) (i : nat) (r_prev r_i : Q) log :
  (1 <= i)%nat -> rad_pts !! (i - 1)%nat = Some r_prev -> rad_pts !! i = Some r_i ->
  iso_bracket (Z.of_nat i) rad_pts log
  = (Ret (r_prev, default (r_i * 2) (rad_pts !! S i)), log).
Proof.
  intros Hi Hp Hr. unfold iso_bracket.
  destruct (Z.leb_spec 0 (Z.of_nat i)) as [_ | ?]; [| lia].
  replace (Z.of_nat i - 1)%Z with (Z.of_nat (i - 1)) by lia.
  rewrite (bind_Ret_intro _ _ log r_prev log) by (apply py_index_nat; exact Hp).
  destruct (rad_pts !! S i) as [r_next |] eqn:Hn.
  - pose proof (lookup_lt_Some _ _ _ Hn).
    destruct (Z.ltb_spec (Z.of_nat i + 1) (Z.of_nat (length rad_pts))) as [_ | ?]; [| lia].
    replace (Z.of_nat i + 1)%Z with (Z.of_nat (S i)) by lia.
    rewrite (bind_Ret_intro _ _ log r_next log) by (apply py_index_nat; exact Hn).
    reflexivity.
  - apply lookup_ge_None in Hn.
    destruct (Z.ltb_spec (Z.of_nat i + 1) (Z.of_nat (length rad_pts))) as [? | _]; [lia |].
    rewrite (bind_Ret_intro _ _ log (r_i * 2) log).
    2: { rewrite (bind_Ret_intro _ _ log r_i log) by (apply py_index_nat; exact Hr).
         reflexivity. }
    reflexivity.
Qed.

(** C2, as the code has it.  For a ray that the tracer classifies as
    escaping to infinity, the index handed to the root-finder is the
    position, on the radial grid of the last pass, of the sample whose
    density is closest to [iso_val]; it is not the index where the density
    crosses the cutoff.  For an index [i >= 1] the root-finder brackets with
    the radius before [i] and the radius after [i] in the radial grid it is
    given, and with twice the radius at [i] as the upper bound when [i] is
    the last grid point. *)
Theorem escaping_ray_bracket
    (fuel : nat) (dens_cutoff : Q) (maxima cart_sphere_pt : vec) (other_maximas : list vec)
    (bnd_err iso_val : Q) (beta_sphere_maxima : option Q)
    (beta_sphere_others : option (list Q)) (radial : list Q) log res log' :
  solve_for_basin_bnd_pt E fuel dens_cutoff maxima cart_sphere_pt other_maximas bnd_err
                         iso_val beta_sphere_maxima beta_sphere_others radial log
  = (Ret res, log') ->
  tr_is_ray_to_inf res = true ->
  (exists g idx r_i,
      tr_index_iso res = Some (Z.of_nat idx)
      /\ last_pass_on E maxima cart_sphere_pt g log'
      /\ g !! idx = Some r_i
      /\ forall r_k, In r_k g ->
           iso_gap E maxima cart_sphere_pt iso_val r_i
           <= iso_gap E maxima cart_sphere_pt iso_val r_k)
  /\ (forall (rad_pts : list Q) (i : nat) (r_prev r_i : Q) log0,
         (1 <= i)%nat -> rad_pts !! (i - 1)%nat = Some r_prev -> rad_pts !! i = Some r_i ->
         iso_bracket (Z.of_nat i) rad_pts log0
         = (Ret (r_prev, default (r_i * 2) (rad_pts !! S i)), log0)).
Proof.
  intros H Hinf. split.
  - unfold solve_for_basin_bnd_pt in H. eapply trace_loop_to_inf; eauto.
  - intros. apply iso_bracket_interior; assumption.
Qed.

(** *** The watershed step *)

Section WatershedStep.

Context (fuel : nat).
Context (dens_cutoff : Q) (maxima cart_sphere_pt : vec) (other_maximas : list vec)
        (bnd_err iso_val : Q) (beta_sphere_maxima : option Q)
        (beta_sphere_others : option (list Q)).




End WatershedStep.

(** ** Maxima locator *)

Lemma emits_only_refine_center fuel x : emits_only is_ivp_call (refine_center E fuel x).
Proof.
  unfold refine_center. apply emits_only_bind.
  - intros log o log' H. unfold gradient_path, gradient_path_with in H.
    eapply gradient_path_loop_log; eauto.
  - intros y. apply emits_only_silent, silent_expect_array.
Qed.

Lemma duplicates_detected (ms : list vec) (i j : nat) (mi mj : vec) :
  i <> j -> ms !! i = Some mi -> ms !! j = Some mj ->
  norm E (vsub mi mj) < 1 # 100000000 ->
  any_below (1 # 100000000) (set_diagonal_to_one (cdist E ms ms)) = true.
Proof.
  intros Hij Hi Hj Hd. unfold any_below.
  apply existsb_exists.
  exists (<[i := 1]> (map (fun y => norm E (vsub mi y)) ms)). split.
  - apply list_elem_of_In. apply list_elem_of_lookup_2 with i.
    unfold set_diagonal_to_one, cdist.
    rewrite list_lookup_imap, lookup_map, Hi. reflexivity.
  - apply existsb_exists. exists (norm E (vsub mi mj)). split.
    + apply list_elem_of_In. apply list_elem_of_lookup_2 with j.
      rewrite list_lookup_insert_ne by exact Hij.
      rewrite lookup_map, Hj. reflexivity.
    + apply Qltb_lt. exact Hd.
Qed.

(** C7.  With [optimize_centers] set, every seed is refined by a gradient
    path over the short horizon (0, 10), and the distances between all
    pairs of refined maxima are compared with 1e-8: when two different
    maxima are closer than that, the call raises the duplicate-maxima
    error.  Up to that point only the ODE solver has been called, for the
    refinement of the seeds: no ray has been traced and no surface is
    returned. *)
Theorem duplicate_maxima_abort (fuel depth : nat) (a : qtaim_args) log
    (ms : list vec) log1 (i j : nat) (mi mj : vec) :
  config_error a = None -> optimize_centers a = true ->
  map_M (refine_center E fuel) (centers a) log = (Ret ms, log1) ->
  i <> j -> ms !! i = Some mi -> ms !! j = Some mj ->
  norm E (vsub mi mj) < 1 # 100000000 ->
  qtaim_surface E fuel (S depth) a log = (Raise (RuntimeError_duplicates ms), log1)
  /\ exists new, log1 = log ++ new /\ Forall is_ivp_call new.
Proof.
  intros Hcfg Hopt Hms Hij Hi Hj Hd. split.
  - simpl. unfold qtaim_surface_body. rewrite Hcfg, Hopt.
    apply bind_Raise_intro. unfold _optimize_centers.
    rewrite (bind_Ret_intro _ _ _ _ _ Hms).
    rewrite (duplicates_detected ms i j mi mj Hij Hi Hj Hd).
    destruct ms; [destruct i; discriminate | reflexivity].
  - eapply (emits_only_map_M is_ivp_call); [| exact Hms].
    intros x. apply emits_only_refine_center.
Qed.

(** ** The driver *)

Ltac bind_inv H :=
  let a := fresh "a" in
  let l := fresh "log" in
  let Hm := fresh "Hm" in
  apply bind_Ret_inv in H; destruct H as [a [l [Hm H]]].

Lemma for_each_cons_inv {A S : Type} (x : A) (xs : list A) (body : A -> S -> M S)
    (s s' : S) log log' :
  for_each (x :: xs) body s log = (Ret s', log') ->
  exists s1 log1, body x s log = (Ret s1, log1)
                  /\ for_each xs body s1 log1 = (Ret s', log').
Proof. simpl. apply bind_Ret_inv. Qed.

Lemma trace_loop_result fuel dens_cutoff maxima cart_sphere_pt other_maximas bnd_err iso_val
    beta_sphere_maxima beta_sphere_others n :
  forall rad_pts ss_ray log res log',
    trace_loop E fuel dens_cutoff maxima cart_sphere_pt other_maximas bnd_err iso_val
               beta_sphere_maxima beta_sphere_others n rad_pts ss_ray log = (Ret res, log') ->
    (exists p id, res = mk_trace_result (Some p) false None true (Some id))
    \/ (exists idx, res = ray_to_inf_result idx).
Proof.
  induction n as [| n IH]; intros rad_pts ss_ray log res log' H; [discriminate |].
  simpl in H. bind_inv H. bind_inv H. bind_inv H. bind_inv H.
  destruct a2 as [[bnd_pt basin_id | rad_pts' ss_ray' | i] | []].
  - inversion H. left. eauto.
  - eapply IH; eauto.
  - bind_inv H. inversion H. right. eauto.
  - bind_inv H. inversion H. right. eauto.
  - eapply IH; eauto.
Qed.

Section DriverFacts.

Context (fuel : nat) (self : qtaim_args -> M SurfaceQTAIM) (a : qtaim_args).

Lemma trace_direction_step angular_pts i_maxima maxima other_maximas beta_sph_max
    other_beta_sph i_ang st log st' log' :
  trace_direction E fuel a angular_pts i_maxima maxima other_maximas beta_sph_max
                  other_beta_sph i_ang st log = (Ret st', log') ->
  dir_step i_maxima i_ang st st'.
Proof.
  unfold trace_direction. intros H.
  bind_inv H. bind_inv H. bind_inv H.
  unfold solve_for_basin_bnd_pt in Hm1. apply trace_loop_result in Hm1.
  destruct Hm1 as [[p [id ->]] | [idx ->]]; simpl in H.
  - bind_inv H. inversion Hm1. subst. bind_inv H. inversion Hm2. subst.
    inversion H. eapply dir_step_ias. reflexivity.
  - bind_inv H. bind_inv H. inversion H. eapply dir_step_oas. reflexivity.
Qed.

Lemma dir_step_grown i k st st' :
  dir_step i k st st' ->
  exists o_new a_new b_new,
    basin_grown i o_new a_new b_new st st'
    /\ Permutation (o_new ++ a_new) [k] /\ length b_new = length a_new.
Proof.
  intros [v -> | v id ->].
  - exists [k], [], []. split; [| split; [reflexivity | reflexivity]].
    unfold basin_grown. simpl. rewrite !length_alter.
    repeat split; try reflexivity.
    + rewrite list_lookup_alter_ne by auto. reflexivity.
    + rewrite list_lookup_alter_ne by auto. reflexivity.
    + intros o Ho. rewrite list_lookup_alter_eq, Ho. reflexivity.
    + intros x Hx. rewrite app_nil_r. exact Hx.
    + intros b Hb. rewrite app_nil_r. exact Hb.
    + intros row Hrow. rewrite list_lookup_alter_eq, Hrow. simpl.
      eexists. split; [reflexivity | apply length_insert].
  - exists [], [k], [id]. split; [| split; [reflexivity | reflexivity]].
    unfold basin_grown. simpl. rewrite !length_alter.
    repeat split; try reflexivity.
    + rewrite list_lookup_alter_ne by auto. reflexivity.
    + rewrite list_lookup_alter_ne by auto. reflexivity.
    + rewrite list_lookup_alter_ne by auto. reflexivity.
    + intros o Ho. rewrite app_nil_r. exact Ho.
    + intros x Hx. rewrite list_lookup_alter_eq, Hx. reflexivity.
    + intros b Hb. rewrite list_lookup_alter_eq, Hb. reflexivity.
    + intros row Hrow. rewrite list_lookup_alter_eq, Hrow. simpl.
      eexists. split; [reflexivity | apply length_insert].
Qed.

Lemma basin_grown_refl i st : basin_grown i [] [] [] st st.
Proof.
  unfold basin_grown. repeat split; try reflexivity.
  - intros o Ho. rewrite app_nil_r. exact Ho.
  - intros x Hx. rewrite app_nil_r. exact Hx.
  - intros b Hb. rewrite app_nil_r. exact Hb.
  - intros row Hrow. eauto.
Qed.

Lemma basin_grown_trans i o1 a1 b1 o2 a2 b2 st st1 st2 :
  basin_grown i o1 a1 b1 st st1 -> basin_grown i o2 a2 b2 st1 st2 ->
  basin_grown i (o1 ++ o2) (a1 ++ a2) (b1 ++ b2) st st2.
Proof.
  intros (L1 & L2 & L3 & L4 & R & F & O & A & B & W)
         (L1' & L2' & L3' & L4' & R' & F' & O' & A' & B' & W').
  unfold basin_grown.
  split; [congruence |]. split; [congruence |]. split; [congruence |].
  split; [congruence |]. split; [congruence |].
  split; [| split; [| split; [| split]]].
  - intros j Hj. destruct (F j Hj) as (E1 & E2 & E3 & E4).
    destruct (F' j Hj) as (E1' & E2' & E3' & E4').
    repeat split; congruence.
  - intros o Ho. rewrite app_assoc. auto.
  - intros x Hx. rewrite app_assoc. auto.
  - intros b Hb. rewrite app_assoc. auto.
  - intros row Hrow. destruct (W row Hrow) as [row1 [H1 Hl1]].
    destruct (W' row1 H1) as [row2 [H2 Hl2]]. exists row2. split; [exact H2 | congruence].
Qed.

(** The loop over the directions of one basin puts every direction in
    exactly one of the two index lists of that basin. *)
Lemma directions_loop angular_pts i_maxima maxima other_maximas beta_sph_max other_beta_sph
    len :
  forall s st log st' log',
    for_each (seq s len)
             (trace_direction E fuel a angular_pts i_maxima maxima other_maximas beta_sph_max
                              other_beta_sph) st log = (Ret st', log') ->
    exists o_new a_new b_new,
      basin_grown i_maxima o_new a_new b_new st st'
      /\ Permutation (o_new ++ a_new) (seq s len) /\ length b_new = length a_new.
Proof.
  induction len as [| len IH]; intros s st log st' log' H.
  - simpl in H. inversion H. subst. exists [], [], [].
    split; [apply basin_grown_refl | split; reflexivity].
  - simpl seq in H. apply for_each_cons_inv in H. destruct H as [st1 [log1 [H1 H2]]].
    apply trace_direction_step, dir_step_grown in H1.
    destruct H1 as (o1 & a1 & b1 & G1 & P1 & Lb1).
    apply IH in H2. destruct H2 as (o2 & a2 & b2 & G2 & P2 & Lb2).
    exists (o1 ++ o2), (a1 ++ a2), (b1 ++ b2).
    split; [eapply basin_grown_trans; eauto |]. split.
    + simpl seq. change (s :: seq (S s) len) with ([s] ++ seq (S s) len).
      rewrite <- P1, <- P2.
      rewrite <- !app_assoc. apply Permutation_app_head.
      rewrite !app_assoc. apply Permutation_app_tail. apply Permutation_app_comm.
    + rewrite !length_app. lia.
Qed.

End DriverFacts.

Section BasinFacts.

Context (fuel : nat) (self : qtaim_args -> M SurfaceQTAIM) (a : qtaim_args).

Hypothesis self_ok :
  forall a' log s log', self a' log = (Ret s, log') -> surface_ok E a' s.

Lemma shifted_indices_perm (n m : nat) (o a0 ro ra : list nat) :
  Permutation (o ++ a0) (seq 0 n) -> Permutation (ro ++ ra) (seq 0 m) ->
  Permutation ((o ++ map (fun x => (x + n)%nat) ro) ++ (a0 ++ map (fun x => (x + n)%nat) ra))
              (seq 0 (n + m)).
Proof.
  intros P1 P2. rewrite seq_app. simpl.
  assert (Hshift : seq n m = map (fun x => (x + n)%nat) (seq 0 m)).
  { clear. revert n. induction m as [| m IH]; intros n; [reflexivity |].
    rewrite !seq_S, map_app, <- IH. simpl. rewrite (Nat.add_comm m n). reflexivity. }
  rewrite Hshift, <- P1, <- P2, map_app.
  rewrite <- !app_assoc. apply Permutation_app_head.
  rewrite !app_assoc. apply Permutation_app_tail. apply Permutation_app_comm.
Qed.

Lemma refine_basin_post maximas angular_pts i_maxima maxima st log st' log'
    row o ia b :
  refine_basin E self a maximas angular_pts (length angular_pts) i_maxima maxima st log
  = (Ret st', log') ->
  entries st i_maxima row o ia b ->
  Permutation (o ++ ia) (seq 0 (length angular_pts)) ->
  length row = length angular_pts -> length b = length ia ->
  same_lengths st st'
  /\ (forall j, j <> i_maxima -> same_entries st st' j)
  /\ exists row' o' ia' b',
       entries st' i_maxima row' o' ia' b'
       /\ Permutation (o' ++ ia') (seq 0 (length row')) /\ length b' = length ia'.
Proof.
  unfold refine_basin. intros H (Er & Eo & Ei & Eb) P Lrow Lb.
  bind_inv H. bind_inv H. bind_inv H. bind_inv H. bind_inv H.
  bind_inv H. bind_inv H. bind_inv H. bind_inv H. bind_inv H.
  inversion H. subst st'. clear H.
  apply self_ok in Hm3.
  apply py_index_nat_inv in Hm4, Hm5, Hm6. unfold r_func_row in Hm8.
  apply py_index_nat_inv in Hm8.
  destruct Hm4 as [Hia _], Hm5 as [Hoa _], Hm6 as [Hba _], Hm8 as [Hra _].
  specialize (Hm3 i_maxima _ _ _ _ Hra Hoa Hia Hba).
  unfold basin_classified in Hm3. simpl in Hm3.
  rewrite Z.eqb_refl in Hm3. destruct Hm3 as (P' & Lb' & Lr').
  specialize (Lr' eq_refl). unfold angular_points in Lr'. simpl in Lr'.
  split; [| split].
  - unfold same_lengths. simpl. rewrite !length_alter. auto.
  - intros j Hj. unfold same_entries. simpl.
    rewrite !list_lookup_alter_ne by auto. auto.
  - exists (row ++ a9), (o ++ map (fun x => (x + length angular_pts)%nat) a6),
           (ia ++ map (fun x => (x + length angular_pts)%nat) a5), (b ++ a7).
    split; [| split].
    + unfold entries. simpl. rewrite !list_lookup_alter_eq, Er, Eo, Ei, Eb. auto.
    + rewrite length_app, Lrow. apply shifted_indices_perm; [exact P |].
      rewrite Lr' in P'. rewrite Lr'. exact P'.
    + rewrite !length_app, length_map. lia.
Qed.

Lemma basin_grown_entries i o_new a_new b_new st st' n :
  basin_grown i o_new a_new b_new st st' -> entry_initial n st i ->
  same_lengths st st'
  /\ (forall j, j <> i -> same_entries st st' j)
  /\ exists row', entries st' i row' o_new a_new b_new /\ length row' = n.
Proof.
  intros (L1 & L2 & L3 & L4 & R & F & O & A' & B & W) (Er & Eo & Ei & Eb).
  split; [unfold same_lengths; auto |]. split.
  - intros j Hj. apply F. exact Hj.
  - destruct (W _ Er) as [row' [Hrow' Hl]]. exists row'.
    rewrite length_replicate in Hl. split; [| exact Hl].
    unfold entries. rewrite (O _ Eo), (A' _ Ei), (B _ Eb). auto.
Qed.

(** Tracing one basin leaves the other basins as they were; the basin
    itself ends up classified. *)
Lemma trace_basin_post maximas angular_pts i_maxima maxima st log st' log' :
  length angular_pts = length (angular_points E a) ->
  trace_basin E fuel self a maximas angular_pts (length angular_pts) (i_maxima, maxima)
              st log = (Ret st', log') ->
  entry_initial (length angular_pts) st i_maxima ->
  same_lengths st st'
  /\ (forall j, j <> i_maxima -> same_entries st st' j)
  /\ entry_done E a st' i_maxima.
Proof.
  intros Hang H Hinit. unfold trace_basin in H.
  destruct (in_maxima_to_do (refine a) i_maxima) eqn:Hdo.
  - bind_inv H. destruct a0 as [beta_sph_max other_beta_sph].
    bind_inv H.
    apply directions_loop in Hm0. destruct Hm0 as (o & ia & b & G & P & Lb).
    destruct (basin_grown_entries _ _ _ _ _ _ _ G Hinit) as (SL & SE & row' & En & Lr).
    destruct (refine_is_true (refine a)) eqn:Hrt.
    + destruct (refine_basin_post _ _ _ _ _ _ _ _ _ _ _ _ H En P Lr Lb)
        as (SL' & SE' & row2 & o2 & ia2 & b2 & En2 & P2 & Lb2).
      split; [| split].
      * destruct SL as (? & ? & ? & ?), SL' as (? & ? & ? & ?).
        unfold same_lengths. repeat split; congruence.
      * intros j Hj. destruct (SE j Hj) as (? & ? & ? & ?).
        destruct (SE' j Hj) as (? & ? & ? & ?).
        unfold same_entries. repeat split; congruence.
      * exists row2, o2, ia2, b2. split; [exact En2 |].
        unfold basin_classified. rewrite Hdo, Hrt.
        split; [exact P2 | split; [exact Lb2 | discriminate]].
    + inversion H. subst st' log'. clear H.
      split; [exact SL | split; [exact SE |]].
      exists row', o, ia, b. split; [exact En |].
      unfold basin_classified. rewrite Hdo. rewrite Lr.
      split; [exact P | split; [exact Lb | intros _; exact Hang]].
  - inversion H. subst st' log'. clear H.
    split; [unfold same_lengths; auto |]. split; [intros; unfold same_entries; auto |].
    exists (replicate (length angular_pts) 0), [], [], []. split; [exact Hinit |].
    unfold basin_classified. rewrite Hdo, <- Hang. auto.
Qed.

(** The loop over the basins, from basin [s] on. *)
Lemma basins_loop maximas angular_pts todo :
  length angular_pts = length (angular_points E a) ->
  forall s st log st' log',
    for_each (combine (seq s (length todo)) todo)
             (trace_basin E fuel self a maximas angular_pts (length angular_pts))
             st log = (Ret st', log') ->
    (forall j, (s <= j < s + length todo)%nat -> entry_initial (length angular_pts) st j) ->
    same_lengths st st'
    /\ (forall j, (j < s \/ s + length todo <= j)%nat -> same_entries st st' j)
    /\ (forall j, (s <= j < s + length todo)%nat -> entry_done E a st' j).
Proof.
  intros Hang. induction todo as [| m todo IH]; intros s st log st' log' H Hinit.
  - simpl in H. inversion H. subst.
    split; [unfold same_lengths; auto |]. split; [intros; unfold same_entries; auto |].
    simpl. intros j Hj. lia.
  - simpl length in *. simpl seq in H. simpl combine in H.
    apply for_each_cons_inv in H. destruct H as [st1 [log1 [H1 H2]]].
    apply trace_basin_post in H1; [| exact Hang | apply Hinit; lia].
    destruct H1 as (SL1 & SE1 & D1).
    apply IH in H2.
    2: { intros j Hj. destruct (SE1 j ltac:(lia)) as (E1 & E2 & E3 & E4).
         destruct (Hinit j ltac:(lia)) as (I1 & I2 & I3 & I4).
         unfold entry_initial, entries. rewrite E1, E2, E3, E4. auto. }
    destruct H2 as (SL2 & SE2 & D2).
    split; [| split].
    + destruct SL1 as (? & ? & ? & ?), SL2 as (? & ? & ? & ?).
      unfold same_lengths. repeat split; congruence.
    + intros j Hj. destruct (SE1 j ltac:(lia)) as (? & ? & ? & ?).
      destruct (SE2 j ltac:(lia)) as (? & ? & ? & ?).
      unfold same_entries. repeat split; congruence.
    + intros j Hj. destruct (Nat.eq_dec j s) as [-> | Hne].
      * destruct D1 as (row & o & ia & b & (E1 & E2 & E3 & E4) & C).
        destruct (SE2 s ltac:(lia)) as (F1 & F2 & F3 & F4).
        exists row, o, ia, b. split; [| exact C].
        unfold entries. rewrite F1, F2, F3, F4. auto.
      * apply D2. lia.
Qed.

(** Every basin of a returned surface is classified, and the four lists
    have one entry per maximum. *)
Lemma qtaim_surface_body_ok log s log' :
  qtaim_surface_body E fuel self a log = (Ret s, log') ->
  surface_ok E a s /\ surface_shape s.
Proof.
  unfold qtaim_surface_body. destruct (config_error a); [discriminate |].
  intros H. bind_inv H. bind_inv H. bind_inv H. inversion H. subst s. clear H.
  assert (Hang : length a1 = length (angular_points E a)).
  { unfold angular_points. destruct (angular a); try discriminate.
    - run_comp in Hm0. inversion Hm0. reflexivity.
    - inversion Hm0. reflexivity. }
  unfold enumerate in Hm1.
  apply basins_loop in Hm1; [| exact Hang |].
  2: { intros j Hj. unfold entry_initial, entries. simpl.
       rewrite !lookup_replicate_2 by lia. auto. }
  destruct Hm1 as (SL & SE & D).
  destruct SL as (L1 & L2 & L3 & L4). simpl in L1, L2, L3, L4.
  rewrite length_replicate in L1. rewrite length_replicate in L2.
  rewrite length_replicate in L3. rewrite length_replicate in L4.
  split.
  - intros i row o ia b Hr Ho Hi Hb. simpl in Hr, Ho, Hi, Hb.
    assert (Hlt : (i < length a0)%nat) by (apply lookup_lt_Some in Ho; lia).
    destruct (D i ltac:(lia)) as (row' & o' & ia' & b' & (E1 & E2 & E3 & E4) & C).
    congruence.
  - unfold surface_shape. simpl. auto.
Qed.

End BasinFacts.

Lemma qtaim_surface_ok (fuel depth : nat) :
  forall a log s log',
    qtaim_surface E fuel depth a log = (Ret s, log') -> surface_ok E a s /\ surface_shape s.
Proof.
  induction depth as [| depth IH]; intros a log s log' H; [discriminate |].
  simpl in H. eapply qtaim_surface_body_ok; [| exact H].
  intros a' l s' l' H'. apply (IH _ _ _ _ H').
Qed.

(** C4.  In a returned surface model, for every basin, no index occurs
    twice in the OAS list followed by the IAS list, so the two sets are
    disjoint, and an index is in one of them exactly when the basin was
    traced and the index is one of the directions of that basin, the
    appended refinement directions included: every traced direction is
    recorded in exactly one of the two sets. *)
Theorem oas_ias_partition (fuel depth : nat) (a : qtaim_args) log s log'
    (i : nat) (row : list Q) (o ia : list nat) :
  qtaim_surface E fuel depth a log = (Ret s, log') ->
  r_func_rows (r_func s) !! i = Some row -> oas s !! i = Some o -> ias s !! i = Some ia ->
  NoDup (o ++ ia)
  /\ (forall k, In k (o ++ ia)
                <-> in_maxima_to_do (refine a) i = true /\ (k < length row)%nat).
Proof.
  intros H Hr Ho Hi. apply qtaim_surface_ok in H. destruct H as [Hok (L1 & L2 & L3 & L4)].
  assert (Hb : exists b, basins_ias s !! i = Some b).
  { apply lookup_lt_is_Some_2. apply lookup_lt_Some in Ho. lia. }
  destruct Hb as [b Hb].
  specialize (Hok i row o ia b Hr Ho Hi Hb). unfold basin_classified in Hok.
  destruct (in_maxima_to_do (refine a) i).
  - destruct Hok as (P & _ & _). split.
    + apply NoDup_ListNoDup. eapply Permutation_NoDup; [symmetry; exact P |].
      apply List.seq_NoDup.
    + intros k. split.
      * intros Hk. split; [reflexivity |].
        apply (Permutation_in _ P) in Hk. apply in_seq in Hk. lia.
      * intros [_ Hk]. apply (Permutation_in _ (Permutation_sym P)).
        apply in_seq. lia.
  - destruct Hok as (-> & -> & _ & _). split; [constructor |].
    intros k. simpl. split; [tauto | intros [Hf _]; discriminate].
Qed.


(** ** Integration grid over a basin *)

Lemma for_each_pure {A S : Type} (P : S -> Prop) (f : S -> A -> S) (body : A -> S -> M S)
    (xs : list A) :
  (forall x s log, In x xs -> P s -> body x s log = (Ret (f s x), log) /\ P (f s x)) ->
  forall s log, P s -> for_each xs body s log = (Ret (fold_left f xs s), log) /\ P (fold_left f xs s).
Proof.
  induction xs as [| x xs IH]; intros Hb s log Hs; simpl.
  - auto.
  - destruct (Hb x s log (or_introl eq_refl) Hs) as [Hx Hs'].
    rewrite (bind_Ret_intro _ _ _ _ _ Hx).
    apply IH; [| exact Hs']. intros y s0 l Hy. apply Hb. right. exact Hy.
Qed.

Lemma shell_index_inj (n i1 j1 i2 j2 : nat) :
  (j1 < n)%nat -> (j2 < n)%nat -> (i1 * n + j1 = i2 * n + j2)%nat -> i1 = i2 /\ j1 = j2.
Proof.
  intros H1 H2 H.
  apply (Nat.div_mod_unique n i1 i2 j1 j2 H1 H2). lia.
Qed.

Lemma shell_index_lt (n len i j : nat) :
  (i < len)%nat -> (j < n)%nat -> (i * n + j < len * n)%nat.
Proof. intros Hi Hj. nia. Qed.

Section Masking.

Context (pts : list Q) (n : nat).

Lemma length_mask_rad i_sph r_limit w i_rad :
  length (mask_rad pts n i_sph r_limit w i_rad) = length w.
Proof. unfold mask_rad. destruct (gt_limit _ _ _); [apply length_insert | reflexivity]. Qed.

Lemma length_mask_rad_fold i_sph r_limit idxs :
  forall w, length (fold_left (mask_rad pts n i_sph r_limit) idxs w) = length w.
Proof.
  induction idxs as [| i idxs IH]; intros w; simpl; [reflexivity |].
  rewrite IH. apply length_mask_rad.
Qed.

(** One direction: the samples of direction [i_sph] on the shells beyond
    the limit become 0, every other sample keeps its weight. *)
Lemma mask_rad_fold_lookup i_sph r_limit len :
  forall s w i_rad' i_sph',
    (i_sph < n)%nat -> (i_sph' < n)%nat -> (i_rad' * n + i_sph' < length w)%nat ->
    let touched := i_sph' = i_sph /\ (s <= i_rad' < s + len)%nat
                   /\ gt_limit pts i_rad' r_limit = true in
    let w' := fold_left (mask_rad pts n i_sph r_limit) (seq s len) w in
    (touched -> w' !! (i_rad' * n + i_sph')%nat = Some 0)
    /\ (~ touched -> w' !! (i_rad' * n + i_sph')%nat = w !! (i_rad' * n + i_sph')%nat).
Proof.
  induction len as [| len IH]; intros s w i_rad' i_sph' Hs Hs' Hlt touched w'.
  - subst touched w'. simpl. split; [intros (_ & ? & _); lia | reflexivity].
  - subst w'. simpl seq. simpl fold_left.
    destruct (IH (S s) (mask_rad pts n i_sph r_limit w s) i_rad' i_sph' Hs Hs')
      as [IHt IHu]; [rewrite length_mask_rad; exact Hlt |].
    subst touched. split.
    + intros (-> & Hr & Hg). destruct (Nat.eq_dec i_rad' s) as [-> | Hne].
      * rewrite IHu by (intros (_ & ? & _); lia).
        unfold mask_rad. rewrite Hg. apply list_lookup_insert_eq. exact Hlt.
      * apply IHt. split; [reflexivity |]. split; [lia | exact Hg].
    + intros Hn. rewrite IHu.
      * unfold mask_rad. destruct (gt_limit pts s r_limit) eqn:Hg; [| reflexivity].
        apply list_lookup_insert_ne. intros Heq.
        apply shell_index_inj in Heq; auto. destruct Heq as [<- <-].
        apply Hn. split; [reflexivity |]. split; [lia | exact Hg].
      * intros (He & Hr & Hg). apply Hn. split; [exact He |]. split; [lia | exact Hg].
Qed.

Lemma length_mask_sph row w i_sph : length (mask_sph pts n row w i_sph) = length w.
Proof.
  unfold mask_sph. destruct (row !! i_sph); [apply length_mask_rad_fold | reflexivity].
Qed.

Lemma length_mask_sph_fold row idxs :
  forall w, length (fold_left (mask_sph pts n row) idxs w) = length w.
Proof.
  induction idxs as [| i idxs IH]; intros w; simpl; [reflexivity |].
  rewrite IH. apply length_mask_sph.
Qed.

Lemma mask_sph_fold_lookup row len :
  forall s w i_rad i_sph r_limit,
    (s + len <= n)%nat -> (i_rad < length pts)%nat -> (i_sph < n)%nat ->
    length w = (length pts * n)%nat -> row !! i_sph = Some r_limit ->
    (forall k, (s <= k < s + len)%nat -> is_Some (row !! k)) ->
    let touched := (s <= i_sph < s + len)%nat /\ gt_limit pts i_rad r_limit = true in
    let w' := fold_left (mask_sph pts n row) (seq s len) w in
    (touched -> w' !! (i_rad * n + i_sph)%nat = Some 0)
    /\ (~ touched -> w' !! (i_rad * n + i_sph)%nat = w !! (i_rad * n + i_sph)%nat).
Proof.
  induction len as [| len IH]; intros s w i_rad i_sph r_limit Hn Hi Hj Hw Hrow Hall touched w'.
  - subst touched w'. simpl. split; [intros (? & _); lia | reflexivity].
  - subst w'. simpl seq. simpl fold_left.
    destruct (IH (S s) (mask_sph pts n row w s) i_rad i_sph r_limit) as [IHt IHu]; auto.
    { lia. } { rewrite length_mask_sph. exact Hw. } { intros k Hk. apply Hall. lia. }
    destruct (Hall s ltac:(lia)) as [r_s Hr_s].
    assert (Hidx : (i_rad * n + i_sph < length w)%nat)
      by (rewrite Hw; apply shell_index_lt; auto).
    destruct (mask_rad_fold_lookup s r_s (length pts) 0 w i_rad i_sph) as [Mt Mu];
      auto; [lia |].
    assert (Hcol : mask_sph pts n row w s
                   = fold_left (mask_rad pts n s r_s) (seq 0 (length pts)) w)
      by (unfold mask_sph; rewrite Hr_s; reflexivity).
    subst touched. split.
    + intros (Hr & Hg). destruct (Nat.eq_dec i_sph s) as [-> | Hne].
      * rewrite IHu by (intros (? & _); lia). rewrite Hcol.
        apply Mt. rewrite Hr_s in Hrow. inversion Hrow. subst r_s.
        split; [reflexivity |]. split; [lia | exact Hg].
      * apply IHt. split; [lia | exact Hg].
    + intros Hnt. rewrite IHu.
      * rewrite Hcol. apply Mu. intros (-> & _ & Hg).
        rewrite Hr_s in Hrow. inversion Hrow. subst r_s.
        apply Hnt. split; [lia | exact Hg].
      * intros (Hr & Hg). apply Hnt. split; [lia | exact Hg].
Qed.

(** All directions: the sample of direction [i_sph] on shell [i_rad] has
    weight 0 when the radius of the shell exceeds the limit of the
    direction, and keeps its weight otherwise. *)
Lemma masked_weights_lookup row w i_rad i_sph r_limit :
  (i_rad < length pts)%nat -> (i_sph < n)%nat -> (n <= length row)%nat ->
  length w = (length pts * n)%nat -> row !! i_sph = Some r_limit ->
  masked_weights pts n row w !! (i_rad * n + i_sph)%nat
  = if gt_limit pts i_rad r_limit then Some 0 else w !! (i_rad * n + i_sph)%nat.
Proof.
  intros Hi Hj Hrow Hw Hlim. unfold masked_weights.
  destruct (mask_sph_fold_lookup row n 0 w i_rad i_sph r_limit) as [Ht Hu]; auto.
  { intros k Hk. apply lookup_lt_is_Some_2. lia. }
  destruct (gt_limit pts i_rad r_limit) eqn:Hg.
  - apply Ht. split; [lia | reflexivity].
  - apply Hu. intros (_ & ?). discriminate.
Qed.

End Masking.

Lemma mask_shell_sample_pure (g : atom_grid) (i_sph : nat) (r_limit : Q) (i_rad : nat)
    (w : list Q) log :
  atom_grid_layout g -> (i_rad < length (ag_rgrid_points g))%nat ->
  (i_sph < ag_shell_size g)%nat ->
  length w = (length (ag_rgrid_points g) * ag_shell_size g)%nat ->
  mask_shell_sample g i_sph r_limit i_rad w log
  = (Ret (mask_rad (ag_rgrid_points g) (ag_shell_size g) i_sph r_limit w i_rad), log).
Proof.
  intros [Hidx _] Hi Hj Hw. unfold mask_shell_sample, mask_rad, gt_limit.
  destruct (lookup_lt_is_Some_2 _ _ Hi) as [r Hr]. rewrite Hr.
  rewrite (bind_Ret_intro _ _ log r log) by (apply py_index_nat; exact Hr).
  destruct (Qgtb r r_limit); [| reflexivity].
  rewrite (bind_Ret_intro _ _ log (i_rad * ag_shell_size g)%nat log)
    by (apply py_index_nat; apply Hidx; lia).
  replace (Z.of_nat i_rad + 1)%Z with (Z.of_nat (S i_rad)) by lia.
  rewrite (bind_Ret_intro _ _ log (S i_rad * ag_shell_size g)%nat log)
    by (apply py_index_nat; apply Hidx; lia).
  unfold set_item.
  replace (i_rad * ag_shell_size g + i_sph <? length w)%nat with true; [reflexivity |].
  symmetry. apply Nat.ltb_lt. rewrite Hw. apply shell_index_lt; auto.
Qed.

Lemma mask_direction_pure (self : SurfaceQTAIM) (g : atom_grid) (i_basin i_sph : nat)
    (rows : list (list Q)) (row : list Q) (w : list Q) log :
  r_func self = NdArray rows -> rows !! i_basin = Some row ->
  atom_grid_layout g -> (i_sph < ag_shell_size g)%nat -> (ag_shell_size g <= length row)%nat ->
  length w = (length (ag_rgrid_points g) * ag_shell_size g)%nat ->
  mask_direction self g i_basin i_sph w log
  = (Ret (mask_sph (ag_rgrid_points g) (ag_shell_size g) row w i_sph), log)
  /\ length (mask_sph (ag_rgrid_points g) (ag_shell_size g) row w i_sph)
     = (length (ag_rgrid_points g) * ag_shell_size g)%nat.
Proof.
  intros Hr Hrow Hlay Hj Hn Hw. split; [| rewrite length_mask_sph; exact Hw].
  unfold mask_direction, r_func_item, mask_sph. rewrite Hr.
  destruct (lookup_lt_is_Some_2 row i_sph ltac:(lia)) as [r_limit Hlim]. rewrite Hlim.
  rewrite (bind_Ret_intro _ _ log r_limit log).
  2: { rewrite (bind_Ret_intro _ _ log row log) by (apply py_index_nat; exact Hrow).
       apply py_index_nat. exact Hlim. }
  apply (for_each_pure
           (fun w0 => length w0 = (length (ag_rgrid_points g) * ag_shell_size g)%nat)
           (mask_rad (ag_rgrid_points g) (ag_shell_size g) i_sph r_limit)); [| exact Hw].
  intros i_rad w0 log0 Hin Hw0. apply in_seq in Hin. split.
  - apply mask_shell_sample_pure; auto. lia.
  - rewrite length_mask_rad. exact Hw0.
Qed.

(** X22.  When the radial function is a two-dimensional array, the grid that
    [get_atom_grid_over_basin] returns has the weight of every shell sample
    whose radius exceeds the boundary radius of its direction set to 0 and
    every other weight unchanged. *)
Lemma get_atom_grid_over_basin_on_array (self : SurfaceQTAIM) (i_basin : nat)
    (rows : list (list Q)) (row rgrid : list Q) (deg : Z) (center : vec) log :
  r_func self = NdArray rows -> rows !! i_basin = Some row ->
  angular_degs self = AngDegree deg ->
  rad_grids self !! i_basin = Some rgrid -> maximas self !! i_basin = Some center ->
  let g := AtomGrid E rgrid deg center in
  let pts := ag_rgrid_points g in
  let n := ag_shell_size g in
  atom_grid_layout g -> (n <= length row)%nat ->
  get_atom_grid_over_basin E self i_basin log
  = (Ret (mk_atom_grid pts n (ag_indices g) (masked_weights pts n row (ag_weights g))),
     log ++ [CallAtomGrid rgrid deg center])
  /\ forall i_rad i_sph r r_limit w,
       pts !! i_rad = Some r -> (i_sph < n)%nat -> row !! i_sph = Some r_limit ->
       ag_weights g !! (i_rad * n + i_sph)%nat = Some w ->
       masked_weights pts n row (ag_weights g) !! (i_rad * n + i_sph)%nat
       = Some (if Qgtb r r_limit then 0 else w).
Proof.
  intros Hr Hrow Hdeg Hrg Hc g pts n Hlay Hn. split.
  - unfold get_atom_grid_over_basin. rewrite Hdeg.
    rewrite (bind_Ret_intro _ _ log (Some deg) log) by reflexivity.
    rewrite (bind_Ret_intro _ _ log rgrid log) by (apply py_index_nat; exact Hrg).
    rewrite (bind_Ret_intro _ _ log center log) by (apply py_index_nat; exact Hc).
    rewrite (bind_Ret_intro _ _ log deg log) by reflexivity.
    rewrite (bind_Ret_intro _ _ log tt (log ++ [CallAtomGrid rgrid deg center]))
      by reflexivity.
    cbv zeta. fold g.
    destruct (for_each_pure
                (fun w0 => length w0 = (length pts * n)%nat)
                (mask_sph pts n row) (mask_direction self g i_basin) (seq 0 n))
      with (s := ag_weights g) (log := log ++ [CallAtomGrid rgrid deg center])
      as [Hloop _].
    + intros i_sph w0 log0 Hin Hw0. apply in_seq in Hin.
      eapply mask_direction_pure; eauto. subst n. lia.
    + destruct Hlay as [_ Hw]. exact Hw.
    + fold n. rewrite (bind_Ret_intro _ _ _ _ _ Hloop). reflexivity.
  - intros i_rad i_sph r r_limit w Hp Hj Hlim Hwt.
    rewrite (masked_weights_lookup pts n row (ag_weights g) i_rad i_sph r_limit); auto.
    + unfold gt_limit. rewrite Hp. destruct (Qgtb r r_limit); [reflexivity | exact Hwt].
    + apply lookup_lt_Some in Hp. exact Hp.
    + destruct Hlay as [_ Hw]. exact Hw.
Qed.

(** When the radial function is a list of arrays, as [qtaim_surface]
    builds it, the first subscript [r_func[i_basin, i_sph]] raises: no grid
    is returned unless the shells are empty. *)
Lemma get_atom_grid_over_basin_on_list (self : SurfaceQTAIM) (i_basin : nat)
    (rows : list (list Q)) log o log' :
  r_func self = PyList rows ->
  (forall rgrid deg center, (0 < ag_shell_size (AtomGrid E rgrid deg center))%nat) ->
  get_atom_grid_over_basin E self i_basin log = (o, log') ->
  forall g, o <> Ret g.
Proof.
  intros Hr Hshell H g Hg. subst o. unfold get_atom_grid_over_basin in H.
  bind_inv H. bind_inv H. bind_inv H. bind_inv H. bind_inv H. bind_inv H.
  specialize (Hshell a0 a2 a1).
  destruct (ag_shell_size (AtomGrid E a0 a2 a1)) as [| k]; [lia |].
  simpl seq in Hm4. apply for_each_cons_inv in Hm4.
  destruct Hm4 as [w1 [l1 [Hbody _]]]. unfold mask_direction in Hbody.
  bind_inv Hbody. unfold r_func_item in Hm4. rewrite Hr in Hm4. discriminate.
Qed.

(** * Further properties of the code *)

(** ** Gradient-flow integrator *)

Section GradientPathReturns.

Context (pt : vec) (method : ode_method) (max_step t_inc : Q) (max_tries : nat)
        (first_step : Q) (beta_sphere_maxima : option Q) (maxima : option vec).

(** What an attempt must have given for its end point to be returned. *)
Lemma gradient_path_loop_returns fuel :
  forall y0 t_span k last log r log',
    (k <= max_tries)%nat ->
    gradient_path_loop E pt method max_step t_inc max_tries first_step
                       beta_sphere_maxima maxima fuel y0 t_span k last log
    = (Ret r, log') ->
    exists a new,
      log' = log ++ new /\ In (CallSolveIvp a) new
      /\ let sol := solve_ivp E (fun _ x => grad_func E x) a in
         r = Some (sol_y_last sol) /\ sol_success sol = true
         /\ (ode_converged sol = true
             \/ exists beta m, beta_sphere_maxima = Some beta /\ maxima = Some m
                               /\ norm E (vsub (sol_y_last sol) m) < beta).
Proof.
  assert (Hbase : forall y0 t_span k last log r log',
             (k <= max_tries)%nat ->
             gradient_path_loop E pt method max_step t_inc max_tries first_step
                                beta_sphere_maxima maxima O y0 t_span k last log
             = (Ret r, log') -> False).
  { intros y0 t_span k last log r log' Hk. simpl.
    destruct (Nat.ltb_spec k max_tries); [discriminate |].
    destruct (Nat.eqb_spec k max_tries); [destruct last; discriminate |].
    intros _. lia. }
  induction fuel as [| fuel IH]; intros y0 t_span k last log r log' Hk.
  { intros H. exfalso. eapply Hbase; eauto. }
  rewrite gradient_path_loop_S. cbv zeta.
  destruct (k <? max_tries)%nat eqn:Hlt.
  2: { intros H. exfalso. eapply Hbase; eauto. }
  apply Nat.ltb_lt in Hlt.
  set (a := mk_ivp_args y0 t_span method max_step first_step).
  set (sol := solve_ivp E _ a).
  assert (Hrec : forall y0' t_span' k' last',
             (k' <= max_tries)%nat ->
             gradient_path_loop E pt method max_step t_inc max_tries first_step
                                beta_sphere_maxima maxima fuel y0' t_span' k' last' (log ++ [CallSolveIvp a])
             = (Ret r, log') ->
             exists a0 new,
               log' = log ++ new /\ In (CallSolveIvp a0) new
               /\ let sol0 := solve_ivp E (fun _ x => grad_func E x) a0 in
                  r = Some (sol_y_last sol0) /\ sol_success sol0 = true
                  /\ (ode_converged sol0 = true
                      \/ exists beta m, beta_sphere_maxima = Some beta /\ maxima = Some m
                                        /\ norm E (vsub (sol_y_last sol0) m) < beta)).
  { intros y0' t_span' k' last' Hk' H. apply IH in H; [| exact Hk'].
    destruct H as (a0 & new & -> & Hin & Hsol).
    exists a0, (CallSolveIvp a :: new). rewrite <- app_assoc.
    split; [reflexivity |]. split; [right; exact Hin | exact Hsol]. }
  destruct (sol_success sol) eqn:Hs; simpl negb; cbv iota; [| discriminate].
  destruct (ode_converged sol) eqn:Hc.
  { intros H. inversion H. subst. exists a, [CallSolveIvp a].
    split; [reflexivity |]. split; [left; reflexivity |]. fold sol. auto. }
  destruct beta_sphere_maxima as [beta |] eqn:Hb.
  - destruct maxima as [m |] eqn:Hm; [| discriminate].
    destruct (Qltb _ beta) eqn:Hr.
    + intros H. inversion H. subst. exists a, [CallSolveIvp a].
      split; [reflexivity |]. split; [left; reflexivity |]. fold sol.
      split; [reflexivity |]. split; [exact Hs |]. right.
      exists beta, m. apply Qltb_lt in Hr. auto.
    + intros H. destruct (Hrec _ _ _ _ Hk H) as (a0 & new & Hl & Hin & Hr0 & Hs0 & Hor).
      exists a0, new. split; [exact Hl |]. split; [exact Hin |].
      split; [exact Hr0 |]. split; [exact Hs0 |].
      destruct Hor as [Hc0 | (b' & m' & Hb' & Hm' & Hlt')]; [left; exact Hc0 |].
      right. exists b', m'. auto.
  - intros H. destruct (Hrec _ _ _ _ Hlt H) as (a0 & new & Hl & Hin & Hr0 & Hs0 & Hor).
    exists a0, new. split; [exact Hl |]. split; [exact Hin |].
    split; [exact Hr0 |]. split; [exact Hs0 |].
    destruct Hor as [Hc0 | (b' & m' & Hb' & _)]; [left; exact Hc0 | discriminate].
Qed.

(** Without a beta sphere the loop uses up one of its attempts at every
    turn that does not end it; when it gives up, it has made them all. *)
Lemma gradient_path_loop_budget :
  beta_sphere_maxima = None ->
  forall fuel y0 t_span k last log,
    (k <= max_tries)%nat -> (max_tries - k <= fuel)%nat ->
    exists o new,
      gradient_path_loop E pt method max_step t_inc max_tries first_step
                         beta_sphere_maxima maxima fuel y0 t_span k last log
      = (o, log ++ new)
      /\ (length new <= max_tries - k)%nat
      /\ o <> Diverge
      /\ forall p s t, o = Raise (RuntimeError_no_convergence p s t) ->
                       length new = (max_tries - k)%nat.
Proof.
  intros Hb. induction fuel as [| fuel IH]; intros y0 t_span k last log Hk Hfuel.
  - assert (k = max_tries) as -> by lia.
    rewrite gradient_path_loop_done by lia. rewrite Nat.eqb_refl.
    destruct last; eexists; exists []; rewrite app_nil_r;
      (split; [reflexivity |]); (split; [simpl; lia |]);
      (split; [discriminate |]); intros; simpl; lia.
  - destruct (k <? max_tries)%nat eqn:Hlt.
    + rewrite gradient_path_loop_S, Hlt. apply Nat.ltb_lt in Hlt. cbv zeta.
      set (a := mk_ivp_args _ _ _ _ _). set (sol := solve_ivp E _ a).
      destruct (sol_success sol) eqn:Hs; simpl negb; cbv iota.
      2: { eexists; exists [CallSolveIvp a]. split; [reflexivity |].
           split; [simpl; lia |]. split; discriminate. }
      destruct (ode_converged sol) eqn:Hc.
      { eexists; exists [CallSolveIvp a]. split; [reflexivity |].
        split; [simpl; lia |]. split; discriminate. }
      rewrite Hb. cbv iota. rewrite <- Hb.
      destruct (IH (sol_y_last sol) (snd t_span, snd t_span + t_inc) (S k) (Some sol)
                   (log ++ [CallSolveIvp a])) as (o & new & Heq & Hlen & Ho & Hgive);
        [lia | lia |].
      exists o, (CallSolveIvp a :: new). rewrite Heq, <- app_assoc.
      split; [reflexivity |]. split; [simpl; lia |]. split; [exact Ho |].
      intros p s t Hraise. specialize (Hgive p s t Hraise). simpl. lia.
    + apply Nat.ltb_ge in Hlt. assert (k = max_tries) as -> by lia.
      rewrite gradient_path_loop_done by lia. rewrite Nat.eqb_refl.
      destruct last; eexists; exists []; rewrite app_nil_r;
        (split; [reflexivity |]); (split; [simpl; lia |]);
        (split; [discriminate |]); intros; simpl; lia.
Qed.

End GradientPathReturns.

(** X1.  Without a beta sphere, and given fuel for [max_tries] attempts,
    [gradient_path] ends after at most [max_tries] calls of the ODE solver
    and of nothing else; it does not fall off its end, and when it raises
    the no-convergence error it has made exactly [max_tries] calls. *)
Theorem gradient_path_ends_within_max_tries
    (fuel : nat) (pt : vec) (t_span : Q * Q) (method : ode_method) (max_step t_inc : Q)
    (max_tries : nat) (first_step : Q) (maxima : option vec) log :
  (max_tries <= fuel)%nat ->
  exists o new,
    gradient_path E fuel pt t_span method max_step t_inc max_tries first_step None maxima log
    = (o, log ++ new)
    /\ (length new <= max_tries)%nat
    /\ Forall is_ivp_call new
    /\ o <> Diverge /\ o <> Ret None
    /\ forall p s t, o = Raise (RuntimeError_no_convergence p s t) ->
                     length new = max_tries.
Proof.
  intros Hfuel. unfold gradient_path, gradient_path_with.
  destruct (gradient_path_loop_budget pt method max_step t_inc max_tries first_step None
              maxima eq_refl fuel pt t_span 0%nat None log)
    as (o & new & Heq & Hlen & Ho & Hgive); [lia | lia |].
  exists o, new. split; [exact Heq |]. split; [lia |].
  split.
  - pose proof Heq as Hlog. apply gradient_path_loop_log in Hlog.
    destruct Hlog as [new' [Hn Hall]].
    apply app_inv_head in Hn. subst new'. exact Hall.
  - split; [exact Ho |]. split.
    + intros ->. apply gradient_path_loop_returns in Heq; [| lia].
      destruct Heq as (a & new' & _ & _ & Hr & _). discriminate.
    + intros p s t Hr. rewrite (Hgive p s t Hr). lia.
Qed.

(** X2.  A point that [gradient_path] returns is the end point of one of
    its attempts: the solver reported success, and either the last two
    positions of the trajectory differ by less than 0.01 in every
    coordinate, or a beta sphere is configured and the end point is inside
    it.  Up to the return only the ODE solver has been called. *)
Theorem gradient_path_returns_settled_point
    (fuel : nat) (pt : vec) (t_span : Q * Q) (method : ode_method) (max_step t_inc : Q)
    (max_tries : nat) (first_step : Q) (beta_sphere_maxima : option Q) (maxima : option vec)
    log r log' :
  gradient_path E fuel pt t_span method max_step t_inc max_tries first_step
                beta_sphere_maxima maxima log = (Ret r, log') ->
  exists a new,
    log' = log ++ new /\ Forall is_ivp_call new /\ In (CallSolveIvp a) new
    /\ let sol := solve_ivp E (fun _ x => grad_func E x) a in
       r = Some (sol_y_last sol) /\ sol_success sol = true
       /\ (vall_lt (vabs (vsub (sol_y_prev sol) (sol_y_last sol))) (1 # 100) = true
           \/ exists beta m, beta_sphere_maxima = Some beta /\ maxima = Some m
                             /\ norm E (vsub (sol_y_last sol) m) < beta).
Proof.
  intros H. unfold gradient_path, gradient_path_with in H.
  pose proof H as Hlog. apply gradient_path_loop_log in Hlog.
  destruct Hlog as [new' [Hn Hall]].
  apply gradient_path_loop_returns in H; [| lia].
  destruct H as (a & new & Hl & Hin & Hsol).
  exists a, new. split; [exact Hl |].
  split; [rewrite Hl in Hn; apply app_inv_head in Hn; subst new'; exact Hall |].
  split; [exact Hin | exact Hsol].
Qed.

(** X3.  Without a beta sphere, the calls of the ODE solver made by one
    call of [gradient_path] form a chain: the first starts at the given
    point over the given horizon, and each retry starts at the last point
    of the attempt before it, over a horizon that begins where the previous
    one ended and is [t_inc] long. *)
Theorem gradient_path_retries_extend_horizon
    (fuel : nat) (pt : vec) (t_span : Q * Q) (method : ode_method) (max_step t_inc : Q)
    (max_tries : nat) (first_step : Q) (maxima : option vec) log o log' :
  gradient_path E fuel pt t_span method max_step t_inc max_tries first_step None maxima log
  = (o, log') ->
  exists calls,
    log' = log ++ map CallSolveIvp calls
    /\ retry_chain E t_inc calls
    /\ (forall a0, head calls = Some a0 ->
                   a0 = mk_ivp_args pt t_span method max_step first_step).
Proof.
  intros H. unfold gradient_path, gradient_path_with in H.
  eapply gradient_path_loop_retries; [reflexivity | exact H].
Qed.

(** ** Isosurface root-finder: the ends of the grid *)

Lemma last_cons_default {A : Type} (l : list A) (y d d' : A) :
  List.last (y :: l) d = List.last (y :: l) d'.
Proof.
  revert y. induction l as [| z l IH]; intros y; [reflexivity |].
  change (List.last (z :: l) d = List.last (z :: l) d'). apply IH.
Qed.

Lemma lookup_last_cons {A : Type} (x : A) (l : list A) :
  (x :: l) !! length l = Some (List.last (x :: l) x).
Proof.
  revert x. induction l as [| y l IH]; intros x; [reflexivity |].
  change ((y :: l) !! length l = Some (List.last (y :: l) x)).
  rewrite IH. f_equal. apply last_cons_default.
Qed.

Lemma py_index_minus_one {A : Type} (x : A) (l : list A) log :
  py_index (x :: l) (-1) log = (Ret (List.last (x :: l) x), log).
Proof.
  unfold py_index. cbv zeta. change (-1 <? 0)%Z with true. cbv iota.
  change (length (x :: l)) with (S (length l)).
  destruct (Z.ltb_spec (-1 + Z.of_nat (S (length l))) 0) as [? | _]; [lia |].
  destruct (Z.leb_spec (Z.of_nat (S (length l))) (-1 + Z.of_nat (S (length l))))
    as [? | _]; [lia |].
  cbn [orb].
  replace (Z.to_nat (-1 + Z.of_nat (S (length l)))) with (length l) by lia.
  rewrite lookup_last_cons. reflexivity.
Qed.

Lemma py_index_out_of_range {A : Type} (l : list A) (i : Z) log :
  (Z.of_nat (length l) <= i)%Z -> py_index l i log = (Raise IndexError, log).
Proof.
  intros Hi. unfold py_index. cbv zeta.
  destruct (Z.ltb_spec i 0) as [? | _]; [lia |].
  destruct (Z.ltb_spec i 0) as [? | _]; [lia |].
  destruct (Z.leb_spec (Z.of_nat (length l)) i) as [_ | ?]; [| lia].
  reflexivity.
Qed.

(** X4.  At index 0 the lower bound of the bracket is not half the first
    radius: [index_iso >= 0] holds, so the code reads [rad_pts[-1]], the
    last radius of the grid.  The upper bound is the second radius, or
    twice the first when the grid has a single radius. *)
Theorem iso_bracket_at_first_index (r0 : Q) (rest : list Q) log :
  iso_bracket 0 (r0 :: rest) log
  = (Ret (List.last (r0 :: rest) r0,
          match rest with
          | [] => r0 * 2
          | r1 :: _ => r1
          end), log).
Proof.
  unfold iso_bracket. change (0 <=? 0)%Z with true. cbv iota.
  change (0 - 1)%Z with (-1)%Z.
  rewrite (bind_Ret_intro _ _ log _ log (py_index_minus_one r0 rest log)).
  destruct rest as [| r1 rest].
  - reflexivity.
  - change (length (r0 :: r1 :: rest)) with (S (S (length rest))).
    destruct (Z.ltb_spec (0 + 1) (Z.of_nat (S (S (length rest))))) as [_ | ?]; [| lia].
    rewrite (bind_Ret_intro _ _ log r1 log); [reflexivity |].
    apply (py_index_nat (r0 :: r1 :: rest) 1). reflexivity.
Qed.

(** X5.  An index at or past the end of the radial grid makes the
    root-finder raise [IndexError] before the density is evaluated.  This
    is what happens to an index that the tracer took on a refined grid
    longer than the grid the root-finder is given. *)
Theorem isosurface_pt_index_past_grid
    (index_iso : Z) (rad_pts : list Q) (maxima cart_sphere_pt : vec) (iso_val iso_err : Q) log :
  (Z.of_nat (length rad_pts) <= index_iso)%Z ->
  solve_for_isosurface_pt E index_iso rad_pts maxima cart_sphere_pt iso_val iso_err log
  = (Raise IndexError, log).
Proof.
  intros Hi. unfold solve_for_isosurface_pt.
  apply bind_Raise_intro. unfold iso_bracket.
  destruct (Z.leb_spec 0 index_iso) as [_ | ?]; [| lia].
  destruct (Z.ltb_spec (index_iso + 1) (Z.of_nat (length rad_pts))) as [? | _]; [lia |].
  destruct (py_index rad_pts (index_iso - 1) log) as [[l_bnd | e |] log1] eqn:Hl.
  - pose proof (silent_log _ _ _ _ (silent_py_index _ _) Hl) as ->.
    rewrite (bind_Ret_intro _ _ log l_bnd log Hl).
    apply bind_Raise_intro. apply bind_Raise_intro.
    apply py_index_out_of_range. exact Hi.
  - apply bind_Raise_intro.
    pose proof (silent_log _ _ _ _ (silent_py_index _ _) Hl) as ->.
    unfold py_index in Hl |- *. cbv zeta in Hl |- *.
    destruct (_ || _); [inversion Hl; reflexivity |].
    destruct (rad_pts !! _); [discriminate | inversion Hl; reflexivity].
  - exfalso. unfold py_index in Hl. cbv zeta in Hl.
    destruct (_ || _); [discriminate |]. destruct (rad_pts !! _); discriminate.
Qed.

(** ** Ray tracer: what it returns and where it stops *)

Lemma first_below_spec (c : Q) (a : list Q) (k : nat) :
  first_below c a = Some k ->
  exists d, a !! k = Some d /\ d < c
            /\ forall j d', (j < k)%nat -> a !! j = Some d' -> c <= d'.
Proof.
  revert k. induction a as [| x a IH]; intros k; simpl; [discriminate |].
  destruct (Qltb x c) eqn:Hx.
  - intros H. inversion H. subst k. exists x. split; [reflexivity |].
    split; [apply Qltb_lt; exact Hx | intros j d' Hj; lia].
  - destruct (first_below c a) as [k' |] eqn:Hk; [| discriminate].
    simpl. intros H. inversion H. subst k.
    destruct (IH k' eq_refl) as (d & Hd & Hlt & Hmin).
    exists d. split; [exact Hd |]. split; [exact Hlt |].
    intros [| j] d' Hj Hd'.
    + simpl in Hd'. inversion Hd'. subst d'. apply Qltb_ge. exact Hx.
    + apply (Hmin j d'); [lia | exact Hd'].
Qed.

Section TraceOutcome.

Context (fuel : nat).
Context (dens_cutoff : Q) (maxima cart_sphere_pt : vec) (other_maximas : list vec)
        (bnd_err iso_val : Q) (beta_sphere_maxima : option Q)
        (beta_sphere_others : option (list Q)).

Lemma first_below_watershed (y_val : vec) (k : nat) :
  first_below (1 # 10) (dist_to_others E other_maximas y_val) = Some k ->
  watershed_of E other_maximas y_val (k + 1).
Proof.
  intros H. apply first_below_spec in H. destruct H as (d & Hd & Hlt & Hmin).
  unfold dist_to_others in Hd. rewrite lookup_map in Hd.
  destruct (other_maximas !! k) as [m |] eqn:Hm; [| discriminate].
  simpl in Hd. inversion Hd. subst d.
  exists k, m. split; [reflexivity |]. split; [exact Hm |]. split; [exact Hlt |].
  intros j m' Hj Hm'. apply (Hmin j); [exact Hj |].
  unfold dist_to_others. rewrite lookup_map, Hm'. reflexivity.
Qed.

Lemma on_basin_switch_found ray ss_ray i_ray y_val log bnd_pt basin_id log' :
  on_basin_switch E maxima bnd_err ray ss_ray i_ray (dist_to_others E other_maximas y_val) log
  = (Ret (FoundWatershed bnd_pt basin_id), log') ->
  watershed_of E other_maximas y_val basin_id.
Proof.
  unfold on_basin_switch. intros H. bind_inv H. bind_inv H.
  destruct (Qltb _ bnd_err).
  - destruct (first_below _ _) as [k |] eqn:Hk; [| discriminate].
    inversion H. subst. apply first_below_watershed. exact Hk.
  - destruct ss_ray; [| discriminate]. bind_inv H. discriminate.
Qed.

Lemma ray_iter_found rad_pts ray ray_density ss_ray i_ray pt log bnd_pt basin_id log' :
  ray_iter E fuel dens_cutoff maxima other_maximas bnd_err beta_sphere_maxima
           beta_sphere_others rad_pts ray ray_density ss_ray i_ray pt log
  = (Ret (Some (FoundWatershed bnd_pt basin_id)), log') ->
  exists y_val, watershed_of E other_maximas y_val basin_id.
Proof.
  unfold ray_iter. intros H. bind_inv H.
  destruct (Qgtb _ _); [| discriminate].
  bind_inv H. bind_inv H. bind_inv H.
  destruct (near_other_maxima _ _); [| discriminate].
  bind_inv H. inversion H. subst. exists a2.
  eapply on_basin_switch_found; eauto.
Qed.

Lemma ray_loop_found rad_pts ray ray_density ss_ray todo :
  forall flag log bnd_pt basin_id log',
    ray_loop E fuel dens_cutoff maxima other_maximas bnd_err beta_sphere_maxima
             beta_sphere_others rad_pts ray ray_density ss_ray todo flag log
    = (Ret (Broke (FoundWatershed bnd_pt basin_id)), log') ->
    exists y_val, watershed_of E other_maximas y_val basin_id.
Proof.
  induction todo as [| [i_ray pt] todo IH]; intros flag log bnd_pt basin_id log' H.
  - discriminate.
  - simpl in H. bind_inv H. destruct a as [b |].
    + inversion H. subst. eapply ray_iter_found; eauto.
    + eapply IH; eauto.
Qed.

Lemma trace_loop_outcome n :
  forall rad_pts ss_ray log res log',
    trace_loop E fuel dens_cutoff maxima cart_sphere_pt other_maximas bnd_err iso_val
               beta_sphere_maxima beta_sphere_others n rad_pts ss_ray log = (Ret res, log') ->
    (exists p id y_val, res = mk_trace_result (Some p) false None true (Some id)
                        /\ watershed_of E other_maximas y_val id)
    \/ (exists idx, res = ray_to_inf_result idx).
Proof.
  induction n as [| n IH]; intros rad_pts ss_ray log res log' H; [discriminate |].
  simpl in H. bind_inv H. bind_inv H. bind_inv H. bind_inv H.
  destruct a2 as [[bnd_pt basin_id | rad_pts' ss_ray' | i] | []].
  - inversion H. left. apply ray_loop_found in Hm2. destruct Hm2 as [y Hy]. eauto 6.
  - eapply IH; eauto.
  - bind_inv H. inversion H. right. eauto.
  - bind_inv H. inversion H. right. eauto.
  - eapply IH; eauto.
Qed.

(** Where a watershed comes from, step by step. *)

Lemma on_basin_switch_midpoint ray ss_ray i_ray dist_maxima log bnd_pt basin_id log' :
  on_basin_switch E maxima bnd_err ray ss_ray i_ray dist_maxima log
  = (Ret (FoundWatershed bnd_pt basin_id), log') ->
  exists cur prev,
    ray !! i_ray = Some cur
    /\ fst (py_index ray (Z.of_nat i_ray - 1) []) = Ret prev
    /\ norm E (vsub cur prev) < bnd_err
    /\ bnd_pt = vdiv (vadd cur prev) 2.
Proof.
  unfold on_basin_switch. intros H. bind_inv H. bind_inv H.
  apply py_index_nat_inv in Hm. destruct Hm as [Hcur _].
  rewrite (silent_py_index ray (Z.of_nat i_ray - 1) log0) in Hm0.
  destruct (Qltb _ bnd_err) eqn:Hd.
  - destruct (first_below _ _) as [k |]; [| discriminate].
    inversion H. subst. exists a, a0.
    split; [exact Hcur |]. split; [inversion Hm0; reflexivity |].
    split; [apply Qltb_lt; exact Hd | reflexivity].
  - destruct ss_ray; [| discriminate]. bind_inv H. discriminate.
Qed.

Lemma ray_iter_watershed rad_pts ray ray_density ss_ray i_ray pt log bnd_pt basin_id log' :
  ray_iter E fuel dens_cutoff maxima other_maximas bnd_err beta_sphere_maxima
           beta_sphere_others rad_pts ray ray_density ss_ray i_ray pt log
  = (Ret (Some (FoundWatershed bnd_pt basin_id)), log') ->
  exists dens r cur prev y_val log1 log2,
    ray_density !! i_ray = Some dens /\ dens_cutoff < dens
    /\ rad_pts !! i_ray = Some r
    /\ gradient_path E fuel pt (0, py_max (1000 * r) 75) LSODA 50 200 10 (1 # 1000)
                     beta_sphere_maxima (Some maxima) log1 = (Ret (Some y_val), log2)
    /\ near_other_maxima beta_sphere_others (dist_to_others E other_maximas y_val) = true
    /\ watershed_of E other_maximas y_val basin_id
    /\ ray !! i_ray = Some cur
    /\ fst (py_index ray (Z.of_nat i_ray - 1) []) = Ret prev
    /\ norm E (vsub cur prev) < bnd_err
    /\ bnd_pt = vdiv (vadd cur prev) 2.
Proof.
  unfold ray_iter. intros H. bind_inv H.
  apply py_index_nat_inv in Hm. destruct Hm as [Hdens ->].
  destruct (Qgtb a dens_cutoff) eqn:Hcut; [| discriminate].
  bind_inv H. apply py_index_nat_inv in Hm. destruct Hm as [Hr ->].
  bind_inv H. bind_inv H.
  destruct a1 as [y |]; [| discriminate]. inversion Hm0. subst a2 log1.
  destruct (near_other_maxima _ _) eqn:Hnear; [| discriminate].
  bind_inv H. inversion H. subst a1.
  pose proof (on_basin_switch_found _ _ _ _ _ _ _ _ Hm1) as Hw.
  destruct (on_basin_switch_midpoint _ _ _ _ _ _ _ _ Hm1) as (cur & prev & Hc & Hp & Hd & Hb).
  exists a, a0, cur, prev, y, log, log0.
  split; [exact Hdens |]. split; [apply Qgtb_gt; exact Hcut |]. split; [exact Hr |].
  split; [exact Hm |]. split; [exact Hnear |]. split; [exact Hw |]. auto.
Qed.

Lemma ray_loop_watershed rad_pts ray ray_density ss_ray todo :
  forall flag log bnd_pt basin_id log',
    ray_loop E fuel dens_cutoff maxima other_maximas bnd_err beta_sphere_maxima
             beta_sphere_others rad_pts ray ray_density ss_ray todo flag log
    = (Ret (Broke (FoundWatershed bnd_pt basin_id)), log') ->
    exists i_ray pt l1 l2,
      In (i_ray, pt) todo
      /\ ray_iter E fuel dens_cutoff maxima other_maximas bnd_err beta_sphere_maxima
                  beta_sphere_others rad_pts ray ray_density ss_ray i_ray pt l1
         = (Ret (Some (FoundWatershed bnd_pt basin_id)), l2).
Proof.
  induction todo as [| [i_ray pt] todo IH]; intros flag log bnd_pt basin_id log' H.
  - discriminate.
  - simpl in H. bind_inv H. destruct a as [b |].
    + inversion H. subst. do 4 eexists. split; [left; reflexivity | exact Hm].
    + destruct (IH _ _ _ _ _ H) as (i & p & l1 & l2 & Hin & Hit).
      exists i, p, l1, l2. split; [right; exact Hin | exact Hit].
Qed.

Lemma in_combine_seq {A : Type} (l : list A) :
  forall s i x, In (i, x) (combine (seq s (length l)) l) ->
                exists k, i = (s + k)%nat /\ l !! k = Some x.
Proof.
  induction l as [| y l IH]; intros s i x Hin; [destruct Hin |].
  simpl in Hin. destruct Hin as [Heq | Hin].
  - inversion Heq. subst. exists 0%nat. split; [lia | reflexivity].
  - destruct (IH _ _ _ Hin) as (k & -> & Hk). exists (S k). split; [lia | exact Hk].
Qed.

Lemma trace_loop_kinds n :
  forall rad_pts ss_ray log res log',
    trace_loop E fuel dens_cutoff maxima cart_sphere_pt other_maximas bnd_err iso_val
               beta_sphere_maxima beta_sphere_others n rad_pts ss_ray log = (Ret res, log') ->
    (exists g bnd_pt basin_id,
        res = mk_trace_result (Some bnd_pt) false None true (Some basin_id)
        /\ last_pass_on E maxima cart_sphere_pt g log'
        /\ watershed_found E fuel dens_cutoff maxima cart_sphere_pt other_maximas bnd_err
                           beta_sphere_maxima beta_sphere_others g bnd_pt basin_id)
    \/ (exists g index_iso r_i,
           res = ray_to_inf_result index_iso
           /\ last_pass_on E maxima cart_sphere_pt g log'
           /\ g !! index_iso = Some r_i
           /\ forall r_k, In r_k g ->
                iso_gap E maxima cart_sphere_pt iso_val r_i
                <= iso_gap E maxima cart_sphere_pt iso_val r_k).
Proof.
  induction n as [| n IH]; intros rad_pts ss_ray log res log' H; [discriminate |].
  simpl in H.
  apply bind_Ret_inv in H. destruct H as [ray_density [log1 [Hd H]]].
  unfold density_on in Hd. run_comp in Hd. inversion Hd. subst ray_density log1. clear Hd.
  apply bind_Ret_inv in H. destruct H as [p0 [log2 [H0 H]]].
  apply (silent_log _ _ _ _ (silent_py_index _ _)) in H0. subst log2.
  apply bind_Ret_inv in H. destruct H as [p1 [log2 [H1 H]]].
  apply (silent_log _ _ _ _ (silent_py_index _ _)) in H1. subst log2.
  apply bind_Ret_inv in H. destruct H as [scan [log2 [Hs H]]].
  assert (Hin : last_pass_on E maxima cart_sphere_pt rad_pts log2).
  { destruct (emits_only_ray_loop _ _ _ _ _ _ _ _ _ _ _ _ _ _ _ _ Hs) as [new [-> Hnew]].
    exists log, new. rewrite <- app_assoc. split; [reflexivity | exact Hnew]. }
  assert (Hfin : forall idx l3,
             closest_to_iso iso_val
               (map (density_func E)
                    (map (fun r => ray_point maxima r cart_sphere_pt) rad_pts)) log2
             = (Ret idx, l3) ->
             ret (ray_to_inf_result idx) l3 = (Ret res, log') ->
             exists g index_iso r_i,
               res = ray_to_inf_result index_iso
               /\ last_pass_on E maxima cart_sphere_pt g log'
               /\ g !! index_iso = Some r_i
               /\ forall r_k, In r_k g ->
                    iso_gap E maxima cart_sphere_pt iso_val r_i
                    <= iso_gap E maxima cart_sphere_pt iso_val r_k).
  { intros idx l3 Hc Hret. inversion Hret. subst.
    pose proof (silent_log _ _ _ _ (silent_argsort_first _) Hc) as ->.
    destruct (closest_to_iso_spec _ _ _ _ _ _ _ Hc) as [r_i [Hi Hmin]].
    exists rad_pts, idx, r_i. auto. }
  destruct scan as [[bnd_pt basin_id | rad_pts' ss_ray' | i] | []].
  - inversion H. subst res log'. left. exists rad_pts, bnd_pt, basin_id.
    split; [reflexivity |]. split; [exact Hin |].
    apply ray_loop_watershed in Hs. destruct Hs as (i_ray & pt & l1 & l2 & Hpt & Hit).
    apply ray_iter_watershed in Hit.
    destruct Hit as (dens & r & cur & prev & y & la & lb & Hdens & Hcut & Hr & Hg & Hnear
                     & Hw & Hcur & Hprev & Hdist & Hmid).
    unfold enumerate in Hpt. apply in_combine_seq in Hpt.
    destruct Hpt as (k & Hk & Hpt). simpl in Hk. subst k.
    rewrite Hpt in Hcur. inversion Hcur. subst cur.
    rewrite lookup_map, Hr in Hpt. simpl in Hpt. inversion Hpt. subst pt.
    rewrite !lookup_map, Hr in Hdens. simpl in Hdens. inversion Hdens. subst dens.
    exists i_ray, r, prev, y, la, lb. cbv zeta. auto 10.
  - eapply IH; eauto.
  - right. apply bind_Ret_inv in H. destruct H as [idx [l3 [Hc Hret]]]. eapply Hfin; eauto.
  - right. apply bind_Ret_inv in H. destruct H as [idx [l3 [Hc Hret]]]. eapply Hfin; eauto.
  - eapply IH; eauto.
Qed.

End TraceOutcome.

(** X6.  What [solve_for_basin_bnd_pt] returns is of one of two kinds, and
    each is tied to the last pass over the ray, on a radial grid [g] on
    whose ray the density was last evaluated.  Either a watershed was
    found: some sample of that ray has a density above the cutoff; the
    gradient path that the code follows from it, over the horizon
    (0, max(1000 r, 75)) with [max_step] 50, returned a point within 1e-1
    of another maximum or inside its beta sphere; the neighbour id is one
    more than the position, among the other maxima, of the first one within
    1e-1 of that point, hence between 1 and their number; the sample
    [ray[i_ray - 1]] is closer than [bnd_err] to the sample; and the
    boundary point is the midpoint of the two.  Or the ray goes to
    infinity: the index returned is a position of [g], that of a sample
    whose density is closest to [iso_val], and there is neither a boundary
    point nor a neighbour id. *)
Theorem basin_bnd_pt_result_kinds
    (fuel : nat) (dens_cutoff : Q) (maxima cart_sphere_pt : vec) (other_maximas : list vec)
    (bnd_err iso_val : Q) (beta_sphere_maxima : option Q)
    (beta_sphere_others : option (list Q)) (radial : list Q) log res log' :
  solve_for_basin_bnd_pt E fuel dens_cutoff maxima cart_sphere_pt other_maximas bnd_err
                         iso_val beta_sphere_maxima beta_sphere_others radial log
  = (Ret res, log') ->
  (exists g bnd_pt basin_id,
      res = mk_trace_result (Some bnd_pt) false None true (Some basin_id)
      /\ (1 <= basin_id <= length other_maximas)%nat
      /\ last_pass_on E maxima cart_sphere_pt g log'
      /\ watershed_found E fuel dens_cutoff maxima cart_sphere_pt other_maximas bnd_err
                         beta_sphere_maxima beta_sphere_others g bnd_pt basin_id)
  \/ (exists g index_iso r_i,
         res = mk_trace_result None true (Some (Z.of_nat index_iso)) false None
         /\ last_pass_on E maxima cart_sphere_pt g log'
         /\ g !! index_iso = Some r_i
         /\ forall r_k, In r_k g ->
              iso_gap E maxima cart_sphere_pt iso_val r_i
              <= iso_gap E maxima cart_sphere_pt iso_val r_k).
Proof.
  intros H. unfold solve_for_basin_bnd_pt in H. apply trace_loop_kinds in H.
  destruct H as [(g & p & id & -> & Hlast & Hw) | (g & idx & r_i & -> & Hrest)].
  - left. exists g, p, id. split; [reflexivity |]. split; [| split; [exact Hlast | exact Hw]].
    destruct Hw as (i_ray & r & prev & y & l1 & l2 & _ & _ & _ & _ & Hid & _).
    destruct Hid as (k & m & -> & Hm & _). apply lookup_lt_Some in Hm. lia.
  - right. exists g, idx, r_i. split; [reflexivity | exact Hrest].
Qed.

(** X7.  With no other maximum no watershed can be found: a ray that is
    resolved at all goes to infinity. *)
Theorem basin_bnd_pt_isolated_maximum
    (fuel : nat) (dens_cutoff : Q) (maxima cart_sphere_pt : vec)
    (bnd_err iso_val : Q) (beta_sphere_maxima : option Q)
    (beta_sphere_others : option (list Q)) (radial : list Q) log res log' :
  solve_for_basin_bnd_pt E fuel dens_cutoff maxima cart_sphere_pt [] bnd_err
                         iso_val beta_sphere_maxima beta_sphere_others radial log
  = (Ret res, log') ->
  tr_is_ray_to_inf res = true /\ tr_found_watershed_on_ray res = false
  /\ tr_bnd_pt res = None /\ tr_basin_id res = None.
Proof.
  intros H. unfold solve_for_basin_bnd_pt in H. apply trace_loop_outcome in H.
  destruct H as [(p & id & y & -> & (k & m & _ & Hm & _)) | [idx ->]].
  - discriminate.
  - simpl. auto.
Qed.

(** An empty radial grid is not traced: the density is evaluated on
    the empty ray and the first subscript of the ray raises [IndexError]. *)
Lemma basin_bnd_pt_empty_grid
    (fuel : nat) (dens_cutoff : Q) (maxima cart_sphere_pt : vec) (other_maximas : list vec)
    (bnd_err iso_val : Q) (beta_sphere_maxima : option Q)
    (beta_sphere_others : option (list Q)) log :
  solve_for_basin_bnd_pt E (S fuel) dens_cutoff maxima cart_sphere_pt other_maximas bnd_err
                         iso_val beta_sphere_maxima beta_sphere_others [] log
  = (Raise IndexError, log ++ [CallDensity []]).
Proof. reflexivity. Qed.

(** X8.  When the density at the first radius is not above the cutoff, the
    ray is classified as going to infinity at once: the density has been
    evaluated on the ray, the ODE solver has not been called, and the index
    returned is that of the sample whose density is closest to [iso_val]. *)
Theorem basin_bnd_pt_first_sample_at_cutoff
    (fuel : nat) (dens_cutoff : Q) (maxima cart_sphere_pt : vec) (other_maximas : list vec)
    (bnd_err iso_val : Q) (beta_sphere_maxima : option Q)
    (beta_sphere_others : option (list Q)) (r0 : Q) (rest : list Q) log :
  density_func E (ray_point maxima r0 cart_sphere_pt) <= dens_cutoff ->
  let ray := map (fun r => ray_point maxima r cart_sphere_pt) (r0 :: rest) in
  exists index_iso r_i,
    solve_for_basin_bnd_pt E (S fuel) dens_cutoff maxima cart_sphere_pt other_maximas bnd_err
                           iso_val beta_sphere_maxima beta_sphere_others (r0 :: rest) log
    = (Ret (ray_to_inf_result index_iso), log ++ [CallDensity ray])
    /\ (r0 :: rest) !! index_iso = Some r_i
    /\ forall r_k, In r_k (r0 :: rest) ->
         iso_gap E maxima cart_sphere_pt iso_val r_i
         <= iso_gap E maxima cart_sphere_pt iso_val r_k.
Proof.
  intros Hd ray.
  destruct (closest_to_iso iso_val (map (density_func E) ray) (log ++ [CallDensity ray]))
    as [[idx | e |] l3] eqn:Hc.
  2, 3: (unfold closest_to_iso in Hc; simpl in Hc; discriminate).
  pose proof (silent_log _ _ _ _ (silent_argsort_first _) Hc) as ->.
  destruct (closest_to_iso_spec maxima cart_sphere_pt iso_val (r0 :: rest) idx _ _ Hc)
    as [r_i [Hi Hmin]].
  exists idx, r_i. split; [| split; [exact Hi | exact Hmin]].
  unfold solve_for_basin_bnd_pt. cbn [trace_loop]. fold ray.
  rewrite (bind_Ret_intro _ _ log (map (density_func E) ray) (log ++ [CallDensity ray]))
    by reflexivity.
  rewrite (bind_Ret_intro _ _ _ (ray_point maxima r0 cart_sphere_pt)
                          (log ++ [CallDensity ray])) by reflexivity.
  destruct (py_index_last ray (log ++ [CallDensity ray])) as [q Hq];
    [subst ray; discriminate |].
  rewrite (bind_Ret_intro _ _ _ q (log ++ [CallDensity ray])) by exact Hq.
  rewrite (bind_Ret_intro _ _ _ (Broke (BelowCutoff 0)) (log ++ [CallDensity ray])).
  2: { subst ray. cbn [map enumerate length seq combine ray_loop].
       erewrite (bind_Ret_intro _ _ _ (Some (BelowCutoff 0))); [reflexivity |].
       unfold ray_iter.
       erewrite (bind_Ret_intro _ _ _ (density_func E (ray_point maxima r0 cart_sphere_pt)));
         [| reflexivity].
       apply Qltb_ge in Hd. unfold Qgtb. rewrite Hd. reflexivity. }
  rewrite (bind_Ret_intro _ _ _ _ _ Hc). reflexivity.
Qed.

(** ** Basin switches at the ends of what the tracer expects *)

Lemma first_below_none (c : Q) (a : list Q) :
  (forall d, In d a -> c <= d) -> first_below c a = None.
Proof.
  induction a as [| x a IH]; intros H; [reflexivity |].
  simpl. assert (Hx : Qltb x c = false) by (apply Qltb_ge, H; left; reflexivity).
  rewrite Hx, IH; [reflexivity |]. intros d Hd. apply H. right. exact Hd.
Qed.

Section SwitchEdges.

Context (fuel : nat).
Context (dens_cutoff : Q) (maxima : vec) (other_maximas : list vec)
        (bnd_err : Q) (beta_sphere_maxima : option Q)
        (beta_sphere_others : option (list Q)).

Lemma ray_iter_switch rad_pts ray ray_density ss_ray i_ray pt dens r y_val log log1 :
  ray_density !! i_ray = Some dens -> rad_pts !! i_ray = Some r ->
  dens_cutoff < dens ->
  gradient_path E fuel pt (0, py_max (1000 * r) 75) LSODA 50 200 10 (1 # 1000)
                beta_sphere_maxima (Some maxima) log = (Ret (Some y_val), log1) ->
  near_other_maxima beta_sphere_others (dist_to_others E other_maximas y_val) = true ->
  ray_iter E fuel dens_cutoff maxima other_maximas bnd_err beta_sphere_maxima
           beta_sphere_others rad_pts ray ray_density ss_ray i_ray pt log
  = bind (on_basin_switch E maxima bnd_err ray ss_ray i_ray
                          (dist_to_others E other_maximas y_val))
         (fun b => ret (Some b)) log1.
Proof.
  intros Hd Hr Hcut Hg Hnear. unfold ray_iter.
  rewrite (bind_Ret_intro _ _ log dens log) by (apply py_index_nat; exact Hd).
  apply Qgtb_gt in Hcut. rewrite Hcut.
  rewrite (bind_Ret_intro _ _ log r log) by (apply py_index_nat; exact Hr).
  rewrite (bind_Ret_intro _ _ log (Some y_val) log1) by exact Hg.
  rewrite (bind_Ret_intro _ _ log1 y_val log1) by reflexivity.
  cbv zeta. rewrite Hnear. reflexivity.
Qed.

(** X9.  A basin switch at the first sample of a ray has no previous
    sample: [ray[i_ray - 1]] is [ray[-1]], the last sample of the ray.  The
    distance that is compared with [bnd_err] is the one between the first
    and the last sample, and a watershed, if resolved, is put at their
    midpoint.  Otherwise the refined grid starts at 1e-3 and runs up to the
    distance of the first sample from the maximum. *)
Theorem basin_switch_at_first_sample
    (rad_pts : list Q) (c0 : vec) (rest : list vec) (ray_density : list Q) (ss_ray : option Q)
    (pt : vec) (dens r : Q) (y_val : vec) log log1 :
  ray_density !! 0%nat = Some dens -> rad_pts !! 0%nat = Some r ->
  dens_cutoff < dens ->
  gradient_path E fuel pt (0, py_max (1000 * r) 75) LSODA 50 200 10 (1 # 1000)
                beta_sphere_maxima (Some maxima) log = (Ret (Some y_val), log1) ->
  near_other_maxima beta_sphere_others (dist_to_others E other_maximas y_val) = true ->
  let prev := List.last (c0 :: rest) c0 in
  let dist := norm E (vsub c0 prev) in
  let step := ray_iter E fuel dens_cutoff maxima other_maximas bnd_err beta_sphere_maxima
                       beta_sphere_others rad_pts (c0 :: rest) ray_density ss_ray 0 pt log in
  (dist < bnd_err ->
   forall k, first_below (1 # 10) (dist_to_others E other_maximas y_val) = Some k ->
     step = (Ret (Some (FoundWatershed (vdiv (vadd c0 prev) 2) (k + 1))), log1))
  /\ (bnd_err <= dist ->
      forall ss, ss_ray = Some ss -> ~ ss == 0 ->
        step = (Ret (Some (RefineRay
                             (arange_values (1 # 1000)
                                            (norm E (vsub c0 maxima) + ss / 10) (ss / 10))
                             (Some (ss / 10)))), log1)).
Proof.
  intros Hd Hr Hcut Hg Hnear prev dist step.
  assert (Hstep : step = bind (on_basin_switch E maxima bnd_err (c0 :: rest) ss_ray 0
                                               (dist_to_others E other_maximas y_val))
                              (fun b => ret (Some b)) log1)
    by (subst step; eapply ray_iter_switch; eauto).
  assert (Hsw : on_basin_switch E maxima bnd_err (c0 :: rest) ss_ray 0
                                (dist_to_others E other_maximas y_val) log1
                = (if Qltb dist bnd_err then
                     match first_below (1 # 10) (dist_to_others E other_maximas y_val) with
                     | None => raise IndexError
                     | Some j => ret (FoundWatershed (vdiv (vadd c0 prev) 2) (j + 1))
                     end
                   else
                     match ss_ray with
                     | None => raise ValueError_arange
                     | Some ss =>
                       bind (np_arange (1 # 1000) (norm E (vsub c0 maxima) + ss / 10)
                                       (ss / 10))
                            (fun g => ret (RefineRay g (Some (ss / 10))))
                     end) log1).
  { unfold on_basin_switch.
    rewrite (bind_Ret_intro _ _ log1 c0 log1)
      by (apply (py_index_nat (c0 :: rest) 0); reflexivity).
    change (Z.of_nat 0 - 1)%Z with (-1)%Z.
    rewrite (bind_Ret_intro _ _ log1 prev log1) by apply py_index_minus_one.
    reflexivity. }
  rewrite Hstep. split.
  - intros Hlt k Hk. unfold bind at 1. rewrite Hsw.
    apply Qltb_lt in Hlt. rewrite Hlt, Hk. reflexivity.
  - intros Hge ss -> Hss. unfold bind at 1. rewrite Hsw.
    apply Qltb_ge in Hge. rewrite Hge.
    unfold np_arange.
    destruct (Qeq_bool (ss / 10) 0) eqn:H0.
    + exfalso. apply Qeq_bool_iff in H0. apply Hss.
      assert (ss == ss / 10 * 10) as -> by field. rewrite H0. ring.
    + reflexivity.
Qed.

(** X10.  A basin switch that is detected through the beta sphere of
    another maximum only, the end of the gradient path being 1e-1 or more
    away from every other maximum, cannot be resolved: once two consecutive
    samples are closer than [bnd_err], the search for the maximum within
    1e-1 finds none and the first subscript of its empty result raises
    [IndexError]. *)
Theorem basin_switch_by_beta_sphere_alone_raises
    (rad_pts : list Q) (ray : list vec) (ray_density : list Q) (ss_ray : option Q)
    (i_ray : nat) (pt cur prev : vec) (dens r : Q) (y_val : vec) log log1 :
  (1 <= i_ray)%nat ->
  ray !! i_ray = Some cur -> ray !! (i_ray - 1)%nat = Some prev ->
  ray_density !! i_ray = Some dens -> rad_pts !! i_ray = Some r ->
  dens_cutoff < dens ->
  gradient_path E fuel pt (0, py_max (1000 * r) 75) LSODA 50 200 10 (1 # 1000)
                beta_sphere_maxima (Some maxima) log = (Ret (Some y_val), log1) ->
  (forall m, In m other_maximas -> 1 # 10 <= norm E (vsub y_val m)) ->
  near_other_maxima beta_sphere_others (dist_to_others E other_maximas y_val) = true ->
  norm E (vsub cur prev) < bnd_err ->
  ray_iter E fuel dens_cutoff maxima other_maximas bnd_err beta_sphere_maxima
           beta_sphere_others rad_pts ray ray_density ss_ray i_ray pt log
  = (Raise IndexError, log1).
Proof.
  intros Hi Hc Hp Hd Hr Hcut Hg Hfar Hnear Hlt.
  rewrite (ray_iter_switch _ _ _ _ _ _ _ _ _ _ _ Hd Hr Hcut Hg Hnear).
  apply bind_Raise_intro. unfold on_basin_switch.
  rewrite (bind_Ret_intro _ _ log1 cur log1) by (apply py_index_nat; exact Hc).
  replace (Z.of_nat i_ray - 1)%Z with (Z.of_nat (i_ray - 1)) by lia.
  rewrite (bind_Ret_intro _ _ log1 prev log1) by (apply py_index_nat; exact Hp).
  apply Qltb_lt in Hlt. rewrite Hlt.
  rewrite first_below_none; [reflexivity |].
  intros d Hd'. unfold dist_to_others in Hd'. apply in_map_iff in Hd'.
  destruct Hd' as (m & <- & Hm). apply Hfar. exact Hm.
Qed.

End SwitchEdges.

(** ** Invariants of the driver *)

Lemma for_each_inv {A S : Type} (I : S -> Prop) (body : A -> S -> M S) (xs : list A) :
  (forall x s log s' log', In x xs -> body x s log = (Ret s', log') -> I s -> I s') ->
  forall s log s' log', for_each xs body s log = (Ret s', log') -> I s -> I s'.
Proof.
  induction xs as [| x xs IH]; intros Hb s log s' log' H Hs.
  - simpl in H. inversion H. subst. exact Hs.
  - apply for_each_cons_inv in H. destruct H as (s1 & log1 & H1 & H2).
    eapply IH; [| exact H2 |].
    + intros y s0 l s0' l' Hy. apply Hb. right. exact Hy.
    + eapply Hb; [left; reflexivity | exact H1 | exact Hs].
Qed.

Lemma Forall_alter_app {A : Type} (P : A -> Prop) (l : list (list A)) (i : nat)
    (new : list A) :
  Forall (Forall P) l -> Forall P new ->
  Forall (Forall P) (alter (fun x => x ++ new) i l).
Proof.
  intros Hl Hn. apply Forall_alter; [exact Hl |].
  intros x _ Hx. apply Forall_app. split; assumption.
Qed.

Section DriverInvariant.

Context (Pr : Q -> Prop).
Hypothesis Pr_zero : Pr 0.
Hypothesis Pr_norm : forall v, Pr (norm E v).

Context (fuel : nat) (self : qtaim_args -> M SurfaceQTAIM) (a : qtaim_args).

Hypothesis self_inv :
  forall a' log s log', self a' log = (Ret s, log') -> surface_inv Pr a' s.

Lemma trace_direction_inv angular_pts i_maxima maxima other_maximas beta_sph_max
    other_beta_sph i_ang st log st' log' :
  trace_direction E fuel a angular_pts i_maxima maxima other_maximas beta_sph_max
                  other_beta_sph i_ang st log = (Ret st', log') ->
  state_inv Pr (S (length other_maximas)) st ->
  state_inv Pr (S (length other_maximas)) st'.
Proof.
  unfold trace_direction. intros H [Hr Hb].
  bind_inv H. bind_inv H. bind_inv H.
  assert (Hrow : forall p, Forall (Forall Pr)
                   (alter (fun row => <[i_ang := norm E (vsub p maxima)]> row) i_maxima
                          (st_r_func st))).
  { intros p. apply Forall_alter; [exact Hr |].
    intros row _ Hrow. apply Forall_insert; [exact Hrow | apply Pr_norm]. }
  unfold solve_for_basin_bnd_pt in Hm1. apply trace_loop_outcome in Hm1.
  destruct Hm1 as [(p & id & y & -> & Hw) | [idx ->]]; simpl in H.
  - bind_inv H. inversion Hm1. subst. bind_inv H. inversion Hm2. subst.
    inversion H. split; simpl; [apply Hrow |].
    apply Forall_alter_app; [exact Hb |]. constructor; [| constructor].
    destruct Hw as (k & m & -> & Hkm & _). apply lookup_lt_Some in Hkm.
    exists (k + 1)%nat. split; [reflexivity | lia].
  - bind_inv H. bind_inv H. inversion H. split; simpl; [apply Hrow | exact Hb].
Qed.

Lemma refine_basin_inv maximas angular_pts numb_ang_pts i_maxima maxima st log st' log' :
  refine_basin E self a maximas angular_pts numb_ang_pts i_maxima maxima st log
  = (Ret st', log') ->
  state_inv Pr (length maximas) st -> state_inv Pr (length maximas) st'.
Proof.
  unfold refine_basin. intros H [Hr Hb].
  bind_inv H. bind_inv H. bind_inv H. bind_inv H. bind_inv H.
  bind_inv H. bind_inv H. bind_inv H. bind_inv H. bind_inv H.
  inversion H. subst st'. clear H.
  apply self_inv in Hm3. destruct Hm3 as (Sr & Sb & Sm & _). simpl in Sm.
  rewrite (Sm eq_refl) in Sb.
  apply py_index_nat_inv in Hm6. unfold r_func_row in Hm8. apply py_index_nat_inv in Hm8.
  destruct Hm6 as [Hba _], Hm8 as [Hra _].
  split; simpl.
  - apply Forall_alter_app; [exact Hr |].
    rewrite Forall_lookup in Sr. eapply Sr; eauto.
  - apply Forall_alter_app; [exact Hb |].
    rewrite Forall_lookup in Sb. eapply Sb; eauto.
Qed.

Lemma trace_basin_inv maximas angular_pts numb_ang_pts i_maxima maxima st log st' log' :
  (i_maxima < length maximas)%nat ->
  trace_basin E fuel self a maximas angular_pts numb_ang_pts (i_maxima, maxima) st log
  = (Ret st', log') ->
  state_inv Pr (length maximas) st -> state_inv Pr (length maximas) st'.
Proof.
  intros Hi H Hst. unfold trace_basin in H.
  destruct (in_maxima_to_do (refine a) i_maxima).
  - bind_inv H. destruct a0 as [beta_sph_max other_beta_sph]. bind_inv H.
    assert (Hlen : length maximas = S (length (delete i_maxima maximas))).
    { rewrite length_delete by (apply lookup_lt_is_Some_2; exact Hi). lia. }
    assert (Hst1 : state_inv Pr (length maximas) a0).
    { rewrite Hlen. eapply for_each_inv; [| exact Hm0 | rewrite <- Hlen; exact Hst].
      intros k s l s' l' _ Hk. eapply trace_direction_inv; eauto. }
    destruct (refine_is_true (refine a)).
    + eapply refine_basin_inv; eauto.
    + inversion H. subst. exact Hst1.
  - inversion H. subst. exact Hst.
Qed.

Lemma in_enumerate {A : Type} (l : list A) (i : nat) (x : A) :
  In (i, x) (enumerate l) -> (i < length l)%nat.
Proof.
  unfold enumerate. intros H. apply in_combine_l in H. apply in_seq in H. lia.
Qed.

Lemma qtaim_surface_body_inv log s log' :
  qtaim_surface_body E fuel self a log = (Ret s, log') -> surface_inv Pr a s.
Proof.
  unfold qtaim_surface_body. destruct (config_error a); [discriminate |].
  intros H. bind_inv H. bind_inv H. bind_inv H. inversion H. subst s. clear H.
  assert (Hst : state_inv Pr (length a0) a2).
  { eapply for_each_inv; [| exact Hm1 |].
    - intros [i m] st l st' l' Hin Hb. eapply trace_basin_inv; [| exact Hb].
      eapply in_enumerate; eauto.
    - split; simpl; apply Forall_replicate.
      + apply Forall_replicate. exact Pr_zero.
      + constructor. }
  destruct Hst as [Hr Hb].
  unfold surface_inv. simpl.
  split; [exact Hr |]. split; [exact Hb |]. split; [| auto].
  intros Hopt. rewrite Hopt in Hm. inversion Hm. reflexivity.
Qed.

End DriverInvariant.

Lemma qtaim_surface_inv (Pr : Q -> Prop) (fuel depth : nat) :
  Pr 0 -> (forall v, Pr (norm E v)) ->
  forall a log s log',
    qtaim_surface E fuel depth a log = (Ret s, log') -> surface_inv Pr a s.
Proof.
  intros P0 Pn. induction depth as [| depth IH]; intros a log s log' H; [discriminate |].
  simpl in H. eapply qtaim_surface_body_inv; [exact P0 | exact Pn | | exact H].
  intros a' l s' l' H'. apply (IH _ _ _ _ H').
Qed.

(** X11.  Every neighbour id of a returned surface is a number between 1
    and the number of maxima less one: the position, counted from 1, of a
    maximum among the others.  No id is 0, none is missing, and none
    reaches the number of maxima; this holds for the entries added by the
    refinement as well. *)
Theorem neighbour_ids_in_range (fuel depth : nat) (a : qtaim_args) log s log'
    (i : nat) (b : list (option nat)) (id : option nat) :
  qtaim_surface E fuel depth a log = (Ret s, log') ->
  basins_ias s !! i = Some b -> In id b ->
  exists k, id = Some k /\ (1 <= k <= length (maximas s) - 1)%nat.
Proof.
  intros H Hb Hid.
  apply (qtaim_surface_inv (fun _ => True)) in H; [| exact I | intros; exact I].
  destruct H as (_ & Hids & _).
  rewrite Forall_lookup in Hids. specialize (Hids i b Hb).
  rewrite List.Forall_forall in Hids. destruct (Hids id Hid) as (k & -> & Hk).
  exists k. split; [reflexivity | lia].
Qed.

(** X12.  With a single maximum nothing is ever classified as IAS: in a
    returned surface the IAS list and the neighbour-id list of the basin
    are empty, and every direction of the basin is in its OAS list. *)
Theorem single_maximum_has_no_ias (fuel depth : nat) (a : qtaim_args) log s log'
    (row : list Q) (o ia : list nat) (b : list (option nat)) :
  qtaim_surface E fuel depth a log = (Ret s, log') ->
  length (maximas s) = 1%nat ->
  r_func_rows (r_func s) !! 0%nat = Some row -> oas s !! 0%nat = Some o ->
  ias s !! 0%nat = Some ia -> basins_ias s !! 0%nat = Some b ->
  ia = [] /\ b = []
  /\ (in_maxima_to_do (refine a) 0 = true -> Permutation o (seq 0 (length row))).
Proof.
  intros H Hone Hr Ho Hi Hb.
  pose proof H as Hinv.
  apply (qtaim_surface_inv (fun _ => True)) in Hinv; [| exact I | intros; exact I].
  destruct Hinv as (_ & Hids & _).
  rewrite Forall_lookup in Hids. specialize (Hids 0%nat b Hb). rewrite Hone in Hids.
  assert (Hbnil : b = []).
  { destruct b as [| id b]; [reflexivity |]. inversion Hids as [| ? ? Hid _].
    destruct Hid as (k & _ & Hk). lia. }
  apply qtaim_surface_ok in H. destruct H as [Hok _].
  specialize (Hok 0%nat row o ia b Hr Ho Hi Hb). unfold basin_classified in Hok.
  destruct (in_maxima_to_do (refine a) 0).
  - destruct Hok as (P & Lb & _). subst b. simpl in Lb.
    destruct ia; [| discriminate]. rewrite app_nil_r in P. auto.
  - destruct Hok as (_ & -> & -> & _). split; [reflexivity |].
    split; [reflexivity | discriminate].
Qed.

(** X13.  A returned surface keeps the radial grid of the call as the one
    entry of [rad_grids], whatever the number of maxima, keeps the
    [angular] argument as its angular descriptor, holds its radial function
    as a list with one array per maximum, and holds the centers as given
    when they are not optimized. *)
Theorem surface_records_arguments (fuel depth : nat) (a : qtaim_args) log s log' :
  qtaim_surface E fuel depth a log = (Ret s, log') ->
  rad_grids s = [rgrids a]
  /\ angular_degs s = angular a
  /\ (exists rows, r_func s = PyList rows /\ length rows = length (maximas s))
  /\ (optimize_centers a = false -> maximas s = centers a).
Proof.
  intros H. pose proof H as Hinv.
  apply (qtaim_surface_inv (fun _ => True)) in Hinv; [| exact I | intros; exact I].
  destruct Hinv as (_ & _ & Hm & Hg & Ha & Hl).
  apply qtaim_surface_ok in H. destruct H as [_ (L1 & _)].
  split; [exact Hg |]. split; [exact Ha |]. split; [| exact Hm].
  eexists. split; [exact Hl | exact L1].
Qed.

(** X14.  No integration grid can be obtained from a surface that
    [qtaim_surface] returned for an angular degree.  For basin 0 the atom
    grid is built on the radial grid of the call and the first subscript
    [r_func[i_basin, i_sph]] of the list raises [TypeError], provided the
    shells of the grid are not empty; for every other basin
    [rad_grids[i_basin]] raises [IndexError] before any grid is built. *)
Theorem atom_grid_unavailable_on_result (fuel depth : nat) (a : qtaim_args) log s log'
    (deg : Z) (m0 : vec) (i_basin : nat) log2 :
  qtaim_surface E fuel depth a log = (Ret s, log') ->
  angular a = AngDegree deg ->
  maximas s !! 0%nat = Some m0 ->
  (0 < ag_shell_size (AtomGrid E (rgrids a) deg m0))%nat ->
  get_atom_grid_over_basin E s 0 log2
  = (Raise TypeError_list_index, log2 ++ [CallAtomGrid (rgrids a) deg m0])
  /\ get_atom_grid_over_basin E s (S i_basin) log2 = (Raise IndexError, log2).
Proof.
  intros H Hdeg Hm0 Hshell.
  apply (qtaim_surface_inv (fun _ => True)) in H; [| exact I | intros; exact I].
  destruct H as (_ & _ & _ & Hg & Ha & Hl). rewrite Hdeg in Ha.
  unfold get_atom_grid_over_basin. rewrite Ha, Hg. split.
  - rewrite (bind_Ret_intro _ _ log2 (Some deg) log2) by reflexivity.
    rewrite (bind_Ret_intro _ _ log2 (rgrids a) log2) by reflexivity.
    rewrite (bind_Ret_intro _ _ log2 m0 log2) by (apply (py_index_nat _ 0); exact Hm0).
    rewrite (bind_Ret_intro _ _ log2 deg log2) by reflexivity.
    rewrite (bind_Ret_intro _ _ log2 tt (log2 ++ [CallAtomGrid (rgrids a) deg m0]))
      by reflexivity.
    cbv zeta. apply bind_Raise_intro.
    destruct (ag_shell_size (AtomGrid E (rgrids a) deg m0)) as [| n]; [lia |].
    simpl seq. cbn [for_each]. apply bind_Raise_intro.
    unfold mask_direction. apply bind_Raise_intro.
    unfold r_func_item. rewrite Hl. reflexivity.
  - rewrite (bind_Ret_intro _ _ log2 (Some deg) log2) by reflexivity.
    apply bind_Raise_intro. apply py_index_out_of_range. simpl. lia.
Qed.

(** ** The refinement directions of a returned surface *)

Section RefinedDirections.

Context (fuel : nat) (self : qtaim_args -> M SurfaceQTAIM) (a : qtaim_args).

Hypothesis self_ok :
  forall a' log s log', self a' log = (Ret s, log') -> surface_ok E a' s.

Lemma trace_direction_refined_ang angular_pts i_maxima maxima other_maximas beta_sph_max
    other_beta_sph i_ang st log st' log' :
  trace_direction E fuel a angular_pts i_maxima maxima other_maximas beta_sph_max
                  other_beta_sph i_ang st log = (Ret st', log') ->
  st_refined_ang st' = st_refined_ang st.
Proof.
  intros H. apply trace_direction_step in H. destruct H as [v -> | v id ->]; reflexivity.
Qed.

Lemma trace_basin_keeps_refined_ang maximas angular_pts numb_ang_pts im st log st' log' :
  refine_is_true (refine a) = false ->
  trace_basin E fuel self a maximas angular_pts numb_ang_pts im st log = (Ret st', log') ->
  st_refined_ang st' = st_refined_ang st.
Proof.
  intros Hrt H. destruct im as [i_maxima maxima]. unfold trace_basin in H.
  destruct (in_maxima_to_do (refine a) i_maxima).
  - bind_inv H. destruct a0 as [beta_sph_max other_beta_sph]. bind_inv H.
    rewrite Hrt in H. inversion H. subst.
    apply directions_loop in Hm0. destruct Hm0 as (o & ia & b & G & _).
    destruct G as (_ & _ & _ & _ & R & _). exact R.
  - inversion H. reflexivity.
Qed.

Lemma refine_basin_refined maximas angular_pts i_maxima maxima st log st' log' row :
  refine_basin E self a maximas angular_pts (length angular_pts) i_maxima maxima st log
  = (Ret st', log') ->
  st_r_func st !! i_maxima = Some row ->
  exists l new_pts extra_row,
    st_refined_ang st = Some l /\ st_refined_ang st' = Some (l ++ [new_pts])
    /\ st_r_func st' !! i_maxima = Some (row ++ extra_row)
    /\ length extra_row = length new_pts
    /\ length (st_r_func st') = length (st_r_func st)
    /\ forall j, j <> i_maxima -> st_r_func st' !! j = st_r_func st !! j.
Proof.
  unfold refine_basin. intros H Er.
  bind_inv H. bind_inv H. bind_inv H. bind_inv H. bind_inv H.
  bind_inv H. bind_inv H. bind_inv H. bind_inv H. bind_inv H.
  inversion H. subst st'. clear H.
  apply self_ok in Hm3.
  apply py_index_nat_inv in Hm4, Hm5, Hm6. unfold r_func_row in Hm8.
  apply py_index_nat_inv in Hm8.
  destruct Hm4 as [Hia _], Hm5 as [Hoa _], Hm6 as [Hba _], Hm8 as [Hra _].
  specialize (Hm3 i_maxima _ _ _ _ Hra Hoa Hia Hba).
  unfold basin_classified in Hm3. simpl in Hm3.
  rewrite Z.eqb_refl in Hm3. destruct Hm3 as (_ & _ & Lr').
  specialize (Lr' eq_refl). unfold angular_points in Lr'. simpl in Lr'.
  destruct (st_refined_ang st) as [l |] eqn:Hl; [| discriminate].
  inversion Hm7. subst.
  exists l, a3, a9. simpl.
  split; [reflexivity |]. split; [reflexivity |].
  split; [rewrite list_lookup_alter_eq, Er; reflexivity |].
  split; [exact Lr' |]. split; [apply length_alter |].
  intros j Hj. apply list_lookup_alter_ne. auto.
Qed.

Lemma trace_basin_refined maximas angular_pts i_maxima maxima st log st' log' l :
  refine a = RefineBool true ->
  trace_basin E fuel self a maximas angular_pts (length angular_pts) (i_maxima, maxima)
              st log = (Ret st', log') ->
  entry_initial (length angular_pts) st i_maxima ->
  st_refined_ang st = Some l ->
  exists new_pts row',
    st_refined_ang st' = Some (l ++ [new_pts])
    /\ st_r_func st' !! i_maxima = Some row'
    /\ length row' = (length angular_pts + length new_pts)%nat
    /\ length (st_r_func st') = length (st_r_func st)
    /\ forall j, j <> i_maxima -> st_r_func st' !! j = st_r_func st !! j.
Proof.
  intros Hrf H Hinit Hl. unfold trace_basin in H. rewrite Hrf in H. simpl in H.
  bind_inv H. destruct a0 as [beta_sph_max other_beta_sph]. bind_inv H.
  apply directions_loop in Hm0. destruct Hm0 as (o & ia & b & G & _).
  destruct G as (L1 & _ & _ & _ & R & F & _ & _ & _ & W).
  destruct Hinit as (Er & _). destruct (W _ Er) as (row1 & Hrow1 & Lrow1).
  rewrite length_replicate in Lrow1.
  destruct (refine_basin_refined _ _ _ _ _ _ _ _ _ H Hrow1)
    as (l1 & new_pts & extra & Hl1 & Hl' & Hrow' & Lext & Llen & Hother).
  rewrite R, Hl in Hl1. inversion Hl1. subst l1.
  exists new_pts, (row1 ++ extra).
  split; [exact Hl' |]. split; [exact Hrow' |].
  split; [rewrite length_app; lia |]. split; [congruence |].
  intros j Hj. rewrite (Hother j Hj). apply (F j Hj).
Qed.

Lemma basins_loop_refined maximas angular_pts todo :
  refine a = RefineBool true ->
  length angular_pts = length (angular_points E a) ->
  forall s st log st' log',
    for_each (combine (seq s (length todo)) todo)
             (trace_basin E fuel self a maximas angular_pts (length angular_pts))
             st log = (Ret st', log') ->
    (forall j, (s <= j < s + length todo)%nat -> entry_initial (length angular_pts) st j) ->
    refined_so_far (length angular_pts) s st ->
    refined_so_far (length angular_pts) (s + length todo) st'.
Proof.
  intros Hrf Hang. induction todo as [| m todo IH]; intros s st log st' log' H Hinit Hsofar.
  - simpl in H. inversion H. subst. simpl. rewrite Nat.add_0_r. exact Hsofar.
  - simpl length in *. simpl seq in H. simpl combine in H.
    apply for_each_cons_inv in H. destruct H as [st1 [log1 [H1 H2]]].
    destruct Hsofar as (l & Hl & Ll & Hrows).
    pose proof H1 as H1'.
    apply trace_basin_post in H1'; [| exact self_ok | exact Hang | apply Hinit; lia].
    destruct H1' as (_ & SE1 & _).
    destruct (trace_basin_refined _ _ _ _ _ _ _ _ l Hrf H1 (Hinit s ltac:(lia)) Hl)
      as (new_pts & row' & Hl' & Hrow' & Lrow' & _ & Hother).
    replace (s + S (length todo))%nat with (S s + length todo)%nat by lia.
    eapply IH; [exact H2 | |].
    + intros j Hj. destruct (SE1 j ltac:(lia)) as (E1 & E2 & E3 & E4).
      destruct (Hinit j ltac:(lia)) as (I1 & I2 & I3 & I4).
      unfold entry_initial, entries. rewrite E1, E2, E3, E4. auto.
    + exists (l ++ [new_pts]). split; [exact Hl' |].
      split; [rewrite length_app; simpl; lia |].
      intros i row extra Hrow Hextra.
      destruct (Nat.eq_dec i s) as [-> | Hne].
      * rewrite Hrow' in Hrow. inversion Hrow. subst row.
        rewrite lookup_app_r in Hextra by lia.
        replace (s - length l)%nat with 0%nat in Hextra by lia.
        simpl in Hextra. inversion Hextra. subst extra. exact Lrow'.
      * rewrite (Hother i Hne) in Hrow.
        assert (Hlt : (i < length l)%nat).
        { apply lookup_lt_Some in Hextra. rewrite length_app in Hextra.
          simpl in Hextra. lia. }
        rewrite lookup_app_l in Hextra by exact Hlt.
        eapply Hrows; eauto.
Qed.

Lemma qtaim_surface_body_refined log s log' :
  qtaim_surface_body E fuel self a log = (Ret s, log') ->
  refined_ang_ok (length (angular_points E a)) (refine a) (r_func_rows (r_func s))
                 (refined_ang s).
Proof.
  intros H. pose proof (qtaim_surface_body_ok _ _ _ self_ok _ _ _ H) as [_ (L1 & _)].
  unfold qtaim_surface_body in H. destruct (config_error a); [discriminate |].
  bind_inv H. bind_inv H. bind_inv H. inversion H. subst s. clear H.
  simpl in L1 |- *.
  assert (Hang : length a1 = length (angular_points E a)).
  { unfold angular_points. destruct (angular a); try discriminate.
    - run_comp in Hm0. inversion Hm0. reflexivity.
    - inversion Hm0. reflexivity. }
  assert (Hkeep : refine_is_true (refine a) = false ->
                  st_refined_ang a2 = (if refine_truthy (refine a) then Some [] else None)).
  { intros Hrt.
    apply (for_each_inv (fun st => st_refined_ang st
                                   = (if refine_truthy (refine a) then Some [] else None)))
      in Hm1; [exact Hm1 | | reflexivity].
    intros im st l st' l' _ Hb Hst.
    rewrite (trace_basin_keeps_refined_ang _ _ _ _ _ _ _ _ Hrt Hb). exact Hst. }
  destruct (refine a) as [[|] | i |] eqn:Hrf.
  - unfold enumerate in Hm1. rewrite <- Hang.
    apply basins_loop_refined in Hm1; [| exact Hrf | exact Hang | |].
    + destruct Hm1 as (l & Hl & Ll & Hrows). exists l.
      split; [exact Hl |]. split; [simpl in Ll; congruence | exact Hrows].
    + intros j Hj. unfold entry_initial, entries. simpl.
      rewrite !lookup_replicate_2 by lia. auto.
    + exists []. simpl. split; [reflexivity |]. split; [reflexivity |].
      intros i row extra _ Hx. discriminate.
  - simpl. apply Hkeep. reflexivity.
  - simpl. rewrite (Hkeep eq_refl). simpl. destruct (i =? 0)%Z; reflexivity.
  - exact I.
Qed.

End RefinedDirections.

Lemma qtaim_surface_refined (fuel depth : nat) (a : qtaim_args) log s log' :
  qtaim_surface E fuel depth a log = (Ret s, log') ->
  refined_ang_ok (length (angular_points E a)) (refine a) (r_func_rows (r_func s))
                 (refined_ang s).
Proof.
  intros H. destruct depth as [| depth]; [discriminate |].
  simpl in H. apply qtaim_surface_body_refined in H; [exact H |].
  intros a' l s' l' H'. apply (qtaim_surface_ok _ _ _ _ _ _ H').
Qed.

(** X15.  The refinement directions of a returned surface.  For
    [refine=False] there are none.  For [refine=True] there is one array of
    directions per maximum, in the order of the maxima, and the radial
    function of each basin has one radius for every direction of the
    angular grid followed by one for every refinement direction of the
    basin.  For an integer [refine] the list is empty when the integer is
    not 0, and absent when it is 0, which Python takes as false. *)
Theorem refined_ang_of_result (fuel depth : nat) (a : qtaim_args) log s log' :
  qtaim_surface E fuel depth a log = (Ret s, log') ->
  let n := length (angular_points E a) in
  match refine a with
  | RefineBool true =>
    exists l, refined_ang s = Some l /\ length l = length (maximas s)
              /\ forall i row extra,
                   r_func_rows (r_func s) !! i = Some row -> l !! i = Some extra ->
                   length row = (n + length extra)%nat
  | RefineBool false => refined_ang s = None
  | RefineInt i => refined_ang s = if (i =? 0)%Z then None else Some []
  | RefineOther => False
  end.
Proof.
  intros H n.
  pose proof (qtaim_surface_ok _ _ _ _ _ _ H) as [_ (L1 & _)].
  assert (Hcfg : refine a <> RefineOther).
  { intros Hro. destruct depth as [| depth]; [discriminate |]. simpl in H.
    unfold qtaim_surface_body, config_error in H. rewrite Hro in H. discriminate. }
  apply qtaim_surface_refined in H.
  unfold refined_ang_ok in H. fold n in H.
  destruct (refine a) as [[|] | i |]; try exact H.
  - destruct H as (l & Hl & Ll & Hrows). exists l.
    split; [exact Hl |]. split; [congruence | exact Hrows].
  - apply Hcfg. reflexivity.
Qed.

(** ** The points of a returned surface *)

Lemma surface_pts_at_ok (idx : list nat) (sph_pts : list vec) (row : list Q) (m : vec) log :
  (forall k, In k idx -> (k < length row)%nat /\ (k < length sph_pts)%nat) ->
  exists pts, surface_pts_at idx sph_pts row m log = (Ret pts, log)
              /\ Forall2 (point_on_ray m row sph_pts) idx pts.
Proof.
  induction idx as [| k idx IH]; intros Hin.
  - exists []. split; [reflexivity | constructor].
  - destruct IH as (pts & Hpts & Hall); [intros j Hj; apply Hin; right; exact Hj |].
    destruct (Hin k (or_introl eq_refl)) as [Hr Hc].
    destruct (lookup_lt_is_Some_2 _ _ Hr) as [r Hrk].
    destruct (lookup_lt_is_Some_2 _ _ Hc) as [c Hck].
    exists (ray_point m r c :: pts). split.
    + unfold surface_pts_at in Hpts |- *. cbn [map_M].
      rewrite (bind_Ret_intro _ _ log (ray_point m r c) log).
      * rewrite (bind_Ret_intro _ _ log pts log) by exact Hpts. reflexivity.
      * rewrite (bind_Ret_intro _ _ log r log) by (apply py_index_nat; exact Hrk).
        rewrite (bind_Ret_intro _ _ log c log) by (apply py_index_nat; exact Hck).
        reflexivity.
    + constructor; [| exact Hall]. exists r, c. auto.
Qed.

Lemma angular_pts_of_result (fuel depth : nat) (a : qtaim_args) log s log'
    (d : Z) (rb : bool) (i : nat) (row : list Q) log2 :
  qtaim_surface E fuel depth a log = (Ret s, log') ->
  angular a = AngDegree d -> refine a = RefineBool rb ->
  r_func_rows (r_func s) !! i = Some row ->
  exists sph_pts,
    generate_angular_pts_of_basin E s i log2 = (Ret sph_pts, log2 ++ [CallAngularGrid d])
    /\ length sph_pts = length row
    /\ take (length (AngularGrid_points E d)) sph_pts = AngularGrid_points E d.
Proof.
  intros H Hdeg Hrf Hrow.
  pose proof (qtaim_surface_inv (fun _ => True) _ _ I (fun _ => I) _ _ _ _ H)
    as (_ & _ & _ & _ & Ha & _).
  pose proof (qtaim_surface_refined _ _ _ _ _ _ H) as Href.
  pose proof (qtaim_surface_ok _ _ _ _ _ _ H) as [Hok (L1 & L2 & L3 & L4)].
  rewrite Hdeg in Ha.
  assert (Hn : length (angular_points E a) = length (AngularGrid_points E d))
    by (unfold angular_points; rewrite Hdeg; reflexivity).
  assert (Hgrid : generate_angular_grid_of_basin E s i log2
                  = (Ret (AngularGrid_points E d), log2 ++ [CallAngularGrid d])).
  { unfold generate_angular_grid_of_basin. rewrite Ha. reflexivity. }
  unfold generate_angular_pts_of_basin.
  rewrite (bind_Ret_intro _ _ _ _ _ Hgrid).
  assert (Hi : (i < length (maximas s))%nat) by (apply lookup_lt_Some in Hrow; lia).
  rewrite Hrf in Href. destruct rb.
  - destruct Href as (l & Hl & Ll & Hrows). rewrite Hl.
    destruct (lookup_lt_is_Some_2 l i ltac:(lia)) as [extra Hextra].
    exists (AngularGrid_points E d ++ extra).
    split; [| split].
    + rewrite (bind_Ret_intro _ _ _ extra (log2 ++ [CallAngularGrid d]))
        by (apply py_index_nat; exact Hextra).
      reflexivity.
    + rewrite length_app, (Hrows i row extra Hrow Hextra). lia.
    + apply take_app_length.
  - simpl in Href. rewrite Href. exists (AngularGrid_points E d).
    split; [reflexivity |]. split; [| apply firstn_all].
    destruct (lookup_lt_is_Some_2 (oas s) i ltac:(lia)) as [o Ho].
    destruct (lookup_lt_is_Some_2 (ias s) i ltac:(lia)) as [ia Hia].
    destruct (lookup_lt_is_Some_2 (basins_ias s) i ltac:(lia)) as [b Hb].
    specialize (Hok i row o ia b Hrow Ho Hia Hb). unfold basin_classified in Hok.
    rewrite Hrf in Hok. simpl in Hok. destruct Hok as (_ & _ & Lr).
    rewrite (Lr eq_refl). symmetry. exact Hn.
Qed.

(** X16.  On a surface returned for an angular degree and a boolean
    [refine], [generate_pts_on_surface] succeeds for every basin: the
    directions of the basin, those of the angular grid followed by its
    refinement directions, are as many as its radii, so the product pairs
    them one to one, and the point of each direction is the maximum moved
    by the radius of the direction along it.  The angular grid is built
    once. *)
Theorem surface_points_of_result (fuel depth : nat) (a : qtaim_args) log s log'
    (d : Z) (rb : bool) (i : nat) (m : vec) (row : list Q) log2 :
  qtaim_surface E fuel depth a log = (Ret s, log') ->
  angular a = AngDegree d -> refine a = RefineBool rb ->
  maximas s !! i = Some m -> r_func_rows (r_func s) !! i = Some row ->
  exists sph_pts,
    generate_angular_pts_of_basin E s i log2 = (Ret sph_pts, log2 ++ [CallAngularGrid d])
    /\ length sph_pts = length row
    /\ take (length (AngularGrid_points E d)) sph_pts = AngularGrid_points E d
    /\ generate_pts_on_surface E s i log2
       = (Ret (map (fun p => ray_point m (fst p) (snd p)) (combine row sph_pts)),
          log2 ++ [CallAngularGrid d]).
Proof.
  intros H Hdeg Hrf Hm Hrow.
  destruct (angular_pts_of_result _ _ _ _ _ _ _ _ _ _ log2 H Hdeg Hrf Hrow)
    as (sph_pts & Hsph & Hlen & Htake).
  exists sph_pts. split; [exact Hsph |]. split; [exact Hlen |]. split; [exact Htake |].
  unfold generate_pts_on_surface.
  rewrite (bind_Ret_intro _ _ _ _ _ Hsph).
  rewrite (bind_Ret_intro _ _ _ m (log2 ++ [CallAngularGrid d]))
    by (apply py_index_nat; exact Hm).
  rewrite (bind_Ret_intro _ _ _ row (log2 ++ [CallAngularGrid d]))
    by (apply py_index_nat; exact Hrow).
  unfold broadcast_scale. rewrite Hlen, Nat.eqb_refl.
  unfold bind, ret. rewrite map_map. reflexivity.
Qed.

(** X17.  On a surface returned for an angular degree and a boolean
    [refine], [get_ias_pts_of_basin] and [get_oas_pts_of_basin] succeed for
    every basin, and return, for every index of the IAS list and of the OAS
    list, the point of that direction.  The two arrays together have one
    point for every radius of the basin. *)
Theorem ias_oas_points_of_result (fuel depth : nat) (a : qtaim_args) log s log'
    (d : Z) (rb : bool) (i : nat) (m : vec) (row : list Q) (o ia : list nat) log2 :
  qtaim_surface E fuel depth a log = (Ret s, log') ->
  angular a = AngDegree d -> refine a = RefineBool rb ->
  maximas s !! i = Some m -> r_func_rows (r_func s) !! i = Some row ->
  oas s !! i = Some o -> ias s !! i = Some ia ->
  exists sph_pts ias_pts oas_pts,
    generate_angular_pts_of_basin E s i log2 = (Ret sph_pts, log2 ++ [CallAngularGrid d])
    /\ get_ias_pts_of_basin E s i log2 = (Ret ias_pts, log2 ++ [CallAngularGrid d])
    /\ get_oas_pts_of_basin E s i log2 = (Ret oas_pts, log2 ++ [CallAngularGrid d])
    /\ Forall2 (point_on_ray m row sph_pts) ia ias_pts
    /\ Forall2 (point_on_ray m row sph_pts) o oas_pts
    /\ (length ias_pts + length oas_pts = length row)%nat.
Proof.
  intros H Hdeg Hrf Hm Hrow Ho Hia.
  destruct (angular_pts_of_result _ _ _ _ _ _ _ _ _ _ log2 H Hdeg Hrf Hrow)
    as (sph_pts & Hsph & Hlen & _).
  pose proof (qtaim_surface_ok _ _ _ _ _ _ H) as [Hok (L1 & L2 & L3 & L4)].
  destruct (lookup_lt_is_Some_2 (basins_ias s) i) as [b Hb];
    [apply lookup_lt_Some in Ho; lia |].
  specialize (Hok i row o ia b Hrow Ho Hia Hb). unfold basin_classified in Hok.
  rewrite Hrf in Hok. simpl in Hok. destruct Hok as (P & _ & _).
  assert (Hidx : forall k, In k (o ++ ia) ->
                           (k < length row)%nat /\ (k < length sph_pts)%nat).
  { intros k Hk. apply (Permutation_in _ P) in Hk. apply in_seq in Hk. lia. }
  destruct (surface_pts_at_ok ia sph_pts row m (log2 ++ [CallAngularGrid d]))
    as (ias_pts & Hias & Fias); [intros k Hk; apply Hidx, in_or_app; right; exact Hk |].
  destruct (surface_pts_at_ok o sph_pts row m (log2 ++ [CallAngularGrid d]))
    as (oas_pts & Hoas & Foas); [intros k Hk; apply Hidx, in_or_app; left; exact Hk |].
  exists sph_pts, ias_pts, oas_pts.
  split; [exact Hsph |]. split; [| split; [| split; [exact Fias | split; [exact Foas |]]]].
  - unfold get_ias_pts_of_basin.
    rewrite (bind_Ret_intro _ _ log2 ia log2) by (apply py_index_nat; exact Hia).
    rewrite (bind_Ret_intro _ _ _ _ _ Hsph).
    rewrite (bind_Ret_intro _ _ _ m (log2 ++ [CallAngularGrid d]))
      by (apply py_index_nat; exact Hm).
    rewrite (bind_Ret_intro _ _ _ row (log2 ++ [CallAngularGrid d]))
      by (apply py_index_nat; exact Hrow).
    exact Hias.
  - unfold get_oas_pts_of_basin.
    rewrite (bind_Ret_intro _ _ log2 o log2) by (apply py_index_nat; exact Ho).
    rewrite (bind_Ret_intro _ _ _ _ _ Hsph).
    rewrite (bind_Ret_intro _ _ _ m (log2 ++ [CallAngularGrid d]))
      by (apply py_index_nat; exact Hm).
    rewrite (bind_Ret_intro _ _ _ row (log2 ++ [CallAngularGrid d]))
      by (apply py_index_nat; exact Hrow).
    exact Hoas.
  - apply Forall2_length in Fias, Foas. rewrite <- Fias, <- Foas.
    apply Permutation_length in P. rewrite length_app, length_seq in P. lia.
Qed.

(** X18.  A surface returned for an integer [refine] other than 0 cannot
    produce its points: its list of refinement directions is empty, not
    absent, so [refined_ang[i_basin]] raises [IndexError] for every basin,
    once the angular grid has been built. *)
Theorem integer_refine_surface_has_no_points (fuel depth : nat) (a : qtaim_args) log s log'
    (d : Z) (r : Z) (i_basin : nat) log2 :
  qtaim_surface E fuel depth a log = (Ret s, log') ->
  angular a = AngDegree d -> refine a = RefineInt r -> r <> 0%Z ->
  generate_angular_pts_of_basin E s i_basin log2
  = (Raise IndexError, log2 ++ [CallAngularGrid d])
  /\ generate_pts_on_surface E s i_basin log2
     = (Raise IndexError, log2 ++ [CallAngularGrid d]).
Proof.
  intros H Hdeg Hrf Hr.
  pose proof (qtaim_surface_inv (fun _ => True) _ _ I (fun _ => I) _ _ _ _ H)
    as (_ & _ & _ & _ & Ha & _).
  pose proof (qtaim_surface_refined _ _ _ _ _ _ H) as Href.
  rewrite Hdeg in Ha. rewrite Hrf in Href. simpl in Href.
  destruct (Z.eqb_spec r 0) as [? | _]; [contradiction |].
  assert (Hpts : generate_angular_pts_of_basin E s i_basin log2
                 = (Raise IndexError, log2 ++ [CallAngularGrid d])).
  { unfold generate_angular_pts_of_basin.
    rewrite (bind_Ret_intro _ _ log2 (AngularGrid_points E d) (log2 ++ [CallAngularGrid d])).
    2: { unfold generate_angular_grid_of_basin. rewrite Ha. reflexivity. }
    rewrite Href. apply bind_Raise_intro. apply py_index_out_of_range. simpl. lia. }
  split; [exact Hpts |].
  unfold generate_pts_on_surface. apply bind_Raise_intro. exact Hpts.
Qed.

(** ** Projection on a ray *)

Lemma vdot_sub_l (u v w : vec) : vdot (vsub u v) w == vdot u w - vdot v w.
Proof. unfold vdot, vsub. simpl. ring. Qed.


(** ** Maxima locator and surface refiner, on return *)

Lemma map_M_Forall2 {A B : Type} (f : A -> M B) (xs : list A) :
  forall log ys log',
    map_M f xs log = (Ret ys, log') ->
    Forall2 (fun x y => exists l1 l2, f x l1 = (Ret y, l2)) xs ys.
Proof.
  induction xs as [| x xs IH]; intros log ys log' H.
  - simpl in H. inversion H. constructor.
  - simpl in H. bind_inv H. bind_inv H. inversion H. subst.
    constructor; [eauto | eapply IH; eauto].
Qed.

Lemma no_duplicates_separated (ms : list vec) (i j : nat) (mi mj : vec) :
  any_below (1 # 100000000) (set_diagonal_to_one (cdist E ms ms)) = false ->
  i <> j -> ms !! i = Some mi -> ms !! j = Some mj ->
  1 # 100000000 <= norm E (vsub mi mj).
Proof.
  intros Hany Hij Hi Hj.
  destruct (Qlt_le_dec (norm E (vsub mi mj)) (1 # 100000000)) as [Hlt | Hle];
    [| exact Hle].
  rewrite (duplicates_detected ms i j mi mj Hij Hi Hj Hlt) in Hany. discriminate.
Qed.

(** X20.  When [_optimize_centers] returns, it returns one maximum per
    seed, in the order of the seeds, each the end of a gradient path from
    its seed over the horizon (0, 10) that the integrator accepted; any two
    of them at different positions are at least 1e-8 apart; and only the
    ODE solver has been called. *)
Theorem optimize_centers_returns_separated (fuel : nat) (centers : list vec) log
    (ms : list vec) log' :
  _optimize_centers E fuel centers log = (Ret ms, log') ->
  Forall2 (fun x m => exists l1 l2,
             gradient_path E fuel x (0, 10) Radau (1 # 100) 200 10 (1 # 1000000000)
                           None None l1 = (Ret (Some m), l2)) centers ms
  /\ (forall i j mi mj, i <> j -> ms !! i = Some mi -> ms !! j = Some mj ->
                        1 # 100000000 <= norm E (vsub mi mj))
  /\ exists new, log' = log ++ new /\ Forall is_ivp_call new.
Proof.
  unfold _optimize_centers. intros H. bind_inv H.
  destruct a as [| m0 ms0] eqn:Hms; [discriminate |]. rewrite <- Hms in *. clear Hms.
  destruct (any_below _ _) eqn:Hany; [discriminate |].
  inversion H. subst. clear H. split; [| split].
  - apply map_M_Forall2 in Hm.
    eapply Forall2_impl; [exact Hm |].
    intros x m (l1 & l2 & Hx). unfold refine_center in Hx. bind_inv Hx.
    destruct a as [y |]; [| discriminate]. inversion Hx. subst. eauto.
  - intros i j mi mj. apply no_duplicates_separated. exact Hany.
  - eapply (emits_only_map_M is_ivp_call); [| exact Hm].
    intros x. apply emits_only_refine_center.
Qed.

Lemma silent_map_M {A B : Type} (f : A -> M B) (xs : list A) :
  (forall x, silent (f x)) -> silent (map_M f xs).
Proof.
  intros Hf. induction xs as [| x xs IH]; simpl.
  - apply silent_ret.
  - apply silent_bind; [apply Hf |]. intros y.
    apply silent_bind; [exact IH |]. intros ys. apply silent_ret.
Qed.

Lemma length_insert_by_key (x : Q * nat) (l : list (Q * nat)) :
  length (insert_by_key x l) = S (length l).
Proof.
  induction l as [| y l IH]; [reflexivity |].
  simpl. destruct (Qle_bool (fst x) (fst y)); simpl; [reflexivity | rewrite IH; reflexivity].
Qed.

Lemma length_argsort (a : list Q) : length (argsort a) = length a.
Proof.
  unfold argsort. rewrite length_map.
  assert (H : forall l : list (Q * nat),
             length (fold_right insert_by_key [] l) = length l).
  { induction l as [| x l IH]; [reflexivity |].
    simpl. rewrite length_insert_by_key, IH. reflexivity. }
  rewrite H, length_combine, length_seq. lia.
Qed.

Lemma map_M_lengths {A B : Type} (P : B -> Prop) (f : A -> M B) (xs : list A) :
  (forall x l1 y l2, In x xs -> f x l1 = (Ret y, l2) -> l2 = l1 /\ P y) ->
  forall log ys log',
    map_M f xs log = (Ret ys, log') -> log' = log /\ length ys = length xs /\ Forall P ys.
Proof.
  induction xs as [| x xs IH]; intros Hf log ys log' H.
  - simpl in H. inversion H. auto.
  - simpl in H. bind_inv H. bind_inv H. inversion H. subst.
    destruct (Hf x _ _ _ (or_introl eq_refl) Hm) as [-> Py].
    destruct (IH (fun z l1 y l2 Hz => Hf z l1 y l2 (or_intror Hz)) _ _ _ Hm0)
      as (-> & Hlen & Hall).
    split; [reflexivity |]. split; [simpl; congruence | constructor; assumption].
Qed.

(** X21.  When [construct_points_between_ias_and_oas] returns, the convex
    hull has been taken twice, of the IAS points first and of the OAS
    points second, and the result has seven directions for every vertex of
    the IAS hull.  If the IAS hull has a vertex, the OAS hull has at least
    two: with fewer the second of the two closest vertices does not exist
    and the call raises instead. *)
Theorem refinement_directions_count (ias_i oas_i : list nat) (angular_pts : list vec)
    (r_func_max : list Q) (maxima : vec) log (pts : list vec) log' :
  construct_points_between_ias_and_oas E ias_i oas_i angular_pts r_func_max maxima log
  = (Ret pts, log') ->
  exists ias_pts oas_pts ias_bnd oas_bnd,
    surface_pts_at ias_i angular_pts r_func_max maxima log = (Ret ias_pts, log)
    /\ surface_pts_at oas_i angular_pts r_func_max maxima log = (Ret oas_pts, log)
    /\ ConvexHull_boundary E ias_pts = Some ias_bnd
    /\ ConvexHull_boundary E oas_pts = Some oas_bnd
    /\ log' = log ++ [CallConvexHull ias_pts; CallConvexHull oas_pts]
    /\ length pts = (7 * length ias_bnd)%nat
    /\ (ias_bnd <> [] -> (2 <= length oas_bnd)%nat).
Proof.
  unfold construct_points_between_ias_and_oas. intros H.
  bind_inv H. bind_inv H. bind_inv H. bind_inv H. bind_inv H.
  inversion H. subst pts log'. clear H.
  assert (Hsil : forall idx, silent (surface_pts_at idx angular_pts r_func_max maxima)).
  { intros idx. unfold surface_pts_at. apply silent_map_M. intros k.
    apply silent_bind; [apply silent_py_index |]. intros r.
    apply silent_bind; [apply silent_py_index |]. intros c. apply silent_ret. }
  pose proof (silent_log _ _ _ _ (Hsil ias_i) Hm) as ->.
  pose proof (silent_log _ _ _ _ (Hsil oas_i) Hm0) as ->.
  unfold call_convex_hull in Hm1, Hm2.
  bind_inv Hm1. bind_inv Hm2. unfold emit in Hm4, Hm5.
  inversion Hm4. inversion Hm5. subst. clear Hm4 Hm5.
  destruct (ConvexHull_boundary E a) as [ias_bnd |] eqn:Hi; [| discriminate].
  destruct (ConvexHull_boundary E a0) as [oas_bnd |] eqn:Ho; [| discriminate].
  inversion Hm1. inversion Hm2. subst. clear Hm1 Hm2.
  apply (map_M_lengths (fun block : list vec =>
                          length block = 7%nat /\ (2 <= length a2)%nat)) in Hm3.
  - destruct Hm3 as (-> & Hlen & Hall).
    exists a, a0, a1, a2.
    split; [exact Hm |]. split; [exact Hm0 |]. split; [exact Hi |].
    split; [exact Ho |]. split; [rewrite <- app_assoc; reflexivity |].
    unfold enumerate in Hlen. rewrite length_combine, length_seq in Hlen.
    assert (Hlen' : length a3 = length a1) by lia. split.
    + rewrite <- Hlen'. clear Hlen Hlen'.
      induction Hall as [| blk blks [Hb _] _ IH]; [reflexivity |].
      simpl concat. rewrite length_app, IH, Hb. simpl length. lia.
    + intros Hne. destruct a3 as [| blk blks].
      * destruct a1; [contradiction | discriminate].
      * inversion Hall as [| ? ? [_ H2] _]. exact H2.
  - intros [i_ias pt_ias] l1 block l2 Hin Hbody.
    bind_inv Hbody. bind_inv Hbody. bind_inv Hbody. bind_inv Hbody. bind_inv Hbody.
    inversion Hbody. subst.
    pose proof (silent_log _ _ _ _ (silent_py_index _ _) Hm1) as ->.
    pose proof (silent_log _ _ _ _ (silent_py_index _ _) Hm2) as ->.
    pose proof (silent_log _ _ _ _ (silent_py_index _ _) Hm4) as ->.
    pose proof (silent_log _ _ _ _ (silent_py_index _ _) Hm5) as ->.
    pose proof (silent_log _ _ _ _ (silent_py_index _ _) Hm6) as ->.
    split; [reflexivity |]. split; [reflexivity |].
    apply (py_index_nat_inv _ 1) in Hm4. destruct Hm4 as [Hk2 _].
    apply lookup_lt_Some in Hk2. rewrite length_take, length_argsort in Hk2.
    apply py_index_nat_inv in Hm1. destruct Hm1 as [Hrow _].
    unfold cdist in Hrow. rewrite lookup_map in Hrow.
    destruct (a1 !! i_ias); [| discriminate]. simpl in Hrow. inversion Hrow. subst a4.
    rewrite length_map in Hk2. lia.
Qed.

(** ** Beta spheres that cover the radial grid *)

Lemma map_M_py_index {A : Type} (l : list A) (idx : list nat) :
  (forall i, In i idx -> (i < length l)%nat) ->
  exists ys, forall log, map_M (fun i => py_index l (Z.of_nat i)) idx log = (Ret ys, log).
Proof.
  induction idx as [| i idx IH]; intros Hin.
  - exists []. reflexivity.
  - destruct IH as [ys Hys]; [intros j Hj; apply Hin; right; exact Hj |].
    destruct (lookup_lt_is_Some_2 l i (Hin i (or_introl eq_refl))) as [x Hx].
    exists (x :: ys). intros log. cbn [map_M].
    rewrite (bind_Ret_intro _ _ log x log) by (apply py_index_nat; exact Hx).
    rewrite (bind_Ret_intro _ _ log ys log) by apply Hys.
    reflexivity.
Qed.

Lemma filter_none {A : Type} (f : A -> bool) (l : list A) :
  (forall x, In x l -> f x = false) -> List.filter f l = [].
Proof.
  induction l as [| x l IH]; intros H; [reflexivity |].
  simpl. rewrite (H x (or_introl eq_refl)). apply IH.
  intros y Hy. apply H. right. exact Hy.
Qed.

Section BetaBeyondGrid.

Context (fuel : nat) (self : qtaim_args -> M SurfaceQTAIM) (a : qtaim_args).
Context (bs : list Q) (b : Q) (ms : list vec) (i : nat) (c0 : vec) (cs : list vec).

Hypothesis beta_given : beta_sphere a = Some bs.
Hypothesis beta_count : length bs = length ms.
Hypothesis beta_i : bs !! i = Some b.
Hypothesis grid_inside : forall r, In r (rgrids a) -> r <= b.
Hypothesis traced_i : in_maxima_to_do (refine a) i = true.
Hypothesis first_traced : forall j, (j < i)%nat -> in_maxima_to_do (refine a) j = false.

(** The first direction of maximum [i] is given an empty radial grid. *)
Lemma trace_basin_empty_grid (m : vec) st log :
  trace_basin E (S fuel) self a ms (c0 :: cs) (length (c0 :: cs)) (i, m) st log
  = (Raise IndexError, log ++ [CallDensity []]).
Proof.
  destruct (map_M_py_index bs
              (List.filter (fun k => negb (k =? i)%nat) (seq 0 (length ms))))
    as [obs Hobs].
  { intros k Hk. apply filter_In in Hk. destruct Hk as [Hk _].
    apply in_seq in Hk. lia. }
  assert (Hfilter : List.filter (fun r => Qgtb r b) (rgrids a) = []).
  { apply filter_none. intros r Hr. apply Qltb_ge. apply grid_inside. exact Hr. }
  unfold trace_basin. rewrite traced_i, beta_given.
  rewrite (bind_Ret_intro _ _ log (Some b, Some obs) log).
  2: { rewrite (bind_Ret_intro _ _ log b log) by (apply py_index_nat; exact beta_i).
       unfold other_beta_spheres.
       rewrite (bind_Ret_intro _ _ log obs log) by apply Hobs. reflexivity. }
  apply bind_Raise_intro. simpl length. simpl seq. cbn [for_each].
  apply bind_Raise_intro.
  unfold trace_direction. rewrite beta_given.
  rewrite (bind_Ret_intro _ _ log c0 log) by reflexivity.
  rewrite (bind_Ret_intro _ _ log [] log).
  2: { rewrite (bind_Ret_intro _ _ log b log) by (apply py_index_nat; exact beta_i).
       rewrite Hfilter. reflexivity. }
  apply bind_Raise_intro. apply basin_bnd_pt_empty_grid.
Qed.

(** The maxima before [i] are passed over; the loop ends at maximum [i]. *)
Lemma basins_loop_empty_grid (todo : list vec) :
  forall s st log,
    (s <= i)%nat -> (i - s < length todo)%nat ->
    for_each (combine (seq s (length todo)) todo)
             (trace_basin E (S fuel) self a ms (c0 :: cs) (length (c0 :: cs))) st log
    = (Raise IndexError, log ++ [CallDensity []]).
Proof.
  induction todo as [| m todo IH]; intros s st log Hs Hi; [simpl in Hi; lia |].
  simpl length. simpl seq. simpl combine. cbn [for_each].
  destruct (Nat.eq_dec s i) as [-> | Hne].
  - apply bind_Raise_intro. apply trace_basin_empty_grid.
  - rewrite (bind_Ret_intro _ _ log st log).
    + apply IH; [lia | simpl in Hi; lia].
    + unfold trace_basin. rewrite first_traced by lia. reflexivity.
Qed.

End BetaBeyondGrid.

Lemma maxima_count (fuel : nat) (a : qtaim_args) log (ms : list vec) log1 :
  (if optimize_centers a then _optimize_centers E fuel (centers a) else ret (centers a)) log
  = (Ret ms, log1) ->
  length ms = length (centers a).
Proof.
  destruct (optimize_centers a).
  - unfold _optimize_centers. intros H. bind_inv H.
    apply map_M_Forall2 in Hm. apply Forall2_length in Hm.
    destruct a0 as [| m0 ms0]; [discriminate |].
    destruct (any_below _ _); [discriminate |]. inversion H. subst. symmetry. exact Hm.
  - intros H. inversion H. reflexivity.
Qed.

(** X23.  Take a call that passes its checks, obtains its maxima, the
    centers as given or as optimized, and has at least one direction.  Let
    [i] be the first maximum that it traces: maximum 0 for a boolean
    [refine], maximum [k] for [refine=k].  When beta spheres are given and
    the one of maximum [i] is at least as large as every radius of the
    grid, no radius is left for the ray of the first direction: the
    density is evaluated on an empty ray and the call ends with
    [IndexError].  Until then it has called the ODE solver to optimize the
    centers, if asked to, and built the angular grid, if [angular] is a
    degree; no sample of a ray has been traced. *)
Theorem beta_sphere_beyond_grid_raises (fuel depth : nat) (a : qtaim_args)
    (bs : list Q) (b : Q) (ms : list vec) (i : nat) (c0 : vec) (cs : list vec) log log1 :
  config_error a = None ->
  (if optimize_centers a then _optimize_centers E (S fuel) (centers a)
   else ret (centers a)) log = (Ret ms, log1) ->
  angular_points E a = c0 :: cs ->
  (i < length ms)%nat ->
  in_maxima_to_do (refine a) i = true ->
  (forall j, (j < i)%nat -> in_maxima_to_do (refine a) j = false) ->
  beta_sphere a = Some bs -> bs !! i = Some b ->
  (forall r, In r (rgrids a) -> r <= b) ->
  qtaim_surface E (S fuel) (S depth) a log
  = (Raise IndexError,
     log1 ++ match angular a with
             | AngDegree d => [CallAngularGrid d]
             | _ => []
             end ++ [CallDensity []]).
Proof.
  intros Hcfg Hms Hang Hi Hdo Hfirst Hbeta Hb Hgrid.
  assert (Hlen : length bs = length ms).
  { rewrite (maxima_count _ _ _ _ _ Hms).
    unfold config_error in Hcfg. rewrite Hbeta in Hcfg.
    destruct (refine a); try discriminate;
      (destruct (Qgtb _ _); [discriminate |]);
      (destruct (Nat.eqb_spec (length (centers a)) (length bs)) as [Heq | _];
       [symmetry; exact Heq | discriminate]). }
  cbn [qtaim_surface]. unfold qtaim_surface_body. rewrite Hcfg.
  rewrite (bind_Ret_intro _ _ log ms log1 Hms).
  assert (Hloop : forall st l,
             for_each (enumerate ms)
                      (trace_basin E (S fuel) (qtaim_surface E (S fuel) depth) a ms
                                   (c0 :: cs) (length (c0 :: cs))) st l
             = (Raise IndexError, l ++ [CallDensity []])).
  { intros st l. unfold enumerate.
    apply (basins_loop_empty_grid fuel _ a bs b ms i c0 cs Hbeta Hlen Hb Hgrid Hdo Hfirst);
      lia. }
  unfold angular_points in Hang.
  destruct (angular a) as [d | ds | pts]; [| discriminate |].
  - rewrite (bind_Ret_intro _ _ log1 (c0 :: cs) (log1 ++ [CallAngularGrid d])).
    2: { rewrite <- Hang. reflexivity. }
    cbv zeta. apply bind_Raise_intro.
    rewrite Hloop, <- app_assoc. reflexivity.
  - rewrite (bind_Ret_intro _ _ log1 (c0 :: cs) log1) by (rewrite Hang; reflexivity).
    cbv zeta. apply bind_Raise_intro. rewrite Hloop. reflexivity.
Qed.

(** ** The collaborators of the driver *)

Lemma emits_only_weaken {A : Type} (P Q : event -> Prop) (m : M A) :
  (forall e, P e -> Q e) -> emits_only P m -> emits_only Q m.
Proof.
  intros HPQ Hm log o log' H. destruct (Hm _ _ _ H) as (new & -> & Hall).
  exists new. split; [reflexivity |]. eapply Forall_impl; eauto.
Qed.

Lemma emits_only_emit (P : event -> Prop) (e : event) : P e -> emits_only P (emit e).
Proof.
  intros He log o log' H. inversion H. exists [e]. split; [reflexivity |].
  constructor; [exact He | constructor].
Qed.

Lemma emits_only_for_each {A S : Type} (P : event -> Prop) (xs : list A)
    (body : A -> S -> M S) :
  (forall x s, emits_only P (body x s)) -> forall s, emits_only P (for_each xs body s).
Proof.
  intros Hb. induction xs as [| x xs IH]; intros s; simpl.
  - apply emits_only_silent, silent_ret.
  - apply emits_only_bind; auto.
Qed.

Lemma refine_is_true_inv (r : refine_t) : refine_is_true r = true -> r = RefineBool true.
Proof. destruct r as [[|] | i |]; simpl; intros H; try discriminate; reflexivity. Qed.

Section DriverCalls.

Context (P : event -> Prop).
Hypothesis P_dens : forall pts, P (CallDensity pts).
Hypothesis P_ivp : forall a, P (CallSolveIvp a).
Hypothesis P_root : forall l u x, P (CallRootScalar l u x).

Lemma P_of_ivp (e : event) : is_ivp_call e -> P e.
Proof. intros [a ->]. apply P_ivp. Qed.

Lemma emits_only_density_on pts : emits_only P (density_on E pts).
Proof.
  unfold density_on. apply emits_only_bind; [apply emits_only_emit, P_dens | intros _].
  apply emits_only_silent, silent_ret.
Qed.

Lemma emits_only_density_at pt : emits_only P (density_at E pt).
Proof.
  unfold density_at. apply emits_only_bind; [apply emits_only_emit, P_dens | intros _].
  apply emits_only_silent, silent_ret.
Qed.

Lemma emits_only_trace_loop fuel dens_cutoff maxima cart_sphere_pt other_maximas bnd_err
    iso_val beta_sphere_maxima beta_sphere_others n :
  forall rad_pts ss_ray,
    emits_only P (trace_loop E fuel dens_cutoff maxima cart_sphere_pt other_maximas bnd_err
                             iso_val beta_sphere_maxima beta_sphere_others n rad_pts ss_ray).
Proof.
  induction n as [| n IH]; intros rad_pts ss_ray; simpl.
  - intros log o log' H. inversion H. exists []. rewrite app_nil_r. auto.
  - apply emits_only_bind; [apply emits_only_density_on | intros ray_density].
    apply emits_only_bind; [apply emits_only_silent, silent_py_index | intros _].
    apply emits_only_bind; [apply emits_only_silent, silent_py_index | intros _].
    apply emits_only_bind.
    { eapply emits_only_weaken; [exact P_of_ivp | apply emits_only_ray_loop]. }
    intros scan.
    destruct scan as [[bnd_pt basin_id | rad_pts' ss_ray' | i] | []]; auto.
    + apply emits_only_silent, silent_ret.
    + apply emits_only_bind; [apply emits_only_silent, silent_argsort_first | intros idx].
      apply emits_only_silent, silent_ret.
    + apply emits_only_bind; [apply emits_only_silent, silent_argsort_first | intros idx].
      apply emits_only_silent, silent_ret.
Qed.

Lemma emits_only_isosurface_pt index_iso rad_pts maxima cart_sphere_pt iso_val iso_err :
  emits_only P (solve_for_isosurface_pt E index_iso rad_pts maxima cart_sphere_pt
                                        iso_val iso_err).
Proof.
  unfold solve_for_isosurface_pt.
  apply emits_only_bind; [apply emits_only_silent, silent_iso_bracket | intros [l_bnd u_bnd]].
  apply emits_only_bind; [apply emits_only_density_at | intros dl].
  apply emits_only_bind; [apply emits_only_density_at | intros du].
  destruct (_ || _); [apply emits_only_silent, silent_raise |].
  apply emits_only_bind.
  { unfold call_root_scalar.
    apply emits_only_bind; [apply emits_only_emit, P_root | intros _].
    apply emits_only_silent, silent_ret. }
  intros sol. destruct (negb _); [apply emits_only_silent, silent_raise |].
  apply emits_only_bind; [apply emits_only_density_at | intros _].
  apply emits_only_silent, silent_ret.
Qed.

Lemma emits_only_trace_direction fuel a angular_pts i_maxima maxima other_maximas
    beta_sph_max other_beta_sph i_ang st :
  emits_only P (trace_direction E fuel a angular_pts i_maxima maxima other_maximas
                                beta_sph_max other_beta_sph i_ang st).
Proof.
  unfold trace_direction.
  apply emits_only_bind; [apply emits_only_silent, silent_py_index | intros c].
  apply emits_only_bind.
  { apply emits_only_silent. destruct (beta_sphere a); [| apply silent_ret].
    apply silent_bind; [apply silent_py_index | intros b; apply silent_ret]. }
  intros radial.
  apply emits_only_bind; [apply emits_only_trace_loop | intros res].
  apply emits_only_bind.
  { destruct (tr_is_ray_to_inf res); [| apply emits_only_silent, silent_ret].
    apply emits_only_bind; [apply emits_only_silent, silent_expect_array | intros i].
    apply emits_only_bind; [apply emits_only_isosurface_pt | intros p].
    apply emits_only_silent, silent_ret. }
  intros bnd_pt.
  apply emits_only_bind; [apply emits_only_silent, silent_expect_array | intros p].
  destruct (tr_is_ray_to_inf res); [apply emits_only_silent, silent_ret |].
  destruct (tr_found_watershed_on_ray res); apply emits_only_silent, silent_ret.
Qed.

Lemma silent_surface_pts_at idx angular_pts r_func_max maxima :
  silent (surface_pts_at idx angular_pts r_func_max maxima).
Proof.
  unfold surface_pts_at. apply silent_map_M. intros k.
  apply silent_bind; [apply silent_py_index | intros r].
  apply silent_bind; [apply silent_py_index | intros c]. apply silent_ret.
Qed.

Lemma emits_only_construct_points ias_i oas_i angular_pts r_func_max maxima :
  (forall pts, P (CallConvexHull pts)) ->
  emits_only P (construct_points_between_ias_and_oas E ias_i oas_i angular_pts r_func_max
                                                     maxima).
Proof.
  intros P_hull. unfold construct_points_between_ias_and_oas.
  assert (Hhull : forall pts, emits_only P (call_convex_hull E pts)).
  { intros pts. unfold call_convex_hull.
    apply emits_only_bind; [apply emits_only_emit, P_hull | intros _].
    destruct (ConvexHull_boundary E pts); apply emits_only_silent;
      [apply silent_ret | apply silent_raise]. }
  apply emits_only_bind; [apply emits_only_silent, silent_surface_pts_at | intros ip].
  apply emits_only_bind; [apply emits_only_silent, silent_surface_pts_at | intros op].
  apply emits_only_bind; [apply Hhull | intros ib].
  apply emits_only_bind; [apply Hhull | intros ob].
  apply emits_only_bind; [| intros blocks; apply emits_only_silent, silent_ret].
  apply emits_only_silent, silent_map_M. intros [i_ias pt_ias].
  apply silent_bind; [apply silent_py_index | intros row].
  apply silent_bind; [apply silent_py_index | intros k1].
  apply silent_bind; [apply silent_py_index | intros k2].
  apply silent_bind; [apply silent_py_index | intros pt1].
  apply silent_bind; [apply silent_py_index | intros pt2]. apply silent_ret.
Qed.

Context (fuel : nat) (self : qtaim_args -> M SurfaceQTAIM) (a : qtaim_args).

Hypothesis P_refining :
  refine a = RefineBool true ->
  (forall pts, P (CallConvexHull pts))
  /\ forall a', (exists pts, angular a' = AngPoints pts) ->
                (exists i, refine a' = RefineInt i) -> emits_only P (self a').

Lemma emits_only_refine_basin maximas angular_pts numb_ang_pts i_maxima maxima st :
  refine a = RefineBool true ->
  emits_only P (refine_basin E self a maximas angular_pts numb_ang_pts i_maxima maxima st).
Proof.
  intros Hrf. destruct (P_refining Hrf) as [P_hull P_self]. unfold refine_basin.
  apply emits_only_bind; [apply emits_only_silent, silent_py_index | intros ias_i].
  apply emits_only_bind; [apply emits_only_silent, silent_py_index | intros oas_i].
  apply emits_only_bind; [apply emits_only_silent, silent_py_index | intros row].
  apply emits_only_bind; [apply emits_only_construct_points, P_hull | intros new_pts].
  apply emits_only_bind; [apply P_self; simpl; eauto | intros refined].
  apply emits_only_bind; [apply emits_only_silent, silent_py_index | intros ri].
  apply emits_only_bind; [apply emits_only_silent, silent_py_index | intros ro].
  apply emits_only_bind; [apply emits_only_silent, silent_py_index | intros rb].
  apply emits_only_bind.
  { apply emits_only_silent. destruct (st_refined_ang st);
      [apply silent_ret | apply silent_raise]. }
  intros ra.
  apply emits_only_bind; [apply emits_only_silent, silent_py_index | intros rr].
  apply emits_only_silent, silent_ret.
Qed.

Lemma emits_only_trace_basin maximas angular_pts numb_ang_pts im st :
  emits_only P (trace_basin E fuel self a maximas angular_pts numb_ang_pts im st).
Proof.
  destruct im as [i_maxima maxima]. unfold trace_basin.
  destruct (in_maxima_to_do (refine a) i_maxima); [| apply emits_only_silent, silent_ret].
  apply emits_only_bind.
  { apply emits_only_silent. destruct (beta_sphere a) as [bs |]; [| apply silent_ret].
    apply silent_bind; [apply silent_py_index | intros b].
    apply silent_bind; [| intros o; apply silent_ret].
    unfold other_beta_spheres. apply silent_map_M. intros i. apply silent_py_index. }
  intros [beta_sph_max other_beta_sph].
  apply emits_only_bind.
  { apply emits_only_for_each. intros i_ang s. apply emits_only_trace_direction. }
  intros st'.
  destruct (refine_is_true (refine a)) eqn:Hrt; [| apply emits_only_silent, silent_ret].
  apply emits_only_refine_basin. apply refine_is_true_inv. exact Hrt.
Qed.

Lemma emits_only_qtaim_surface_body :
  (forall d, angular a = AngDegree d -> P (CallAngularGrid d)) ->
  emits_only P (qtaim_surface_body E fuel self a).
Proof.
  intros P_ang. unfold qtaim_surface_body.
  destruct (config_error a); [apply emits_only_silent, silent_raise |].
  apply emits_only_bind.
  { destruct (optimize_centers a); [| apply emits_only_silent, silent_ret].
    unfold _optimize_centers.
    apply emits_only_bind.
    - eapply emits_only_weaken; [exact P_of_ivp |].
      apply emits_only_map_M. intros x. apply emits_only_refine_center.
    - intros ms. destruct ms as [| m0 ms]; [apply emits_only_silent, silent_raise |].
      cbv zeta. destruct (any_below _ _); apply emits_only_silent;
        [apply silent_raise | apply silent_ret]. }
  intros maximas.
  apply emits_only_bind.
  { destruct (angular a) as [d | ds | pts] eqn:Hang.
    - apply emits_only_bind; [apply emits_only_emit, P_ang; reflexivity | intros _].
      apply emits_only_silent, silent_ret.
    - apply emits_only_silent, silent_raise.
    - apply emits_only_silent, silent_ret. }
  intros angular_pts. cbv zeta.
  apply emits_only_bind; [| intros st; apply emits_only_silent, silent_ret].
  apply emits_only_for_each. intros im st. apply emits_only_trace_basin.
Qed.

End DriverCalls.

Lemma emits_only_qtaim_surface (fuel depth : nat) :
  forall a, emits_only (driver_call a) (qtaim_surface E fuel depth a).
Proof.
  induction depth as [| depth IH]; intros a.
  - intros log o log' H. inversion H. exists []. rewrite app_nil_r. auto.
  - cbn [qtaim_surface].
    apply emits_only_qtaim_surface_body; try (intros; exact I).
    + intros Hrf. split; [intros pts; exact Hrf |].
      intros a' [pts Hang] [i Hri].
      eapply emits_only_weaken; [| apply IH].
      intros e. destruct e; simpl; try tauto.
      rewrite Hang. discriminate.
    + intros d Hd. exact Hd.
Qed.

(** X24.  Whatever the outcome of a call of [qtaim_surface], the call has
    only appended to the log of collaborator calls, and what it has
    appended are calls of the density, of the ODE solver and of the root
    finder, calls that build the angular grid of the degree given as
    [angular], and, for [refine=True] only, calls of the convex hull.  The
    atom grid is never built, and for an array of directions no angular
    grid is built. *)
Theorem qtaim_surface_collaborators (fuel depth : nat) (a : qtaim_args) log o log' :
  qtaim_surface E fuel depth a log = (o, log') ->
  exists new,
    log' = log ++ new
    /\ Forall (driver_call a) new
    /\ (forall rgrid deg center, ~ In (CallAtomGrid rgrid deg center) new)
    /\ (refine a <> RefineBool true -> forall pts, ~ In (CallConvexHull pts) new)
    /\ (forall pts, angular a = AngPoints pts -> forall d, ~ In (CallAngularGrid d) new).
Proof.
  intros H. destruct (emits_only_qtaim_surface fuel depth a _ _ _ H) as (new & -> & Hall).
  exists new. split; [reflexivity |]. split; [exact Hall |].
  rewrite List.Forall_forall in Hall. split; [| split].
  - intros rgrid deg center Hin. exact (Hall _ Hin).
  - intros Hrf pts Hin. exact (Hrf (Hall _ Hin)).
  - intros pts Hang d Hin. specialize (Hall _ Hin). simpl in Hall.
    rewrite Hang in Hall. discriminate.
Qed.
End Properties.

(** * The properties on the worked configuration *)

Lemma ex_args_run :
  qtaim_surface ex_env 20 2 ex_args []
  = (Ret ex_surface, snd (qtaim_surface ex_env 20 2 ex_args [])).
Proof. vm_compute. reflexivity. Qed.

Lemma ex_args_int_run :
  qtaim_surface ex_env 20 2 ex_args_int []
  = (Ret ex_surface_int, snd (qtaim_surface ex_env 20 2 ex_args_int [])).
Proof. vm_compute. reflexivity. Qed.

Lemma ex_args_deg_run :
  qtaim_surface ex_env 20 2 ex_args_deg []
  = (Ret ex_surface_deg, snd (qtaim_surface ex_env 20 2 ex_args_deg [])).
Proof. vm_compute. reflexivity. Qed.

(** ** C1 *)



(** ** C2 *)

(** C2, as stated, fails on the ray that leaves the left maximum away from
    the right one, with [iso_val] 1/2.  No sample is below the cutoff, so
    the floor-crossing index of the statement is that of the final grid
    radius, 5, and its bracket would be (3, 8).  The tracer hands over
    index 1, where the density 3/5 is closest to 1/2, and the root-finder
    is called with the bracket (1/2, 3/2). *)
Lemma bracket_is_not_at_floor_crossing :
  exists res log,
    solve_for_basin_bnd_pt ex_env 20 (1 # 100) ex_A ex_dir_out [ex_B] (1 # 10) (1 # 2)
                           None None ex_rgrid [] = (Ret res, log)
    /\ tr_is_ray_to_inf res = true
    /\ tr_index_iso res = Some 1%Z
    /\ fst (iso_bracket 1 ex_rgrid []) = Ret (1 # 2, 3 # 2)
    /\ In (CallRootScalar (1 # 2) (3 # 2) (1 # 1000000))
          (snd (solve_for_isosurface_pt ex_env 1 ex_rgrid ex_A ex_dir_out (1 # 2)
                                        (1 # 1000000) log))
    /\ spec_floor_crossing_index (1 # 100) (map ex_density ex_ray_out) = 5%nat
    /\ spec_bracket ex_rgrid 5 = Some (3, 8)
    /\ ~ (1 # 2 == 3) /\ ~ (3 # 2 == 8).
Proof.
  eexists. eexists.
  split; [vm_compute; reflexivity |].
  split; [reflexivity |]. split; [reflexivity |].
  split; [vm_compute; reflexivity |].
  split; [vm_compute; tauto |].
  split; [vm_compute; reflexivity |].
  split; [vm_compute; reflexivity |].
  split; intros H; vm_compute in H; discriminate H.
Qed.

Lemma escaping_ray_bracket_witness :
  (exists g idx r_i,
      tr_index_iso (ray_to_inf_result 1) = Some (Z.of_nat idx)
      /\ last_pass_on ex_env ex_A ex_dir_out g
            (snd (solve_for_basin_bnd_pt ex_env 20 (1 # 100) ex_A ex_dir_out [ex_B] (1 # 10)
                                         (1 # 2) None None ex_rgrid []))
      /\ g !! idx = Some r_i
      /\ forall r_k, In r_k g ->
           iso_gap ex_env ex_A ex_dir_out (1 # 2) r_i
           <= iso_gap ex_env ex_A ex_dir_out (1 # 2) r_k)
  /\ iso_bracket 1 ex_rgrid [] = (Ret (1 # 2, 3 # 2), []).
Proof.
  destruct (escaping_ray_bracket ex_env 20 (1 # 100) ex_A ex_dir_out [ex_B] (1 # 10) (1 # 2)
              None None ex_rgrid [] (ray_to_inf_result 1)
              (snd (solve_for_basin_bnd_pt ex_env 20 (1 # 100) ex_A ex_dir_out [ex_B]
                                           (1 # 10) (1 # 2) None None ex_rgrid [])))
    as [Hidx Hbr].
  - vm_compute. reflexivity.
  - reflexivity.
  - split; [exact Hidx |].
    apply (Hbr ex_rgrid 1%nat (1 # 2) 1 []); [lia | reflexivity | reflexivity].
Defined.

(** ** C3 *)

(** In the uniform field (1, 0, 0) no trajectory settles.  Without a beta
    sphere the integrator gives up after its 10 attempts, each over a
    horizon extended by 200. *)
Lemma gradient_path_gives_up_without_beta_sphere :
  exists log,
    gradient_path drift_env 10 (mkvec 5 0 0) (0, 1000) LSODA 100 200 10 (1 # 1000) None None []
    = (Raise (RuntimeError_no_convergence (mkvec 5 0 0) (mkvec 2805 0 0) (2800, 3000)), log)
    /\ length log = 10%nat.
Proof. eexists. split; [vm_compute; reflexivity | reflexivity]. Qed.

(** C3, on a failing input.  The density gradient is the uniform field
    (1, 0, 0), there is a beta sphere of radius 1/2 around the origin, and
    the path starts at (5, 0, 0).  The trajectory ends at (1005, 0, 0), one
    step of 100 after (905, 0, 0): it has not settled and it is outside the
    sphere.  [gradient_path] then makes the same attempt again and again:
    with any amount of fuel the loop is still running, having called the
    solver once per unit of fuel, although [max_tries] is 10. *)
Theorem gradient_path_stalls_outside_beta_sphere :
  forall fuel,
    gradient_path drift_env fuel (mkvec 5 0 0) (0, 1000) LSODA 100 200 10 (1 # 1000)
                  (Some (1 # 2)) (Some (mkvec 0 0 0)) []
    = (Diverge,
       replicate fuel
                 (CallSolveIvp (mk_ivp_args (mkvec 5 0 0) (0, 1000) LSODA 100 (1 # 1000)))).
Proof.
  intros fuel. unfold gradient_path, gradient_path_with.
  apply (gradient_path_loop_stalls drift_env (mkvec 5 0 0) LSODA 100 200 10 (1 # 1000)
           (Some (1 # 2)) (Some (mkvec 0 0 0)) (1 # 2) (mkvec 0 0 0) (mkvec 5 0 0) (0, 1000)
           0%nat eq_refl eq_refl); [lia | | |]; vm_compute; reflexivity.
Qed.

(** ** C4 *)

Lemma oas_ias_partition_witness :
  NoDup ([1%nat] ++ [0%nat])
  /\ (forall k, In k ([1%nat] ++ [0%nat])
                <-> in_maxima_to_do (RefineBool false) 0 = true
                    /\ (k < length [41 # 40; 1871 # 512])%nat).
Proof.
  apply (oas_ias_partition ex_env 20 2 ex_args [] ex_surface
           (snd (qtaim_surface ex_env 20 2 ex_args [])) 0%nat).
  - vm_compute. reflexivity.
  - reflexivity.
  - reflexivity.
  - reflexivity.
Defined.

(** ** C5 *)

(** C5, on a failing input.  For the two maxima of the worked
    configuration the solver records the neighbour id 1 for the IAS point of basin 0 and for the IAS point of
    basin 1.  The id is one more than a position in the array of the other
    maxima, which has the basin's own maximum deleted, and is not mapped
    back: it coincides with the own index of basin 1 counted from 0, and
    with the own number of basin 0 counted from 1. *)
Theorem neighbor_id_is_position_among_others :
  fst (qtaim_surface ex_env 20 2 ex_args []) = Ret ex_surface
  /\ ias ex_surface = [[0%nat]; [1%nat]]
  /\ basins_ias ex_surface = [[Some 1%nat]; [Some 1%nat]].
Proof.
  split; [vm_compute; reflexivity |]. split; reflexivity.
Qed.

(** ** C6 *)

Lemma qtaim_surface_validates_eagerly_witness :
  exists e, config_error ex_args_bad_cutoff = Some e
            /\ qtaim_surface ex_env 20 1 ex_args_bad_cutoff [] = (Raise e, []).
Proof.
  apply (qtaim_surface_validates_eagerly ex_env 20 0 ex_args_bad_cutoff []).
  left. vm_compute. reflexivity.
Defined.

(** ** C7 *)

Lemma duplicate_maxima_abort_witness :
  qtaim_surface ex_env 20 1 ex_args_two_seeds []
  = (Raise (RuntimeError_duplicates [ex_A; ex_A]),
     snd (map_M (refine_center ex_env 20) (centers ex_args_two_seeds) []))
  /\ exists new,
       snd (map_M (refine_center ex_env 20) (centers ex_args_two_seeds) []) = [] ++ new
       /\ Forall is_ivp_call new.
Proof.
  apply (duplicate_maxima_abort ex_env 20 0 ex_args_two_seeds [] [ex_A; ex_A]
           (snd (map_M (refine_center ex_env 20) (centers ex_args_two_seeds) []))
           0%nat 1%nat ex_A ex_A).
  - vm_compute. reflexivity.
  - reflexivity.
  - vm_compute. reflexivity.
  - lia.
  - reflexivity.
  - reflexivity.
  - vm_compute. reflexivity.
Defined.

(** ** C8 *)

Lemma isosurface_pt_checks_bracket_first_witness :
  exists p log',
    solve_for_isosurface_pt ex_env 5 ex_rgrid ex_A ex_dir_out (1 # 10) (1 # 1000000) []
    = (Ret p, log')
    /\ ex_density (ray_point ex_A 8 ex_dir_out) <= 1 # 10
    /\ 1 # 10 <= ex_density (ray_point ex_A 3 ex_dir_out)
    /\ In (CallRootScalar 3 8 (1 # 1000000)) log'.
Proof.
  eexists. eexists. split; [vm_compute; reflexivity |].
  destruct (isosurface_pt_checks_bracket_first ex_env 5 ex_rgrid ex_A ex_dir_out (1 # 10)
              (1 # 1000000) 3 8 []) as (_ & _ & Hret); [vm_compute; reflexivity |].
  edestruct Hret as (Hu & Hl & _ & _ & Hin); [vm_compute; reflexivity |].
  split; [exact Hu |]. split; [exact Hl | exact Hin].
Defined.

(** ** C9 *)

(** C9, on a failing input.  On the surface that [qtaim_surface] returns
    for the worked configuration, [get_atom_grid_over_basin] does not
    return a grid: the
    radial function is a list of arrays, and [r_func[i_basin, i_sph]]
    raises for basin 0 as soon as the atom grid is built; for basin 1 there
    is no radial grid, [rad_grids] having the one entry [[rgrids]]. *)
Theorem get_atom_grid_over_basin_raises :
  fst (qtaim_surface ex_env 20 2 ex_args_deg []) = Ret ex_surface_deg
  /\ get_atom_grid_over_basin ex_env ex_surface_deg 0 []
     = (Raise TypeError_list_index, [CallAtomGrid ex_rgrid 3 ex_A])
  /\ get_atom_grid_over_basin ex_env ex_surface_deg 1 [] = (Raise IndexError, []).
Proof.
  split; [vm_compute; reflexivity |]. split; vm_compute; reflexivity.
Qed.

(** ** C10 *)


(** * The further properties on the worked configurations *)

Lemma ex_args_solo_run :
  qtaim_surface ex_env 20 2 ex_args_solo []
  = (Ret ex_surface_solo, snd (qtaim_surface ex_env 20 2 ex_args_solo [])).
Proof. vm_compute. reflexivity. Qed.

Lemma ex_args_deg_int_run :
  qtaim_surface ex_env 20 2 ex_args_deg_int []
  = (Ret ex_surface_deg_int, snd (qtaim_surface ex_env 20 2 ex_args_deg_int [])).
Proof. vm_compute. reflexivity. Qed.

Lemma ex_atom_grid_layout (rgrid : list Q) (deg : Z) (center : vec) :
  atom_grid_layout (ex_atom_grid rgrid deg center).
Proof.
  unfold atom_grid_layout, ex_atom_grid.
  cbn [ag_indices ag_rgrid_points ag_shell_size ag_weights]. split.
  - intros k Hk. rewrite lookup_map, lookup_seq_lt by lia.
    cbn [option_map]. f_equal. lia.
  - rewrite length_replicate. lia.
Qed.

(** ** Gradient-flow integrator *)

Lemma gradient_path_ends_within_max_tries_witness :
  exists o new,
    gradient_path drift_env 10 (mkvec 5 0 0) (0, 1000) LSODA 100 200 10 (1 # 1000) None None []
    = (o, [] ++ new)
    /\ (length new <= 10)%nat
    /\ Forall is_ivp_call new
    /\ o <> Diverge /\ o <> Ret None
    /\ forall p s t, o = Raise (RuntimeError_no_convergence p s t) -> length new = 10%nat.
Proof.
  apply (gradient_path_ends_within_max_tries drift_env 10 (mkvec 5 0 0) (0, 1000) LSODA 100
           200 10 (1 # 1000) None []).
  lia.
Defined.

Lemma gradient_path_returns_settled_point_witness :
  exists a new,
    [CallSolveIvp (mk_ivp_args (mkvec (1 # 2) 0 0) (0, 1000) LSODA 50 (1 # 1000))] = [] ++ new
    /\ Forall is_ivp_call new /\ In (CallSolveIvp a) new
    /\ let sol := solve_ivp ex_env (fun _ x => grad_func ex_env x) a in
       Some ex_B = Some (sol_y_last sol) /\ sol_success sol = true
       /\ (vall_lt (vabs (vsub (sol_y_prev sol) (sol_y_last sol))) (1 # 100) = true
           \/ exists beta m, @None Q = Some beta /\ Some ex_A = Some m
                             /\ norm ex_env (vsub (sol_y_last sol) m) < beta).
Proof.
  apply (gradient_path_returns_settled_point ex_env 20 (mkvec (1 # 2) 0 0) (0, 1000) LSODA 50
           200 10 (1 # 1000) None (Some ex_A) [] (Some ex_B)
           [CallSolveIvp (mk_ivp_args (mkvec (1 # 2) 0 0) (0, 1000) LSODA 50 (1 # 1000))]).
  vm_compute. reflexivity.
Defined.

Lemma gradient_path_retries_extend_horizon_witness :
  exists calls,
    snd (gradient_path drift_env 10 (mkvec 5 0 0) (0, 1000) LSODA 100 200 10 (1 # 1000)
                       None None [])
    = [] ++ map CallSolveIvp calls
    /\ retry_chain drift_env 200 calls
    /\ (forall a0, head calls = Some a0 ->
                   a0 = mk_ivp_args (mkvec 5 0 0) (0, 1000) LSODA 100 (1 # 1000)).
Proof.
  apply (gradient_path_retries_extend_horizon drift_env 10 (mkvec 5 0 0) (0, 1000) LSODA 100
           200 10 (1 # 1000) None []
           (Raise (RuntimeError_no_convergence (mkvec 5 0 0) (mkvec 2805 0 0) (2800, 3000)))).
  vm_compute. reflexivity.
Defined.

(** ** Isosurface root-finder and ray tracer *)

Lemma isosurface_pt_index_past_grid_witness :
  solve_for_isosurface_pt ex_env 6 ex_rgrid ex_A ex_dir_out (1 # 10) (1 # 1000000) []
  = (Raise IndexError, []).
Proof.
  apply (isosurface_pt_index_past_grid ex_env 6 ex_rgrid ex_A ex_dir_out (1 # 10)
           (1 # 1000000) []).
  simpl. lia.
Defined.

Lemma basin_bnd_pt_result_kinds_witness :
  let res := mk_trace_result (Some (mkvec (32000 # 1280000) (0 # 1280000) (0 # 1280000)))
                             false None true (Some 1%nat) in
  let log' := snd (solve_for_basin_bnd_pt ex_env 20 (1 # 100) ex_A ex_dir_in [ex_B] (1 # 10)
                                          (1 # 10) None None ex_rgrid []) in
  (exists g bnd_pt basin_id,
      res = mk_trace_result (Some bnd_pt) false None true (Some basin_id)
      /\ (1 <= basin_id <= length [ex_B])%nat
      /\ last_pass_on ex_env ex_A ex_dir_in g log'
      /\ watershed_found ex_env 20 (1 # 100) ex_A ex_dir_in [ex_B] (1 # 10) None None
                         g bnd_pt basin_id)
  \/ (exists g index_iso r_i,
         res = mk_trace_result None true (Some (Z.of_nat index_iso)) false None
         /\ last_pass_on ex_env ex_A ex_dir_in g log'
         /\ g !! index_iso = Some r_i
         /\ forall r_k, In r_k g ->
              iso_gap ex_env ex_A ex_dir_in (1 # 10) r_i
              <= iso_gap ex_env ex_A ex_dir_in (1 # 10) r_k).
Proof.
  apply (basin_bnd_pt_result_kinds ex_env 20 (1 # 100) ex_A ex_dir_in [ex_B] (1 # 10) (1 # 10)
           None None ex_rgrid [] _
           (snd (solve_for_basin_bnd_pt ex_env 20 (1 # 100) ex_A ex_dir_in [ex_B] (1 # 10)
                                        (1 # 10) None None ex_rgrid []))).
  vm_compute. reflexivity.
Defined.

Lemma basin_bnd_pt_isolated_maximum_witness :
  let res := mk_trace_result None true (Some 5%Z) false None in
  tr_is_ray_to_inf res = true /\ tr_found_watershed_on_ray res = false
  /\ tr_bnd_pt res = None /\ tr_basin_id res = None.
Proof.
  apply (basin_bnd_pt_isolated_maximum ex_env 20 (1 # 100) ex_A ex_dir_out (1 # 10) (1 # 10)
           None None ex_rgrid [] _
           (snd (solve_for_basin_bnd_pt ex_env 20 (1 # 100) ex_A ex_dir_out [] (1 # 10)
                                        (1 # 10) None None ex_rgrid []))).
  vm_compute. reflexivity.
Defined.

Lemma basin_bnd_pt_first_sample_at_cutoff_witness :
  exists index_iso r_i,
    solve_for_basin_bnd_pt ex_env 1 2 ex_A ex_dir_out [ex_B] (1 # 10) (1 # 10) None None
                           ex_rgrid []
    = (Ret (ray_to_inf_result index_iso), [] ++ [CallDensity ex_ray_out])
    /\ ex_rgrid !! index_iso = Some r_i
    /\ forall r_k, In r_k ex_rgrid ->
         iso_gap ex_env ex_A ex_dir_out (1 # 10) r_i
         <= iso_gap ex_env ex_A ex_dir_out (1 # 10) r_k.
Proof.
  apply (basin_bnd_pt_first_sample_at_cutoff ex_env 0 2 ex_A ex_dir_out [ex_B] (1 # 10)
           (1 # 10) None None (1 # 2) [1; 3 # 2; 2; 3; 4] []).
  vm_compute. discriminate.
Defined.

Lemma basin_switch_at_first_sample_witness :
  (1 # 10 <= ex_norm (vsub (ray_point ex_A (3 # 2) ex_dir_in) (ray_point ex_A 3 ex_dir_in)))
  /\ ray_iter ex_env 20 (1 # 100) ex_A [ex_B] (1 # 10) None None far_rgrid far_ray
              (map ex_density far_ray) (Some (3 # 4)) 0 (ray_point ex_A (3 # 2) ex_dir_in) []
     = (Ret (Some (RefineRay
                     (arange_values
                        (1 # 1000)
                        (ex_norm (vsub (ray_point ex_A (3 # 2) ex_dir_in) ex_A) + (3 # 4) / 10)
                        ((3 # 4) / 10))
                     (Some ((3 # 4) / 10)))),
        snd (gradient_path ex_env 20 (ray_point ex_A (3 # 2) ex_dir_in)
                           (0, py_max (1000 * (3 # 2)) 75) LSODA 50 200 10 (1 # 1000) None
                           (Some ex_A) [])).
Proof.
  assert (Hge : 1 # 10 <= ex_norm (vsub (ray_point ex_A (3 # 2) ex_dir_in)
                                        (ray_point ex_A 3 ex_dir_in)))
    by (vm_compute; discriminate).
  split; [exact Hge |].
  refine (proj2
    (basin_switch_at_first_sample ex_env 20 (1 # 100) ex_A [ex_B] (1 # 10) None None
       far_rgrid (ray_point ex_A (3 # 2) ex_dir_in)
       [ray_point ex_A 2 ex_dir_in; ray_point ex_A 3 ex_dir_in]
       (map ex_density far_ray) (Some (3 # 4)) (ray_point ex_A (3 # 2) ex_dir_in)
       (ex_density (ray_point ex_A (3 # 2) ex_dir_in)) (3 # 2) ex_B []
       (snd (gradient_path ex_env 20 (ray_point ex_A (3 # 2) ex_dir_in)
                           (0, py_max (1000 * (3 # 2)) 75) LSODA 50 200 10 (1 # 1000) None
                           (Some ex_A) []))
       _ _ _ _ _) Hge (3 # 4) eq_refl _).
  - reflexivity.
  - reflexivity.
  - vm_compute. reflexivity.
  - vm_compute. reflexivity.
  - vm_compute. reflexivity.
  - vm_compute. discriminate.
Defined.

Lemma basin_switch_by_beta_sphere_alone_raises_witness :
  ray_iter slow_env 20 (1 # 100) ex_A [ex_B] (1 # 10) (Some (1 # 2)) (Some [1 # 2])
           fine_rgrid fine_ray (map ex_density fine_ray) (Some (1 # 20)) 1
           (ray_point ex_A (31 # 20) ex_dir_in) []
  = (Raise IndexError,
     snd (gradient_path slow_env 20 (ray_point ex_A (31 # 20) ex_dir_in)
                        (0, py_max (1000 * (31 # 20)) 75) LSODA 50 200 10 (1 # 1000)
                        (Some (1 # 2)) (Some ex_A) [])).
Proof.
  apply (basin_switch_by_beta_sphere_alone_raises slow_env 20 (1 # 100) ex_A [ex_B] (1 # 10)
           (Some (1 # 2)) (Some [1 # 2]) fine_rgrid fine_ray (map ex_density fine_ray)
           (Some (1 # 20)) 1 (ray_point ex_A (31 # 20) ex_dir_in)
           (ray_point ex_A (31 # 20) ex_dir_in) (ray_point ex_A (3 # 2) ex_dir_in)
           (ex_density (ray_point ex_A (31 # 20) ex_dir_in)) (31 # 20)
           (mkvec (31 # 40) 0 0) []).
  - lia.
  - reflexivity.
  - reflexivity.
  - reflexivity.
  - reflexivity.
  - vm_compute. reflexivity.
  - vm_compute. reflexivity.
  - intros m [<- | []]. vm_compute. discriminate.
  - vm_compute. reflexivity.
  - vm_compute. reflexivity.
Defined.

(** ** The driver and the surface it returns *)

Lemma neighbour_ids_in_range_witness :
  exists k, Some 1%nat = Some k /\ (1 <= k <= length (maximas ex_surface) - 1)%nat.
Proof.
  apply (neighbour_ids_in_range ex_env 20 2 ex_args [] ex_surface
           (snd (qtaim_surface ex_env 20 2 ex_args [])) 0 [Some 1%nat]).
  - vm_compute. reflexivity.
  - reflexivity.
  - left. reflexivity.
Defined.

Lemma single_maximum_has_no_ias_witness :
  @nil nat = [] /\ @nil (option nat) = []
  /\ (in_maxima_to_do (refine ex_args_solo) 0 = true ->
      Permutation [0%nat; 1%nat] (seq 0 (length [2891 # 512; 1871 # 512]))).
Proof.
  apply (single_maximum_has_no_ias ex_env 20 2 ex_args_solo [] ex_surface_solo
           (snd (qtaim_surface ex_env 20 2 ex_args_solo []))).
  - vm_compute. reflexivity.
  - reflexivity.
  - reflexivity.
  - reflexivity.
  - reflexivity.
  - reflexivity.
Defined.

Lemma surface_records_arguments_witness :
  rad_grids ex_surface = [rgrids ex_args]
  /\ angular_degs ex_surface = angular ex_args
  /\ (exists rows, r_func ex_surface = PyList rows
                   /\ length rows = length (maximas ex_surface))
  /\ (optimize_centers ex_args = false -> maximas ex_surface = centers ex_args).
Proof.
  apply (surface_records_arguments ex_env 20 2 ex_args []
           ex_surface (snd (qtaim_surface ex_env 20 2 ex_args []))).
  vm_compute. reflexivity.
Defined.

Lemma atom_grid_unavailable_on_result_witness :
  get_atom_grid_over_basin ex_env ex_surface_deg 0 []
  = (Raise TypeError_list_index, [] ++ [CallAtomGrid (rgrids ex_args_deg) 3 ex_A])
  /\ get_atom_grid_over_basin ex_env ex_surface_deg 1 [] = (Raise IndexError, []).
Proof.
  apply (atom_grid_unavailable_on_result ex_env 20 2 ex_args_deg [] ex_surface_deg
           (snd (qtaim_surface ex_env 20 2 ex_args_deg [])) 3 ex_A 0 []).
  - vm_compute. reflexivity.
  - reflexivity.
  - reflexivity.
  - simpl. lia.
Defined.

Lemma refined_ang_of_result_witness : refined_ang ex_surface_int = Some [].
Proof.
  apply (refined_ang_of_result ex_env 20 2 ex_args_int [] ex_surface_int
           (snd (qtaim_surface ex_env 20 2 ex_args_int []))).
  vm_compute. reflexivity.
Defined.

Lemma surface_points_of_result_witness :
  let row := [41 # 40; 1871 # 512; 2121 # 512; 2121 # 512; 2121 # 512; 2121 # 512] in
  exists sph_pts,
    generate_angular_pts_of_basin ex_env ex_surface_deg 0 []
    = (Ret sph_pts, [] ++ [CallAngularGrid 3])
    /\ length sph_pts = length row
    /\ take (length (AngularGrid_points ex_env 3)) sph_pts = AngularGrid_points ex_env 3
    /\ generate_pts_on_surface ex_env ex_surface_deg 0 []
       = (Ret (map (fun p => ray_point ex_A (fst p) (snd p)) (combine row sph_pts)),
          [] ++ [CallAngularGrid 3]).
Proof.
  apply (surface_points_of_result ex_env 20 2 ex_args_deg [] ex_surface_deg
           (snd (qtaim_surface ex_env 20 2 ex_args_deg [])) 3 false 0 ex_A).
  - vm_compute. reflexivity.
  - reflexivity.
  - reflexivity.
  - reflexivity.
  - reflexivity.
Defined.

Lemma ias_oas_points_of_result_witness :
  let row := [41 # 40; 1871 # 512; 2121 # 512; 2121 # 512; 2121 # 512; 2121 # 512] in
  exists sph_pts ias_pts oas_pts,
    generate_angular_pts_of_basin ex_env ex_surface_deg 0 []
    = (Ret sph_pts, [] ++ [CallAngularGrid 3])
    /\ get_ias_pts_of_basin ex_env ex_surface_deg 0 []
       = (Ret ias_pts, [] ++ [CallAngularGrid 3])
    /\ get_oas_pts_of_basin ex_env ex_surface_deg 0 []
       = (Ret oas_pts, [] ++ [CallAngularGrid 3])
    /\ Forall2 (point_on_ray ex_A row sph_pts) [0%nat] ias_pts
    /\ Forall2 (point_on_ray ex_A row sph_pts) [1; 2; 3; 4; 5]%nat oas_pts
    /\ (length ias_pts + length oas_pts = length row)%nat.
Proof.
  apply (ias_oas_points_of_result ex_env 20 2 ex_args_deg [] ex_surface_deg
           (snd (qtaim_surface ex_env 20 2 ex_args_deg [])) 3 false 0 ex_A).
  - vm_compute. reflexivity.
  - reflexivity.
  - reflexivity.
  - reflexivity.
  - reflexivity.
  - reflexivity.
  - reflexivity.
Defined.

Lemma integer_refine_surface_has_no_points_witness :
  generate_angular_pts_of_basin ex_env ex_surface_deg_int 1 []
  = (Raise IndexError, [] ++ [CallAngularGrid 3])
  /\ generate_pts_on_surface ex_env ex_surface_deg_int 1 []
     = (Raise IndexError, [] ++ [CallAngularGrid 3]).
Proof.
  apply (integer_refine_surface_has_no_points ex_env 20 2 ex_args_deg_int []
           ex_surface_deg_int (snd (qtaim_surface ex_env 20 2 ex_args_deg_int [])) 3 1 1 []).
  - vm_compute. reflexivity.
  - reflexivity.
  - reflexivity.
  - lia.
Defined.

Lemma get_atom_grid_over_basin_on_array_witness :
  let g := AtomGrid ex_env ex_rgrid 3 ex_A in
  let pts := ag_rgrid_points g in
  let n := ag_shell_size g in
  let row := [1; 2; 2; 2; 2; 2] in
  get_atom_grid_over_basin ex_env ex_surface_array 0 []
  = (Ret (mk_atom_grid pts n (ag_indices g) (masked_weights pts n row (ag_weights g))),
     [] ++ [CallAtomGrid ex_rgrid 3 ex_A])
  /\ forall i_rad i_sph r r_limit w,
       pts !! i_rad = Some r -> (i_sph < n)%nat -> row !! i_sph = Some r_limit ->
       ag_weights g !! (i_rad * n + i_sph)%nat = Some w ->
       masked_weights pts n row (ag_weights g) !! (i_rad * n + i_sph)%nat
       = Some (if Qgtb r r_limit then 0 else w).
Proof.
  apply (get_atom_grid_over_basin_on_array ex_env ex_surface_array 0
           [[1; 2; 2; 2; 2; 2]; [2; 1; 2; 2; 2; 2]] [1; 2; 2; 2; 2; 2] ex_rgrid 3 ex_A []).
  - reflexivity.
  - reflexivity.
  - reflexivity.
  - reflexivity.
  - reflexivity.
  - apply ex_atom_grid_layout.
  - simpl. lia.
Defined.

(** ** Maxima locator, surface refiner and projection *)

Lemma optimize_centers_returns_separated_witness :
  Forall2 (fun x m => exists l1 l2,
             gradient_path ex_env 20 x (0, 10) Radau (1 # 100) 200 10 (1 # 1000000000)
                           None None l1 = (Ret (Some m), l2)) ex_seeds [ex_A; ex_B]
  /\ (forall i j mi mj, i <> j -> [ex_A; ex_B] !! i = Some mi -> [ex_A; ex_B] !! j = Some mj ->
                        1 # 100000000 <= norm ex_env (vsub mi mj))
  /\ exists new, snd (_optimize_centers ex_env 20 ex_seeds []) = [] ++ new
                 /\ Forall is_ivp_call new.
Proof.
  apply (optimize_centers_returns_separated ex_env 20 ex_seeds [] [ex_A; ex_B]).
  vm_compute. reflexivity.
Defined.

Lemma refinement_directions_count_witness :
  exists ias_pts oas_pts ias_bnd oas_bnd,
    surface_pts_at [0; 2; 3; 4]%nat six_axes [1; 1; 1; 2; 1; 1] (mkvec 0 0 0) []
    = (Ret ias_pts, [])
    /\ surface_pts_at [1; 2; 3; 5]%nat six_axes [1; 1; 1; 2; 1; 1] (mkvec 0 0 0) []
       = (Ret oas_pts, [])
    /\ ConvexHull_boundary ex_env ias_pts = Some ias_bnd
    /\ ConvexHull_boundary ex_env oas_pts = Some oas_bnd
    /\ snd ex_refinement_run = [] ++ [CallConvexHull ias_pts; CallConvexHull oas_pts]
    /\ length ex_refinement_pts = (7 * length ias_bnd)%nat
    /\ (ias_bnd <> [] -> (2 <= length oas_bnd)%nat).
Proof.
  apply (refinement_directions_count ex_env [0; 2; 3; 4]%nat [1; 2; 3; 5]%nat six_axes
           [1; 1; 1; 2; 1; 1] (mkvec 0 0 0) []).
  vm_compute. reflexivity.
Defined.


(** ** Beta spheres *)

Lemma beta_sphere_beyond_grid_raises_witness :
  qtaim_surface ex_env 20 1 ex_args_wide_beta []
  = (Raise IndexError,
     snd (_optimize_centers ex_env 20 [ex_A; ex_B] [])
     ++ [CallAngularGrid 3] ++ [CallDensity []]).
Proof.
  apply (beta_sphere_beyond_grid_raises ex_env 19 0 ex_args_wide_beta [1 # 4; 5] 5
           [ex_A; ex_B] 1 (mkvec 1 0 0)
           [mkvec (-1) 0 0; mkvec 0 1 0; mkvec 0 (-1) 0; mkvec 0 0 1; mkvec 0 0 (-1)] []).
  - reflexivity.
  - vm_compute. reflexivity.
  - reflexivity.
  - simpl. lia.
  - reflexivity.
  - intros j Hj. assert (j = 0%nat) as -> by lia. reflexivity.
  - reflexivity.
  - reflexivity.
  - intros r Hr. simpl in Hr.
    repeat (destruct Hr as [<- | Hr]; [vm_compute; discriminate |]). destruct Hr.
Defined.

(** ** Collaborators *)

Lemma qtaim_surface_collaborators_witness :
  exists new,
    snd (qtaim_surface ex_env 20 2 ex_args []) = [] ++ new
    /\ Forall (driver_call ex_args) new
    /\ (forall rgrid deg center, ~ In (CallAtomGrid rgrid deg center) new)
    /\ (refine ex_args <> RefineBool true -> forall pts, ~ In (CallConvexHull pts) new)
    /\ (forall pts, angular ex_args = AngPoints pts ->
                    forall d, ~ In (CallAngularGrid d) new).
Proof.
  apply (qtaim_surface_collaborators ex_env 20 2 ex_args [] (Ret ex_surface)).
  vm_compute. reflexivity.
Defined.
